(** * Role matrix: permission resolver and modal workflows

    A shallow embedding of [src/pages/roleMatrix.tsx] and [src/api/client.ts].
    Numbers that the page uses as identifiers are integers ([Z]); strings are
    byte strings; the [Map] that indexes permissions is a [gmap] over the very
    key text the page builds; the remote API is an interface ([Backend]). *)

From Stdlib Require Import ZArith Ascii String List Lia SpecFloat.
From stdpp Require Import base tactics option list sorting strings pretty gmap fin_maps.

Set Warnings "-register-all".

Local Open Scope string_scope.
Local Open Scope list_scope.
Local Open Scope Z_scope.

(** ** Data model (the [type] declarations of the page) *)

Inductive Action := Aread | Acreate | Aupdate | Adelete.

Definition ACTIONS : list Action := [Aread; Acreate; Aupdate; Adelete].

(** The string literal an [Action] stands for. *)
Definition action_name (a : Action) : string :=
  match a with
  | Aread => "read"
  | Acreate => "create"
  | Aupdate => "update"
  | Adelete => "delete"
  end.

(** [fields?: string[] | string] *)
Inductive FieldsPayload :=
| FieldsArray (l : list string)
| FieldsString (s : string)
| FieldsMissing.

Record User := { u_id : Z; u_name : string }.

Record ModuleRow := { m_id : Z; m_name : string; m_fields : FieldsPayload }.

Record Permission := {
  p_id : option Z;
  p_roleId : Z;
  p_moduleId : Z;
  p_actions : list string;
  p_visibleFields : option (list string);
  p_editableFields : option (list string);
}.

Record UserRole := { ur_id : option Z; ur_userId : Z; ur_roleId : Z }.

Record Role := { r_id : Z; r_name : string }.

Global Instance Permission_eq_dec : EqDecision Permission.
Proof. solve_decision. Defined.
Global Instance UserRole_eq_dec : EqDecision UserRole.
Proof. solve_decision. Defined.
Global Instance Role_eq_dec : EqDecision Role.
Proof. solve_decision. Defined.
Global Instance Action_eq_dec : EqDecision Action.
Proof. solve_decision. Defined.

(** [{ ...perm, actions: newActions }] *)
Definition with_actions (perm : Permission) (newActions : list string) : Permission :=
  {| p_id := p_id perm; p_roleId := p_roleId perm; p_moduleId := p_moduleId perm;
     p_actions := newActions;
     p_visibleFields := p_visibleFields perm;
     p_editableFields := p_editableFields perm |}.

(** [{ ...existing, visibleFields: v, editableFields: e }] *)
Definition with_fields (existing : Permission) (v e : list string) : Permission :=
  {| p_id := p_id existing; p_roleId := p_roleId existing;
     p_moduleId := p_moduleId existing;
     p_actions := p_actions existing;
     p_visibleFields := Some v;
     p_editableFields := Some e |}.

(** The row test [p.roleId === R && p.moduleId === M]. *)
Definition row_of (R M : Z) (p : Permission) : Prop :=
  p_roleId p = R /\ p_moduleId p = M.

Global Instance row_of_dec R M p : Decision (row_of R M p).
Proof. unfold row_of. apply _. Defined.

(** [x || []] on an optional array. *)
Definition or_empty (o : option (list string)) : list string := default [] o.

(** ** Permission resolver *)

(** The template literal [`${roleId}-${moduleId}`]. *)
Definition perm_key (roleId moduleId : Z) : string :=
  pretty roleId +:+ "-" +:+ pretty moduleId.

(** [permissions.forEach((p) => m.set(key, p))] on a fresh [Map]. *)
Definition permMap (permissions : list Permission) : gmap string Permission :=
  foldl (fun m p => <[perm_key (p_roleId p) (p_moduleId p) := p]> m) ∅ permissions.

Definition userRoleIds (userRoles : list UserRole) (userId : Z) : list Z :=
  ur_roleId <$> filter (fun ur => ur_userId ur = userId) userRoles.

Definition userRolesObjects (userRoles : list UserRole) (roles : list Role)
    (userId : Z) : list Role :=
  let ids := userRoleIds userRoles userId in
  filter (fun r => r_id r ∈ ids) roles.

(** [perm.actions.includes(action)] *)
Definition includes (l : list string) (a : string) : bool := bool_decide (a ∈ l).

(** The [for ... of] loop of [userHasAction], with its early [return true]. *)
Fixpoint userHasAction_loop (pm : gmap string Permission) (moduleId : Z)
    (action : Action) (roleIds : list Z) : bool :=
  match roleIds with
  | [] => false
  | rid :: rest =>
      match pm !! perm_key rid moduleId with
      | Some perm =>
          if includes (p_actions perm) (action_name action) then true
          else userHasAction_loop pm moduleId action rest
      | None => userHasAction_loop pm moduleId action rest
      end
  end.

Definition userHasAction (permissions : list Permission) (userRoles : list UserRole)
    (userId moduleId : Z) (action : Action) : bool :=
  userHasAction_loop (permMap permissions) moduleId action
    (userRoleIds userRoles userId).

(** A [Set<string>] in insertion order: [add] appends an absent element. *)
Definition set_add (s : list string) (f : string) : list string :=
  if bool_decide (f ∈ s) then s else s ++ [f].

Definition set_add_all (s : list string) (fs : list string) : list string :=
  foldl set_add s fs.

(** The body of the [roleIds.forEach] callback of [unionFieldsForUserModule],
    on the pair of accumulating sets. *)
Definition union_step (pm : gmap string Permission) (moduleId : Z)
    (acc : list string * list string) (rid : Z) : list string * list string :=
  match pm !! perm_key rid moduleId with
  | None => acc
  | Some p =>
      (set_add_all (fst acc) (or_empty (p_visibleFields p)),
       set_add_all (snd acc) (or_empty (p_editableFields p)))
  end.

Record FieldUnion := { visible : list string; editable : list string }.

Definition unionFieldsForUserModule (permissions : list Permission)
    (userRoles : list UserRole) (userId moduleId : Z) : FieldUnion :=
  let roleIds := userRoleIds userRoles userId in
  let r := foldl (union_step (permMap permissions) moduleId) ([], []) roleIds in
  {| visible := fst r; editable := snd r |}.

(** ** JSON values and [JSON.parse]

    The platform's [JSON.parse], written out after the JSON grammar
    (ECMA-404): the four white-space characters, the three literals, numbers,
    strings with their escapes, arrays and objects.  A number is the
    double-precision value of its literal; an object holds one member per
    name, listed in the order in which the language enumerates own
    properties; text is a byte string, and a [\u] escape is stored as the
    UTF-8 bytes of its code point. *)

Inductive JSValue :=
| JNull
| JBool (b : bool)
| JNumber (x : spec_float)
| JString (s : string)
| JArray (items : list JSValue)
| JObject (members : list (string * JSValue)).

Inductive ParseResult (A : Type) :=
| POk (a : A) (rest : string)
| PSyntaxError
| PFuel.
Arguments POk {A} a rest.
Arguments PSyntaxError {A}.
Arguments PFuel {A}.

Module Json.

(** The quotation mark. *)
Definition dquote : ascii := "034"%char.

Definition is_ws (c : ascii) : bool :=
  (c =? " ")%char || (c =? "009")%char || (c =? "010")%char || (c =? "013")%char.

Fixpoint skip_ws (s : string) : string :=
  match s with
  | String c r => if is_ws c then skip_ws r else s
  | EmptyString => s
  end.

Definition is_digit (c : ascii) : bool :=
  let n := N_of_ascii c in ((48 <=? n) && (n <=? 57))%N.

Definition is_digit19 (c : ascii) : bool :=
  let n := N_of_ascii c in ((49 <=? n) && (n <=? 57))%N.

Fixpoint take_digits (s : string) : string * string :=
  match s with
  | String c r =>
      if is_digit c then let '(ds, r') := take_digits r in (String c ds, r')
      else (EmptyString, s)
  | EmptyString => (EmptyString, s)
  end.

(** [expect lit s]: [s] with the prefix [lit] removed. *)
Fixpoint expect (lit s : string) : option string :=
  match lit with
  | EmptyString => Some s
  | String c lit' =>
      match s with
      | String d r => if (c =? d)%char then expect lit' r else None
      | EmptyString => None
      end
  end.

(** number = [ minus ] int [ frac ] [ exp ] *)
Definition parse_int (s : string) : option (string * string) :=
  match s with
  | String c r =>
      if (c =? "0")%char then Some ("0", r)
      else if is_digit19 c then
        let '(ds, r') := take_digits r in Some (String c ds, r')
      else None
  | EmptyString => None
  end.

(** The digits of the fraction, without the point. *)
Definition parse_frac (s : string) : option (string * string) :=
  match s with
  | String "." r =>
      match take_digits r with
      | (EmptyString, _) => None
      | (ds, r') => Some (ds, r')
      end
  | _ => Some (EmptyString, s)
  end.

(** The number a run of decimal digits writes. *)
Fixpoint digits_from (acc : Z) (s : string) : Z :=
  match s with
  | EmptyString => acc
  | String c r => digits_from (10 * acc + (Z.of_N (N_of_ascii c) - 48)) r
  end.

Definition digits_val (s : string) : Z := digits_from 0 s.

Definition parse_exp_digits (negative : bool) (s : string) : option (Z * string) :=
  match take_digits s with
  | (EmptyString, _) => None
  | (ds, r') => Some (if negative then - digits_val ds else digits_val ds, r')
  end.

(** The exponent, 0 when there is none. *)
Definition parse_exp (s : string) : option (Z * string) :=
  match s with
  | String e r =>
      if (e =? "e")%char || (e =? "E")%char then
        match r with
        | String "+" r1 => parse_exp_digits false r1
        | String "-" r1 => parse_exp_digits true r1
        | _ => parse_exp_digits false r
        end
      else Some (0, s)
  | EmptyString => Some (0, s)
  end.

(** The Number value of a literal [digits * 10 ^ exp10] with its sign: the
    double nearest to it, ties to the even significand.  A literal too large
    for the format gives an infinity, one too small a zero, and zero keeps
    the sign. *)
Definition number_value (negative : bool) (digits exp10 : Z) : spec_float :=
  match digits with
  | Z0 => S754_zero negative
  | _ =>
      let '(q, e, l) :=
        SFdiv_core_binary 53 1024
          (digits * 10 ^ Z.max exp10 0) 0 (10 ^ Z.max (- exp10) 0) 0 in
      binary_round_aux 53 1024 negative q e l
  end.

Definition parse_number (s : string) : ParseResult JSValue :=
  let '(negative, s1) :=
    match s with
    | String "-" r => (true, r)
    | _ => (false, s)
    end in
  match parse_int s1 with
  | None => PSyntaxError
  | Some (i, s2) =>
      match parse_frac s2 with
      | None => PSyntaxError
      | Some (f, s3) =>
          match parse_exp s3 with
          | None => PSyntaxError
          | Some (e, s4) =>
              POk (JNumber (number_value negative (digits_val (i +:+ f))
                              (e - Z.of_nat (String.length f)))) s4
          end
      end
  end.

Definition hex_val (c : ascii) : option N :=
  let n := N_of_ascii c in
  if ((48 <=? n) && (n <=? 57))%N then Some (n - 48)%N
  else if ((65 <=? n) && (n <=? 70))%N then Some (n - 55)%N
  else if ((97 <=? n) && (n <=? 102))%N then Some (n - 87)%N
  else None.

Definition hex4 (a b c d : ascii) : option N :=
  match hex_val a, hex_val b, hex_val c, hex_val d with
  | Some x, Some y, Some z, Some w => Some (((x * 16 + y) * 16 + z) * 16 + w)%N
  | _, _, _, _ => None
  end.

Definition byte (n : N) : string := String (ascii_of_N n) EmptyString.

(** The UTF-8 bytes of a code point (a lone surrogate is written out the
    same way). *)
Definition utf8 (cp : N) : string :=
  if (cp <? 128)%N then byte cp
  else if (cp <? 2048)%N then
    byte (192 + cp / 64) +:+ byte (128 + cp mod 64)
  else if (cp <? 65536)%N then
    byte (224 + cp / 4096) +:+ byte (128 + (cp / 64) mod 64)
      +:+ byte (128 + cp mod 64)
  else
    byte (240 + cp / 262144) +:+ byte (128 + (cp / 4096) mod 64)
      +:+ byte (128 + (cp / 64) mod 64) +:+ byte (128 + cp mod 64).

Definition is_high_surrogate (cp : N) : bool := ((55296 <=? cp) && (cp <=? 56319))%N.
Definition is_low_surrogate (cp : N) : bool := ((56320 <=? cp) && (cp <=? 57343))%N.

Definition simple_escape (c : ascii) : option ascii :=
  if (c =? dquote)%char then Some dquote
  else if (c =? "\")%char then Some "\"%char
  else if (c =? "/")%char then Some "/"%char
  else if (c =? "b")%char then Some "008"%char
  else if (c =? "f")%char then Some "012"%char
  else if (c =? "n")%char then Some "010"%char
  else if (c =? "r")%char then Some "013"%char
  else if (c =? "t")%char then Some "009"%char
  else None.

Definition map_ok {A B} (f : A -> B) (r : ParseResult A) : ParseResult B :=
  match r with
  | POk a rest => POk (f a) rest
  | PSyntaxError => PSyntaxError
  | PFuel => PFuel
  end.

(** A [\uXXXX] escape that continues a high surrogate: the low surrogate
    and the text after it. *)
Definition low_surrogate_escape (s : string) : option (N * string) :=
  match s with
  | String b (String u (String l1 (String l2 (String l3 (String l4 r))))) =>
      if (b =? "\")%char && (u =? "u")%char then
        match hex4 l1 l2 l3 l4 with
        | Some lo => if is_low_surrogate lo then Some (lo, r) else None
        | None => None
        end
      else None
  | _ => None
  end.

(** The characters of a string after its opening quotation mark, up to and
    including the closing one. *)
Fixpoint parse_chars (s : string) : ParseResult string :=
  match s with
  | EmptyString => PSyntaxError
  | String c r =>
      if (c =? dquote)%char then POk EmptyString r
      else if (c =? "\")%char then
        match r with
        | String e r1 =>
            if (e =? "u")%char then
              match r1 with
              | String h1 (String h2 (String h3 (String h4 r2))) =>
                  match hex4 h1 h2 h3 h4 with
                  | None => PSyntaxError
                  | Some cp =>
                      match r2 with
                      | String b (String u (String l1 (String l2 (String l3
                          (String l4 r3))))) =>
                          match
                            (if is_high_surrogate cp
                             then low_surrogate_escape r2 else None)
                          with
                          | Some (lo, _) =>
                              map_ok
                                (String.append
                                   (utf8 (65536 + (cp - 55296) * 1024
                                            + (lo - 56320))%N))
                                (parse_chars r3)
                          | None => map_ok (String.append (utf8 cp)) (parse_chars r2)
                          end
                      | _ => map_ok (String.append (utf8 cp)) (parse_chars r2)
                      end
                  end
              | _ => PSyntaxError
              end
            else
              match simple_escape e with
              | Some x => map_ok (String x) (parse_chars r1)
              | None => PSyntaxError
              end
        | EmptyString => PSyntaxError
        end
      else if (N_of_ascii c <? 32)%N then PSyntaxError
      else map_ok (String c) (parse_chars r)
  end.

(** [o[k] = v] while an object is built: a name that is already there keeps
    its place and takes the new value. *)
Definition set_member (o : list (string * JSValue)) (k : string) (v : JSValue)
    : list (string * JSValue) :=
  if bool_decide (k ∈ fst <$> o)
  then (fun kv => if bool_decide (fst kv = k) then (k, v) else kv) <$> o
  else o ++ [(k, v)].

(** The integer a name stands for when the name is an array index, the
    canonical numeral of an integer in [0 .. 2^32 - 2]. *)
Definition index_of_name (k : string) : option Z :=
  let n := digits_val k in
  if (0 <=? n) && (n <? 4294967295) && bool_decide (pretty n = k) then Some n
  else None.

Definition get_member (o : list (string * JSValue)) (k : string) : JSValue :=
  default JNull (snd <$> head (filter (fun kv => fst kv = k) o)).

(** The object a member list builds, one property definition per member in
    source order; its own properties then enumerate array indices first, in
    ascending order, and the other names in creation order. *)
Definition object_of_members (ms : list (string * JSValue)) : list (string * JSValue) :=
  let o := foldl (fun o kv => set_member o (fst kv) (snd kv)) [] ms in
  ((fun i => (pretty i, get_member o (pretty i)))
     <$> merge_sort Z.le (omap (fun kv => index_of_name (fst kv)) o))
  ++ filter (fun kv => index_of_name (fst kv) = None) o.

Fixpoint parse_value (fuel : nat) (s : string) : ParseResult JSValue :=
  match fuel with
  | O => PFuel
  | S n =>
      match skip_ws s with
      | EmptyString => PSyntaxError
      | String c r =>
          if (c =? "n")%char then
            match expect "ull" r with Some r' => POk JNull r' | None => PSyntaxError end
          else if (c =? "t")%char then
            match expect "rue" r with Some r' => POk (JBool true) r' | None => PSyntaxError end
          else if (c =? "f")%char then
            match expect "alse" r with Some r' => POk (JBool false) r' | None => PSyntaxError end
          else if (c =? dquote)%char then map_ok JString (parse_chars r)
          else if (c =? "[")%char then
            match expect "]" (skip_ws r) with
            | Some rest => POk (JArray []) rest
            | None => map_ok JArray (parse_elements n (skip_ws r))
            end
          else if (c =? "{")%char then
            match expect "}" (skip_ws r) with
            | Some rest => POk (JObject []) rest
            | None =>
                map_ok (fun ms => JObject (object_of_members ms))
                       (parse_members n (skip_ws r))
            end
          else if (c =? "-")%char || is_digit c then parse_number (String c r)
          else PSyntaxError
      end
  end

(** elements after the opening bracket, up to and including the closing one *)
with parse_elements (fuel : nat) (s : string) : ParseResult (list JSValue) :=
  match fuel with
  | O => PFuel
  | S n =>
      match parse_value n s with
      | POk v rest =>
          match expect "]" (skip_ws rest) with
          | Some rest' => POk [v] rest'
          | None =>
              match expect "," (skip_ws rest) with
              | Some rest' => map_ok (cons v) (parse_elements n rest')
              | None => PSyntaxError
              end
          end
      | PSyntaxError => PSyntaxError
      | PFuel => PFuel
      end
  end

(** members after the opening brace, up to and including the closing one *)
with parse_members (fuel : nat) (s : string) : ParseResult (list (string * JSValue)) :=
  match fuel with
  | O => PFuel
  | S n =>
      match expect (String dquote EmptyString) (skip_ws s) with
      | None => PSyntaxError
      | Some r =>
          match parse_chars r with
          | POk k rest =>
              match expect ":" (skip_ws rest) with
              | None => PSyntaxError
              | Some rest1 =>
                  match parse_value n rest1 with
                  | POk v rest2 =>
                      match expect "}" (skip_ws rest2) with
                      | Some rest' => POk [(k, v)] rest'
                      | None =>
                          match expect "," (skip_ws rest2) with
                          | Some rest' => map_ok (cons (k, v)) (parse_members n rest')
                          | None => PSyntaxError
                          end
                      end
                  | PSyntaxError => PSyntaxError
                  | PFuel => PFuel
                  end
              end
          | PSyntaxError => PSyntaxError
          | PFuel => PFuel
          end
      end
  end.

(** Fuel that no text exhausts (see [parse_total] below). *)
Definition fuel_for (s : string) : nat := (2 * String.length s + 2)%nat.

(** [JSON.parse(text)]: [None] stands for the [SyntaxError] it throws. *)
Definition parse (text : string) : option JSValue :=
  match parse_value (fuel_for text) text with
  | POk v rest =>
      match skip_ws rest with
      | EmptyString => Some v
      | _ => None
      end
  | _ => None
  end.

End Json.


(** ** Component state (the [useState] cells) *)

Record FieldsModal := {
  fm_open : bool;
  fm_permId : option Z;
  fm_moduleId : option Z;
  fm_roleId : option Z;
  fm_visibleFields : list string;
  fm_editableFields : list string;
  (** declared [string[]], but it receives whatever [JSON.parse] returns *)
  fm_allFields : JSValue;
}.

(** [{ ...fieldsModal, open: false }] *)
Definition fm_close (fm : FieldsModal) : FieldsModal :=
  {| fm_open := false; fm_permId := fm_permId fm; fm_moduleId := fm_moduleId fm;
     fm_roleId := fm_roleId fm; fm_visibleFields := fm_visibleFields fm;
     fm_editableFields := fm_editableFields fm; fm_allFields := fm_allFields fm |}.

Definition fieldsModal_init : FieldsModal :=
  {| fm_open := false; fm_permId := None; fm_moduleId := None; fm_roleId := None;
     fm_visibleFields := []; fm_editableFields := []; fm_allFields := JArray [] |}.

(** A [Record<number, boolean>] is kept as the list of its property writes,
    oldest first; [Object_entries] reads it the way the language enumerates
    own properties. *)
Definition NumRecord := list (Z * bool).

(** [o[k] = v] *)
Definition obj_set (o : NumRecord) (k : Z) (v : bool) : NumRecord := o ++ [(k, v)].

(** [o[k]]: the latest write wins; [None] is [undefined]. *)
Fixpoint obj_get (o : NumRecord) (k : Z) : option bool :=
  match o with
  | [] => None
  | (k', v) :: r =>
      match obj_get r k with
      | Some v' => Some v'
      | None => if bool_decide (k' = k) then Some v else None
      end
  end.

(** Keys in order of first appearance. *)
Fixpoint first_keys (ks : list Z) : list Z :=
  match ks with
  | [] => []
  | k :: r => k :: filter (fun x => x ≠ k) (first_keys r)
  end.

(** A key that is an array index, [0 .. 2^32 - 2]. *)
Definition is_array_index (k : Z) : Prop := (0 ≤ k ∧ k < 4294967295)%Z.

Global Instance is_array_index_dec k : Decision (is_array_index k).
Proof. unfold is_array_index. apply _. Defined.

(** Own property keys: array indices in ascending order, then the other
    keys in creation order. *)
Definition own_keys (o : NumRecord) : list Z :=
  let ks := first_keys (fst <$> o) in
  merge_sort Z.le (filter is_array_index ks)
    ++ filter (fun k => ¬ is_array_index k) ks.

(** [Object.entries(o)], the key already read back with [Number(k)]. *)
Definition Object_entries (o : NumRecord) : list (Z * bool) :=
  (fun k => (k, default false (obj_get o k))) <$> own_keys o.

(** [{ ...o }] *)
Definition obj_spread (o : NumRecord) : NumRecord := Object_entries o.

Record ActionModal := {
  am_open : bool;
  am_userId : option Z;
  am_moduleId : option Z;
  am_action : option Action;
  am_selectedRoles : NumRecord;
  am_userRolesList : list Role;
}.

Definition actionModal_closed : ActionModal :=
  {| am_open := false; am_userId := None; am_moduleId := None;
     am_action := None; am_selectedRoles := []; am_userRolesList := [] |}.

Record AppState := {
  users : list User;
  modules : list ModuleRow;
  permissions : list Permission;
  userRoles : list UserRole;
  roles : list Role;
  loading : bool;
  fieldsModal : FieldsModal;
  actionModal : ActionModal;
}.

Definition initial_state : AppState :=
  {| users := []; modules := []; permissions := []; userRoles := []; roles := [];
     loading := true; fieldsModal := fieldsModal_init;
     actionModal := actionModal_closed |}.

(** ** Requests, replies and the remote API *)

Inductive Method := GET | POST | PUT | DELETE.

(** What [JSON.stringify] is given. *)
Inductive Body :=
| BPermission (p : Permission)
| BUserRole (userId roleId : Z).

Record Request := {
  rq_method : Method;
  rq_url : string;
  rq_body : option Body;
}.

Global Instance Method_eq_dec : EqDecision Method.
Proof. solve_decision. Defined.
Global Instance Body_eq_dec : EqDecision Body.
Proof. solve_decision. Defined.
Global Instance Request_eq_dec : EqDecision Request.
Proof. solve_decision. Defined.

(** How a [fetch] settles: the promise rejects (network error), or resolves
    to a response with its [ok] flag and its body.  The body is [None] when
    it is not JSON text, so that [res.json()] rejects; otherwise it is the
    payload the endpoint carries in it (for the list and create endpoints,
    the [data] field). *)
Inductive Outcome (T : Type) :=
| Rejected
| Replied (ok : bool) (body : option T).
Arguments Rejected {T}.
Arguments Replied {T} ok body.

(** The endpoints of the backing HTTP API, one per row of the interface
    table; the text argument is the last path segment. *)
Class Backend (S : Type) := {
  get_user : S -> Outcome (list User) * S;
  get_module : S -> Outcome (list ModuleRow) * S;
  get_permissions : S -> Outcome (list Permission) * S;
  get_userRole : S -> Outcome (list UserRole) * S;
  get_role : S -> Outcome (list Role) * S;
  post_permissions : Permission -> S -> Outcome unit * S;
  put_permissions : string -> Permission -> S -> Outcome unit * S;
  post_userRole : Z -> Z -> S -> Outcome UserRole * S;
  delete_userRole : string -> S -> Outcome unit * S;
}.

Definition urlAPi : string := "https://node-dummy-roles-and-permissions.onrender.com".

(** [`${x}`] on an optional number. *)
Definition show_id (o : option Z) : string :=
  match o with
  | Some i => pretty i
  | None => "undefined"
  end.

(** A value in a boolean position ([!x], [if (x)]). *)
Definition truthy (o : option Z) : bool :=
  match o with
  | Some z => negb (z =? 0)
  | None => false
  end.

(** ** The monad of event handlers

    A handler runs against the world: the pending React state, the server,
    the requests sent so far, the console and the alerts shown.  It returns
    or throws. *)

Inductive Exn := NetworkError | ApiError | SyntaxError | TypeError.

Inductive Result (A : Type) :=
| Returned (a : A)
| Threw (e : Exn).
Arguments Returned {A} a.
Arguments Threw {A} e.

Record World (S : Type) := {
  react : AppState;
  server : S;
  sent : list Request;
  console : list Exn;
  alerts : list string;
}.
Arguments react {S} w.
Arguments server {S} w.
Arguments sent {S} w.
Arguments console {S} w.
Arguments alerts {S} w.

Definition M (S A : Type) : Type := World S -> Result A * World S.

Section Handlers.
Context {S : Type} `{Backend S}.

Definition ret {A} (a : A) : M S A := fun w => (Returned a, w).

Definition bind {A B} (c : M S A) (k : A -> M S B) : M S B :=
  fun w =>
    match c w with
    | (Returned a, w') => k a w'
    | (Threw e, w') => (Threw e, w')
    end.

Definition throw {A} (e : Exn) : M S A := fun w => (Threw e, w).

(** [try { c } catch (e) { h(e) }] *)
Definition try_catch {A} (c : M S A) (h : Exn -> M S A) : M S A :=
  fun w =>
    match c w with
    | (Returned a, w') => (Returned a, w')
    | (Threw e, w') => h e w'
    end.

Notation "'await' x <- c ; k" := (bind c (fun x => k))
  (at level 10, x name, c at level 100, k at level 200).
Notation "'run' c ; k" := (bind c (fun _ => k))
  (at level 10, c at level 100, k at level 200).

(** [for (const x of l) { body(x) }] *)
Fixpoint for_of {A} (l : list A) (body : A -> M S unit) : M S unit :=
  match l with
  | [] => ret tt
  | x :: r => run body x; for_of r body
  end.

Definition set_react (f : AppState -> AppState) : M S unit :=
  fun w => (Returned tt,
            {| react := f (react w); server := server w; sent := sent w;
               console := console w; alerts := alerts w |}).

Definition console_error (e : Exn) : M S unit :=
  fun w => (Returned tt,
            {| react := react w; server := server w; sent := sent w;
               console := console w ++ [e]; alerts := alerts w |}).

Definition alert (msg : string) : M S unit :=
  fun w => (Returned tt,
            {| react := react w; server := server w; sent := sent w;
               console := console w; alerts := alerts w ++ [msg] |}).

(** [await fetch(url, init)]: the request goes out, the endpoint settles it. *)
Definition fetch {T} (rq : Request) (endpoint : S -> Outcome T * S)
    : M S (bool * option T) :=
  fun w =>
    let '(o, s') := endpoint (server w) in
    let w' := {| react := react w; server := s'; sent := sent w ++ [rq];
                 console := console w; alerts := alerts w |} in
    match o with
    | Rejected => (Threw NetworkError, w')
    | Replied ok body => (Returned (ok, body), w')
    end.

(** [await res.json()]: rejects on a body that is not JSON. *)
Definition res_json {T} (res : bool * option T) : M S T :=
  match snd res with
  | Some json => ret json
  | None => throw SyntaxError
  end.

(** The setters. *)
Definition setUsers (v : list User) : M S unit :=
  set_react (fun st =>
    {| users := v; modules := modules st; permissions := permissions st;
       userRoles := userRoles st; roles := roles st; loading := loading st;
       fieldsModal := fieldsModal st; actionModal := actionModal st |}).
Definition setModules (v : list ModuleRow) : M S unit :=
  set_react (fun st =>
    {| users := users st; modules := v; permissions := permissions st;
       userRoles := userRoles st; roles := roles st; loading := loading st;
       fieldsModal := fieldsModal st; actionModal := actionModal st |}).
Definition setPermissions (v : list Permission) : M S unit :=
  set_react (fun st =>
    {| users := users st; modules := modules st; permissions := v;
       userRoles := userRoles st; roles := roles st; loading := loading st;
       fieldsModal := fieldsModal st; actionModal := actionModal st |}).
Definition setUserRoles (f : list UserRole -> list UserRole) : M S unit :=
  set_react (fun st =>
    {| users := users st; modules := modules st; permissions := permissions st;
       userRoles := f (userRoles st); roles := roles st; loading := loading st;
       fieldsModal := fieldsModal st; actionModal := actionModal st |}).
Definition setRoles (v : list Role) : M S unit :=
  set_react (fun st =>
    {| users := users st; modules := modules st; permissions := permissions st;
       userRoles := userRoles st; roles := v; loading := loading st;
       fieldsModal := fieldsModal st; actionModal := actionModal st |}).
Definition setLoading (v : bool) : M S unit :=
  set_react (fun st =>
    {| users := users st; modules := modules st; permissions := permissions st;
       userRoles := userRoles st; roles := roles st; loading := v;
       fieldsModal := fieldsModal st; actionModal := actionModal st |}).
Definition setFieldsModal (f : FieldsModal -> FieldsModal) : M S unit :=
  set_react (fun st =>
    {| users := users st; modules := modules st; permissions := permissions st;
       userRoles := userRoles st; roles := roles st; loading := loading st;
       fieldsModal := f (fieldsModal st); actionModal := actionModal st |}).
Definition setActionModal (f : ActionModal -> ActionModal) : M S unit :=
  set_react (fun st =>
    {| users := users st; modules := modules st; permissions := permissions st;
       userRoles := userRoles st; roles := roles st; loading := loading st;
       fieldsModal := fieldsModal st; actionModal := f (actionModal st) |}).

(** ** [src/api/client.ts] *)

(** [apiGet(path)]: throws on a response that is not [ok], else its JSON. *)
Definition apiGet {T} (path : string) (endpoint : S -> Outcome T * S) : M S T :=
  await res <- fetch {| rq_method := GET; rq_url := urlAPi +:+ path; rq_body := None |}
                     endpoint;
  if fst res then res_json res else throw ApiError.

(** ** [src/pages/roleMatrix.tsx]: loading *)

(** One branch of the [Promise.all]: the call has been made, its result kept. *)
Definition settle {A} (c : M S A) : M S (Result A) :=
  fun w => let '(r, w') := c w in (Returned r, w').

Definition join {A} (r : Result A) : M S A :=
  match r with
  | Returned a => ret a
  | Threw e => throw e
  end.

(** [loadAll]: the five requests all go out; the [Promise.all] then rejects
    if one of them failed (here: with the failure of the earliest in the
    array), in which case no setter after it runs. *)
Definition loadAll : M S unit :=
  run setLoading true;
  await uRes <- settle (apiGet "/api/user/" get_user);
  await mRes <- settle (apiGet "/api/module/" get_module);
  await pRes <- settle (apiGet "/api/permissions/" get_permissions);
  await urRes <- settle (apiGet "/api/userRole/" get_userRole);
  await rRes <- settle (apiGet "/api/role/" get_role);
  await u <- join uRes;
  await m <- join mRes;
  await p <- join pRes;
  await ur <- join urRes;
  await r <- join rRes;
  run setUsers u;
  run setModules m;
  run setPermissions p;
  run setUserRoles (fun _ => ur);
  run setRoles r;
  setLoading false.

(** ** Action-toggle workflow *)

(** [!!(p && p.actions && p.actions.includes(action))] *)
Definition grants (pm : gmap string Permission) (roleId moduleId : Z)
    (action : Action) : bool :=
  match pm !! perm_key roleId moduleId with
  | Some p => includes (p_actions p) (action_name action)
  | None => false
  end.

Definition openActionModal (cur : AppState) (userId moduleId : Z) (action : Action)
    : M S unit :=
  let userRolesObjs := userRolesObjects (userRoles cur) (roles cur) userId in
  if (length userRolesObjs =? 0)%nat then
    alert "User has no roles assigned. Assign a role first."
  else
    let selected :=
      foldl (fun sel r =>
               obj_set sel (r_id r)
                 (grants (permMap (permissions cur)) (r_id r) moduleId action))
            [] userRolesObjs in
    setActionModal (fun _ =>
      {| am_open := true; am_userId := Some userId; am_moduleId := Some moduleId;
         am_action := Some action; am_selectedRoles := selected;
         am_userRolesList := userRolesObjs |}).

(** The [actions] array the update sends. *)
Definition newActions_of (perm : Permission) (targetAction : string) (enabled : bool)
    : list string :=
  let has := includes (p_actions perm) targetAction in
  let newActions := p_actions perm in
  let newActions :=
    if enabled && negb has then newActions ++ [targetAction] else newActions in
  let newActions :=
    if negb enabled && has then filter (fun a => a ≠ targetAction) newActions
    else newActions in
  newActions.

Definition create_request (payload : Permission) : Request :=
  {| rq_method := POST; rq_url := urlAPi +:+ "/api/permissions";
     rq_body := Some (BPermission payload) |}.

Definition update_request (ident : option Z) (payload : Permission) : Request :=
  {| rq_method := PUT; rq_url := urlAPi +:+ "/api/permissions/" +:+ show_id ident;
     rq_body := Some (BPermission payload) |}.

(** The body of the [for (const { roleId, enabled } of roleEntries)] loop. *)
Definition apply_role (pm : gmap string Permission) (moduleId : Z)
    (targetAction : Action) (entry : Z * bool) : M S unit :=
  let '(roleId, enabled) := entry in
  match pm !! perm_key roleId moduleId with
  | None =>
      if enabled then
        let payload :=
          {| p_id := None; p_roleId := roleId; p_moduleId := moduleId;
             p_actions := [action_name targetAction];
             p_visibleFields := Some []; p_editableFields := Some [] |} in
        try_catch
          (run fetch (create_request payload) (post_permissions payload); ret tt)
          (fun e => console_error e)
      else ret tt
  | Some perm =>
      let newActions := newActions_of perm (action_name targetAction) enabled in
      let payload := with_actions perm newActions in
      try_catch
        (run fetch (update_request (p_id perm) payload)
               (put_permissions (show_id (p_id perm)) payload); ret tt)
        (fun e => console_error e)
  end.

Definition applyActionModal (cur : AppState) : M S unit :=
  let am := actionModal cur in
  match am_moduleId am, am_action am with
  | Some moduleId, Some targetAction =>
      if truthy (am_userId am) && truthy (am_moduleId am) then
        let roleEntries := Object_entries (am_selectedRoles am) in
        run for_of roleEntries (apply_role (permMap (permissions cur)) moduleId targetAction);
        run loadAll;
        setActionModal (fun _ => actionModal_closed)
      else ret tt
  | _, _ => ret tt
  end.

(** The check box of a role inside the modal. *)
Definition toggleSelectedRole (r : Role) (checked : bool) : M S unit :=
  setActionModal (fun m =>
    {| am_open := am_open m; am_userId := am_userId m; am_moduleId := am_moduleId m;
       am_action := am_action m;
       am_selectedRoles := obj_set (obj_spread (am_selectedRoles m)) (r_id r) checked;
       am_userRolesList := am_userRolesList m |}).

Definition cancelActionModal : M S unit :=
  setActionModal (fun _ => actionModal_closed).

(** ** Field-editor workflow *)

(** [JSON.parse(text)] as a computation that may throw. *)
Definition JSON_parse (text : string) : M S JSValue :=
  match Json.parse text with
  | Some v => ret v
  | None => throw SyntaxError
  end.

(** [(moduleObj.fields as any) || "[]"] when the payload is not an array. *)
Definition fields_text (f : FieldsPayload) : string :=
  match f with
  | FieldsString s => if bool_decide (s = EmptyString) then "[]" else s
  | _ => "[]"
  end.

(** The [// normalize module fields] block. *)
Definition normalize_fields (f : FieldsPayload) : M S JSValue :=
  match f with
  | FieldsArray l => ret (JArray (map JString l))
  | _ => try_catch (JSON_parse (fields_text f)) (fun _ => ret (JArray []))
  end.

(** [arr.find(pred)] *)
Definition find_first {A} (P : A -> Prop) `{forall x, Decision (P x)} (l : list A)
    : option A :=
  head (filter P l).

Definition openFieldsEditor (cur : AppState) (userId : Z) (moduleObj : ModuleRow)
    : M S unit :=
  match find_first (fun ur => ur_userId ur = userId) (userRoles cur) with
  | None => alert "Assign a role to the user first to edit fields for that role/module."
  | Some rel =>
      let perm := permMap (permissions cur) !! perm_key (ur_roleId rel) (m_id moduleObj) in
      await allFields <- normalize_fields (m_fields moduleObj);
      setFieldsModal (fun _ =>
        {| fm_open := true;
           fm_permId := perm ≫= p_id;
           fm_moduleId := Some (m_id moduleObj);
           fm_roleId := Some (ur_roleId rel);
           fm_visibleFields := or_empty (perm ≫= p_visibleFields);
           fm_editableFields := or_empty (perm ≫= p_editableFields);
           fm_allFields := allFields |})
  end.

(** The check boxes of the field editor. *)
Definition toggle_in (l : list string) (f : string) : list string :=
  if includes l f then filter (fun x => x ≠ f) l else l ++ [f].

Definition toggleVisibleField (f : string) : M S unit :=
  setFieldsModal (fun m =>
    {| fm_open := fm_open m; fm_permId := fm_permId m; fm_moduleId := fm_moduleId m;
       fm_roleId := fm_roleId m; fm_visibleFields := toggle_in (fm_visibleFields m) f;
       fm_editableFields := fm_editableFields m; fm_allFields := fm_allFields m |}).

Definition toggleEditableField (f : string) : M S unit :=
  setFieldsModal (fun m =>
    {| fm_open := fm_open m; fm_permId := fm_permId m; fm_moduleId := fm_moduleId m;
       fm_roleId := fm_roleId m; fm_visibleFields := fm_visibleFields m;
       fm_editableFields := toggle_in (fm_editableFields m) f;
       fm_allFields := fm_allFields m |}).

Definition saveFieldsModal (cur : AppState) : M S unit :=
  let fm := fieldsModal cur in
  match fm_moduleId fm, fm_roleId fm with
  | Some moduleId, Some roleId =>
      if truthy (fm_moduleId fm) && truthy (fm_roleId fm) then
        let existing :=
          find_first (row_of roleId moduleId) (permissions cur) in
        run match existing with
            | Some existing =>
                let payload :=
                  with_fields existing (fm_visibleFields fm) (fm_editableFields fm) in
                run fetch (update_request (p_id existing) payload)
                      (put_permissions (show_id (p_id existing)) payload);
                ret tt
            | None =>
                let payload :=
                  {| p_id := None; p_roleId := roleId; p_moduleId := moduleId;
                     p_actions := [];
                     p_visibleFields := Some (fm_visibleFields fm);
                     p_editableFields := Some (fm_editableFields fm) |} in
                run fetch (create_request payload) (post_permissions payload);
                ret tt
            end;
        run loadAll;
        setFieldsModal (fun _ => fm_close fm)
      else setFieldsModal (fun _ => fm_close fm)
  | _, _ => setFieldsModal (fun _ => fm_close fm)
  end.

Definition cancelFieldsModal (cur : AppState) : M S unit :=
  setFieldsModal (fun _ => fm_close (fieldsModal cur)).

(** ** Role-assignment workflow *)

Definition toggleRoleForUser (cur : AppState) (userId roleId : Z) : M S unit :=
  let existing :=
    find_first (fun ur => ur_userId ur = userId ∧ ur_roleId ur = roleId)
               (userRoles cur) in
  run match existing with
      | Some existing =>
          if truthy (ur_id existing) then
            run fetch {| rq_method := DELETE;
                         rq_url := urlAPi +:+ "/api/userRole/" +:+ show_id (ur_id existing);
                         rq_body := None |}
                      (delete_userRole (show_id (ur_id existing)));
            setUserRoles (fun prev => filter (fun u => ur_id u ≠ ur_id existing) prev)
          else ret tt
      | None =>
          await res <- fetch {| rq_method := POST; rq_url := urlAPi +:+ "/api/userRole";
                                rq_body := Some (BUserRole userId roleId) |}
                             (post_userRole userId roleId);
          await json <- res_json res;
          setUserRoles (fun prev => prev ++ [json])
      end;
  loadAll.

End Handlers.

(** ** The field editor on screen *)

(** [l.includes(f)] for an [f] that may be any value: only a string is found
    in an array of strings. *)
Definition includes_value (l : list string) (f : JSValue) : bool :=
  match f with
  | JString s => includes l s
  | _ => false
  end.

(** [v.map(fn)]: a value that is not an array has no [map] to call. *)
Definition Array_map {A} (v : JSValue) (fn : JSValue -> A) : Result (list A) :=
  match v with
  | JArray items => Returned (fn <$> items)
  | _ => Threw TypeError
  end.

(** One [<label>] of the editor: the field it shows and its check box. *)
Record FieldBox := { fb_field : JSValue; fb_checked : bool }.

(** The [FIELDS EDITOR MODAL] block of the page: nothing while the editor is
    closed, else one box per entry of [allFields] for the visible list and
    one for the editable list. *)
Definition render_fieldsModal (fm : FieldsModal)
    : Result (option (list FieldBox * list FieldBox)) :=
  if fm_open fm then
    match
      Array_map (fm_allFields fm)
        (fun f => {| fb_field := f;
                     fb_checked := includes_value (fm_visibleFields fm) f |})
    with
    | Threw e => Threw e
    | Returned query =>
        match
          Array_map (fm_allFields fm)
            (fun f => {| fb_field := f;
                         fb_checked := includes_value (fm_editableFields fm) f |})
        with
        | Threw e => Threw e
        | Returned update => Returned (Some (query, update))
        end
    end
  else Returned None.

(** ** Backends *)

(** Modelled from the spec: the state of the backing HTTP API (an external
    service, not part of the repository), one stored collection per list
    endpoint of the interface table. *)
Record Store := {
  db_users : list User;
  db_modules : list ModuleRow;
  db_permissions : list Permission;
  db_userRoles : list UserRole;
  db_roles : list Role;
}.

(** Modelled from the spec: the identifier the server assigns to a created
    record ([id (unique, server-assigned)] in the data model), here one more
    than the largest identifier in use. *)
Definition fresh_id (ids : list (option Z)) : Z :=
  1 + foldr (fun o acc => Z.max (default 0 o) acc) 0 ids.

Definition with_id (body : Permission) (i : Z) : Permission :=
  {| p_id := Some i; p_roleId := p_roleId body; p_moduleId := p_moduleId body;
     p_actions := p_actions body; p_visibleFields := p_visibleFields body;
     p_editableFields := p_editableFields body |}.

(** The row whose identifier is written [ident] in the path. *)
Definition addressed (ident : string) (o : option Z) : bool :=
  match o with
  | Some i => bool_decide (pretty i = ident)
  | None => false
  end.

Definition set_permissions (s : Store) (ps : list Permission) : Store :=
  {| db_users := db_users s; db_modules := db_modules s; db_permissions := ps;
     db_userRoles := db_userRoles s; db_roles := db_roles s |}.

Definition set_userRoles (s : Store) (urs : list UserRole) : Store :=
  {| db_users := db_users s; db_modules := db_modules s;
     db_permissions := db_permissions s;
     db_userRoles := urs; db_roles := db_roles s |}.

(** Modelled from the spec: [PUT /api/permissions/:id] on one stored row,
    which is replaced by the body when its identifier is the one in the
    path. *)
Definition store_put (ident : string) (body : Permission) (row : Permission) : Permission :=
  match p_id row with
  | Some i => if bool_decide (pretty i = ident) then with_id body i else row
  | None => row
  end.

(** Modelled from the spec: the backing HTTP API, which is an external
    service and not part of the repository.  After the interface table:
    every list [GET] answers with the stored collection; [POST
    /api/permissions] creates a row from the body under a server-assigned
    identifier; [PUT /api/permissions/:id] replaces the fields of the row
    with that identifier; [POST /api/userRole] creates a link and returns
    it; [DELETE /api/userRole/:id] removes it.  Every request succeeds. *)
Global Instance rest_backend : Backend Store := {|
  get_user s := (Replied true (Some (db_users s)), s);
  get_module s := (Replied true (Some (db_modules s)), s);
  get_permissions s := (Replied true (Some (db_permissions s)), s);
  get_userRole s := (Replied true (Some (db_userRoles s)), s);
  get_role s := (Replied true (Some (db_roles s)), s);
  post_permissions body s :=
    (Replied true (Some tt),
     set_permissions s
       (db_permissions s ++ [with_id body (fresh_id (p_id <$> db_permissions s))]));
  put_permissions ident body s :=
    (Replied (existsb (fun row => addressed ident (p_id row)) (db_permissions s))
       (Some tt),
     set_permissions s (store_put ident body <$> db_permissions s));
  post_userRole userId roleId s :=
    let row := {| ur_id := Some (fresh_id (ur_id <$> db_userRoles s));
                  ur_userId := userId; ur_roleId := roleId |} in
    (Replied true (Some row), set_userRoles s (db_userRoles s ++ [row]));
  delete_userRole ident s :=
    (Replied (existsb (fun row => addressed ident (ur_id row)) (db_userRoles s))
       (Some tt),
     set_userRoles s
       (filter (fun row => addressed ident (ur_id row) = false) (db_userRoles s)));
|}.

(** A network that drops requests: each request consumes one entry of the
    script, and [true] makes the [fetch] reject before the inner backend
    sees it. *)
Record Flaky (S : Type) := { script : list bool; inner : S }.
Arguments script {S} f.
Arguments inner {S} f.

Definition flaky {S T} (endpoint : S -> Outcome T * S) (f : Flaky S)
    : Outcome T * Flaky S :=
  match script f with
  | true :: rest => (Rejected, {| script := rest; inner := inner f |})
  | false :: rest =>
      let '(o, s') := endpoint (inner f) in (o, {| script := rest; inner := s' |})
  | [] =>
      let '(o, s') := endpoint (inner f) in (o, {| script := []; inner := s' |})
  end.

Global Instance flaky_backend {S} `{Backend S} : Backend (Flaky S) := {|
  get_user := flaky get_user;
  get_module := flaky get_module;
  get_permissions := flaky get_permissions;
  get_userRole := flaky get_userRole;
  get_role := flaky get_role;
  post_permissions body := flaky (post_permissions body);
  put_permissions ident body := flaky (put_permissions ident body);
  post_userRole userId roleId := flaky (post_userRole userId roleId);
  delete_userRole ident := flaky (delete_userRole ident);
|}.

(** A gateway in front of the API that answers the creation of a link with a
    page that is not JSON; the request itself still reaches the API. *)
Record Gateway (S : Type) := { upstream : S }.
Arguments upstream {S} g.

Definition through {S T} (endpoint : S -> Outcome T * S) (g : Gateway S)
    : Outcome T * Gateway S :=
  let '(o, s') := endpoint (upstream g) in (o, {| upstream := s' |}).

Definition garbled {S T} (endpoint : S -> Outcome T * S) (g : Gateway S)
    : Outcome T * Gateway S :=
  let '(o, s') := endpoint (upstream g) in
  (match o with
   | Rejected => Rejected
   | Replied _ _ => Replied false None
   end, {| upstream := s' |}).

Global Instance gateway_backend {S} `{Backend S} : Backend (Gateway S) := {|
  get_user := through get_user;
  get_module := through get_module;
  get_permissions := through get_permissions;
  get_userRole := through get_userRole;
  get_role := through get_role;
  post_permissions body := through (post_permissions body);
  put_permissions ident body := through (put_permissions ident body);
  post_userRole userId roleId := garbled (post_userRole userId roleId);
  delete_userRole ident := through (delete_userRole ident);
|}.

Definition world_of {S} (st : AppState) (srv : S) : World S :=
  {| react := st; server := srv; sent := []; console := []; alerts := [] |}.

(** ** Vocabulary of the statements and sample data *)

Fixpoint all_digits (s : string) : bool :=
  match s with
  | EmptyString => true
  | String c r => Json.is_digit c && all_digits r
  end.

(** A printed integer is an optional minus sign and a non-empty run of
    digits. *)
Inductive numeral : string -> Prop :=
| numeral_pos ds : all_digits ds = true -> ds <> EmptyString -> numeral ds
| numeral_neg ds : all_digits ds = true -> ds <> EmptyString -> numeral (String "-" ds).

(** What one role contributes, through a projection [sel] of the row. *)
Definition contributes (pm : gmap string Permission) (M : Z)
    (sel : Permission -> option (list string)) (rids : list Z)
    (x : string) : Prop :=
  exists R p, R ∈ rids /\ pm !! perm_key R M = Some p /\ x ∈ or_empty (sel p).

(** No two rows of the collection share their (roleId, moduleId) pair, as
    the data model assumes. *)
Definition unique_pairs (perms : list Permission) : Prop :=
  forall p q, p ∈ perms -> q ∈ perms ->
    p_roleId p = p_roleId q -> p_moduleId p = p_moduleId q -> p = q.

(** The union of a projection of the rows, first over the last row of the
    collection for each pair (user's role, module) and then over every row
    of the collection. *)
Definition indexed_union (sel : Permission -> option (list string))
    (perms : list Permission) (urs : list UserRole) (U M : Z) (x : string) : Prop :=
  exists ur p, ur ∈ urs /\ ur_userId ur = U
    /\ last (filter (row_of (ur_roleId ur) M) perms) = Some p /\ x ∈ or_empty (sel p).

Definition all_rows_union (sel : Permission -> option (list string))
    (perms : list Permission) (urs : list UserRole) (U M : Z) (x : string) : Prop :=
  exists ur p, ur ∈ urs /\ ur_userId ur = U /\ p ∈ perms
    /\ p_roleId p = ur_roleId ur /\ p_moduleId p = M /\ x ∈ or_empty (sel p).

Definition dup_perms : list Permission :=
  [ {| p_id := Some 1; p_roleId := 1; p_moduleId := 1; p_actions := [];
       p_visibleFields := Some ["amount"]; p_editableFields := None |};
    {| p_id := Some 2; p_roleId := 1; p_moduleId := 1; p_actions := [];
       p_visibleFields := Some ["date"]; p_editableFields := None |} ].

Definition one_link : list UserRole :=
  [ {| ur_id := Some 1; ur_userId := 1; ur_roleId := 1 |} ].

Definition no_store : Store :=
  {| db_users := []; db_modules := []; db_permissions := []; db_userRoles := [];
     db_roles := [] |}.

(** The falsy values a [number | null] cell can hold. *)
Definition falsy (o : option Z) : Prop := o = None \/ o = Some 0.

Definition zero_user_modal : ActionModal :=
  {| am_open := true; am_userId := Some 0; am_moduleId := Some 1;
     am_action := Some Acreate; am_selectedRoles := [(1, true)];
     am_userRolesList := [{| r_id := 1; r_name := "Editor" |}] |}.

Definition with_actionModal (st : AppState) (am : ActionModal) : AppState :=
  {| users := users st; modules := modules st; permissions := permissions st;
     userRoles := userRoles st; roles := roles st; loading := loading st;
     fieldsModal := fieldsModal st; actionModal := am |}.

Definition with_fieldsModal (st : AppState) (fm : FieldsModal) : AppState :=
  {| users := users st; modules := modules st; permissions := permissions st;
     userRoles := userRoles st; roles := roles st; loading := loading st;
     fieldsModal := fm; actionModal := actionModal st |}.

(** The requests one entry of the selection gives rise to in Apply. *)
Definition role_requests (pm : gmap string Permission) (moduleId : Z)
    (targetAction : Action) (entry : Z * bool) : list Request :=
  match pm !! perm_key (fst entry) moduleId with
  | None =>
      if snd entry then
        [create_request
           {| p_id := None; p_roleId := fst entry; p_moduleId := moduleId;
              p_actions := [action_name targetAction];
              p_visibleFields := Some []; p_editableFields := Some [] |}]
      else []
  | Some perm =>
      [update_request (p_id perm)
         (with_actions perm (newActions_of perm (action_name targetAction) (snd entry)))]
  end.

Definition get_request (path : string) : Request :=
  {| rq_method := GET; rq_url := urlAPi +:+ path; rq_body := None |}.

(** The five requests of [loadAll]. *)
Definition reload_requests : list Request :=
  [get_request "/api/user/"; get_request "/api/module/";
   get_request "/api/permissions/"; get_request "/api/userRole/";
   get_request "/api/role/"].

(** A request that carries a permission of role [R]. *)
Definition about_role (R : Z) (rq : Request) : Prop :=
  match rq_body rq with
  | Some (BPermission p) => p_roleId p = R
  | _ => False
  end.

Global Instance about_role_dec R rq : Decision (about_role R rq).
Proof. unfold about_role. destruct (rq_body rq) as [[p|? ?]|]; apply _. Defined.

(** The requests a handler run added to the world's trace. *)
Definition issued {S A} (c : M S A) (w : World S) : list Request :=
  drop (length (sent w)) (sent (snd (c w))).

(** What [apiGet] makes of a settled [fetch]. *)
Definition reply_result {T} (o : Outcome T) : Result T :=
  match o with
  | Rejected => Threw NetworkError
  | Replied ok body =>
      if ok then
        match body with
        | Some json => Returned json
        | None => Threw SyntaxError
        end
      else Threw ApiError
  end.

(** The guard of Apply lets the modal through. *)
Definition apply_guard (am : ActionModal) (m : Z) (a : Action) : Prop :=
  (exists u, am_userId am = Some u /\ u <> 0)
  /\ am_moduleId am = Some m /\ m <> 0 /\ am_action am = Some a.

(** No row of the collection has the pair (R, M). *)
Definition no_row (perms : list Permission) (R M : Z) : Prop :=
  forall p : Permission, p ∈ perms -> ~ (p_roleId p = R /\ p_moduleId p = M).

Definition fresh_payload (R M : Z) (a : Action) : Permission :=
  {| p_id := None; p_roleId := R; p_moduleId := M; p_actions := [action_name a];
     p_visibleFields := Some []; p_editableFields := Some [] |}.

(** What C3 asks of a run of Apply: for every selected role without a row,
    the requests about that role are the single create request when its box
    is enabled, and none when it is disabled. *)
Definition creates_for_missing_rows {S} `{Backend S} (cur : AppState) (w : World S)
    (m : Z) (a : Action) : Prop :=
  forall (R : Z) (enabled : bool),
    (R, enabled) ∈ Object_entries (am_selectedRoles (actionModal cur)) ->
    no_row (permissions cur) R m ->
    filter (about_role R) (issued (applyActionModal cur) w)
    = if enabled then [create_request (fresh_payload R m a)] else [].

(** A directory in which user 0 holds the role Editor, and nobody has a
    permission row yet. *)
Definition root_state : AppState :=
  {| users := [{| u_id := 0; u_name := "root" |}];
     modules := [{| m_id := 1; m_name := "Invoices"; m_fields := FieldsArray [] |}];
     permissions := [];
     userRoles := [{| ur_id := Some 1; ur_userId := 0; ur_roleId := 1 |}];
     roles := [{| r_id := 1; r_name := "Editor" |}];
     loading := false; fieldsModal := fieldsModal_init;
     actionModal := actionModal_closed |}.

Definition root_store : Store :=
  {| db_users := users root_state; db_modules := modules root_state;
     db_permissions := []; db_userRoles := userRoles root_state;
     db_roles := roles root_state |}.

(** The state after the operator clicks create for user 0 on Invoices and
    ticks Editor. *)
Definition root_modal_open : AppState :=
  let w1 := snd (openActionModal root_state 0 1 Acreate (world_of root_state root_store)) in
  react (snd (toggleSelectedRole {| r_id := 1; r_name := "Editor" |} true w1)).

(** The same directory with user 1 in place of user 0. *)
Definition editor_state : AppState :=
  {| users := [{| u_id := 1; u_name := "U1" |}];
     modules := modules root_state;
     permissions := [];
     userRoles := [{| ur_id := Some 1; ur_userId := 1; ur_roleId := 1 |}];
     roles := roles root_state;
     loading := false; fieldsModal := fieldsModal_init;
     actionModal := actionModal_closed |}.

Definition editor_store : Store :=
  {| db_users := users editor_state; db_modules := modules editor_state;
     db_permissions := []; db_userRoles := userRoles editor_state;
     db_roles := roles editor_state |}.

Definition editor_modal_open : AppState :=
  let w1 := snd (openActionModal editor_state 1 1 Acreate
                   (world_of editor_state editor_store)) in
  react (snd (toggleSelectedRole {| r_id := 1; r_name := "Editor" |} true w1)).

(** [payload] is [perm] with the action [a] switched on or off and nothing
    else touched. *)
Definition toggled_payload (perm : Permission) (a : string) (enabled : bool)
    (payload : Permission) : Prop :=
  p_id payload = p_id perm
  /\ p_roleId payload = p_roleId perm
  /\ p_moduleId payload = p_moduleId perm
  /\ p_visibleFields payload = p_visibleFields perm
  /\ p_editableFields payload = p_editableFields perm
  /\ filter (fun x => x ≠ a) (p_actions payload) = filter (fun x => x ≠ a) (p_actions perm)
  /\ p_actions payload =
       if enabled then
         if bool_decide (a ∈ p_actions perm) then p_actions perm
         else p_actions perm ++ [a]
       else
         if bool_decide (a ∈ p_actions perm)
         then filter (fun x => x ≠ a) (p_actions perm)
         else p_actions perm.

(** A directory in which Editor already reads Invoices, with field lists. *)
Definition reader_row : Permission :=
  {| p_id := Some 10; p_roleId := 1; p_moduleId := 1; p_actions := ["read"; "update"];
     p_visibleFields := Some ["amount"; "date"]; p_editableFields := Some ["amount"] |}.

Definition reader_state : AppState :=
  {| users := users editor_state; modules := modules editor_state;
     permissions := [reader_row]; userRoles := userRoles editor_state;
     roles := roles editor_state; loading := false;
     fieldsModal := fieldsModal_init; actionModal := actionModal_closed |}.

Definition reader_store : Store :=
  {| db_users := users reader_state; db_modules := modules reader_state;
     db_permissions := [reader_row]; db_userRoles := userRoles reader_state;
     db_roles := roles reader_state |}.

(** The operator clicks update for U1 on Invoices and unticks Editor. *)
Definition reader_modal_open : AppState :=
  let w1 := snd (openActionModal reader_state 1 1 Aupdate
                   (world_of reader_state reader_store)) in
  react (snd (toggleSelectedRole {| r_id := 1; r_name := "Editor" |} false w1)).

(** The guard of Save lets the field editor through. *)
Definition save_guard (fm : FieldsModal) (m r : Z) : Prop :=
  fm_moduleId fm = Some m /\ m <> 0 /\ fm_roleId fm = Some r /\ r <> 0.

Definition fields_payload (fm : FieldsModal) (r m : Z) : Permission :=
  {| p_id := None; p_roleId := r; p_moduleId := m; p_actions := [];
     p_visibleFields := Some (fm_visibleFields fm);
     p_editableFields := Some (fm_editableFields fm) |}.

(** What C7 asks of a run of Save, for the role and module the editor
    holds: the first request it issues rewrites the first record of
    (role, module) with the editor's field lists, or creates a record with
    no actions when there is none. *)
Definition save_updates_or_creates {S} `{Backend S} (cur : AppState) (w : World S)
    (m r : Z) : Prop :=
  (forall l1 existing l2,
     permissions cur = l1 ++ existing :: l2 -> no_row l1 r m -> row_of r m existing ->
     exists payload,
       head (issued (saveFieldsModal cur) w)
         = Some (update_request (p_id existing) payload)
       /\ p_actions payload = p_actions existing
       /\ p_visibleFields payload = Some (fm_visibleFields (fieldsModal cur))
       /\ p_editableFields payload = Some (fm_editableFields (fieldsModal cur))
       /\ p_id payload = p_id existing /\ p_roleId payload = r /\ p_moduleId payload = m)
  /\ (no_row (permissions cur) r m ->
      head (issued (saveFieldsModal cur) w)
        = Some (create_request (fields_payload (fieldsModal cur) r m))).

(** The editor as [openFieldsEditor] leaves it. *)
Definition opened_editor (cur : AppState) (rel : UserRole) (moduleObj : ModuleRow)
    (allFields : JSValue) : FieldsModal :=
  let perm := permMap (permissions cur) !! perm_key (ur_roleId rel) (m_id moduleObj) in
  {| fm_open := true; fm_permId := perm ≫= p_id;
     fm_moduleId := Some (m_id moduleObj); fm_roleId := Some (ur_roleId rel);
     fm_visibleFields := or_empty (perm ≫= p_visibleFields);
     fm_editableFields := or_empty (perm ≫= p_editableFields);
     fm_allFields := allFields |}.

(** A directory in which U1 holds the role whose identifier is 0, and that
    role has a record for Invoices. *)
Definition zero_role_row : Permission :=
  {| p_id := Some 10; p_roleId := 0; p_moduleId := 1; p_actions := ["read"];
     p_visibleFields := Some ["amount"]; p_editableFields := Some [] |}.

Definition invoices : ModuleRow :=
  {| m_id := 1; m_name := "Invoices"; m_fields := FieldsArray ["amount"; "date"] |}.

Definition zero_role_state : AppState :=
  {| users := [{| u_id := 1; u_name := "U1" |}];
     modules := [invoices];
     permissions := [zero_role_row];
     userRoles := [{| ur_id := Some 1; ur_userId := 1; ur_roleId := 0 |}];
     roles := [{| r_id := 0; r_name := "Guest" |}];
     loading := false; fieldsModal := fieldsModal_init;
     actionModal := actionModal_closed |}.

Definition zero_role_store : Store :=
  {| db_users := users zero_role_state; db_modules := modules zero_role_state;
     db_permissions := permissions zero_role_state;
     db_userRoles := userRoles zero_role_state; db_roles := roles zero_role_state |}.

(** The operator opens the field editor for U1 on Invoices and ticks date. *)
Definition zero_role_editor_open : AppState :=
  let w1 := snd (openFieldsEditor zero_role_state 1 invoices
                   (world_of zero_role_state zero_role_store)) in
  react (snd (toggleVisibleField "date" w1)).

(** The same with the role numbered 1. *)
Definition reader_editor_open : AppState :=
  let w1 := snd (openFieldsEditor reader_state 1 invoices
                   (world_of reader_state reader_store)) in
  react (snd (toggleVisibleField "date" w1)).

(** A parse that has not run out of fuel and, when it succeeds, has consumed
    something. *)
Definition consumes {A} (s : string) (res : ParseResult A) : Prop :=
  match res with
  | POk _ rest => (String.length rest < String.length s)%nat
  | PSyntaxError => True
  | PFuel => False
  end.

(** A sequence of field names. *)
Definition is_string_seq (v : JSValue) : Prop :=
  exists l : list string, v = JArray (JString <$> l).

(** [s] between quotation marks. *)
Definition quoted (s : string) : string :=
  String Json.dquote (s +:+ String Json.dquote EmptyString).

(** The text [["amount", "date"]]. *)
Definition fields_json : string :=
  "[" +:+ quoted "amount" +:+ ", " +:+ quoted "date" +:+ "]".

(** The text [{"fields": ["amount"]}]. *)
Definition object_json : string :=
  "{" +:+ quoted "fields" +:+ ": [" +:+ quoted "amount" +:+ "]}".

(** A module whose field list arrives as the text [{"fields": ["amount"]}]. *)
Definition wrapped_invoices : ModuleRow :=
  {| m_id := 1; m_name := "Invoices"; m_fields := FieldsString object_json |}.

(** The store of [reader_store] after Editor's row for Invoices has been
    removed and created again, by someone else, under the identifier 20. *)
Definition moved_store : Store :=
  {| db_users := db_users reader_store; db_modules := db_modules reader_store;
     db_permissions :=
       [{| p_id := Some 20; p_roleId := 1; p_moduleId := 1;
           p_actions := ["read"; "update"];
           p_visibleFields := Some ["amount"; "date"];
           p_editableFields := Some ["amount"] |}];
     db_userRoles := db_userRoles reader_store; db_roles := db_roles reader_store |}.

(** A world whose network follows the script [drops]. *)
Definition dropped_world (st : AppState) (srv : Store) (drops : list bool)
    : World (Flaky Store) :=
  {| react := st; server := {| script := drops; inner := srv |};
     sent := []; console := []; alerts := [] |}.

(** Modelled from the spec: what the requests of one entry of the selection
    do to the permissions stored by the backing API. *)
Definition store_step (pm : gmap string Permission) (m : Z) (a : Action)
    (ps : list Permission) (e : Z * bool) : list Permission :=
  match pm !! perm_key (fst e) m with
  | Some perm =>
      store_put (show_id (p_id perm))
        (with_actions perm (newActions_of perm (action_name a) (snd e))) <$> ps
  | None =>
      if snd e then ps ++ [with_id (fresh_payload (fst e) m a) (fresh_id (p_id <$> ps))]
      else ps
  end.

(** The stored permissions already are what the entry asks for (or its row
    cannot be addressed). *)
Definition settled (ps : list Permission) (m : Z) (a : Action) (e : Z * bool) : Prop :=
  match permMap ps !! perm_key (fst e) m with
  | Some p => newActions_of p (action_name a) (snd e) = p_actions p \/ p_id p = None
  | None => snd e = false
  end.

(** The second scenario of the specification: U1 is Editor and Viewer;
    Editor sees amount, Viewer sees date. *)
Definition two_role_perms : list Permission :=
  [ {| p_id := Some 1; p_roleId := 1; p_moduleId := 1; p_actions := ["read"];
       p_visibleFields := Some ["amount"]; p_editableFields := Some ["amount"] |};
    {| p_id := Some 2; p_roleId := 2; p_moduleId := 1; p_actions := [];
       p_visibleFields := Some ["date"; "amount"]; p_editableFields := None |} ].

Definition two_role_links : list UserRole :=
  [ {| ur_id := Some 1; ur_userId := 1; ur_roleId := 1 |};
    {| ur_id := Some 2; ur_userId := 1; ur_roleId := 2 |};
    {| ur_id := Some 3; ur_userId := 2; ur_roleId := 2 |} ].

(** ** The rest of the page: what the tables render *)

(** [!!userRoles.find((ur) => ur.userId === u.id && ur.roleId === r.id)],
    the check box of the Assign Roles tab. *)
Definition hasRole (userRoles : list UserRole) (userId roleId : Z) : bool :=
  bool_decide
    (is_Some (find_first (fun ur => ur_userId ur = userId ∧ ur_roleId ur = roleId)
                userRoles)).

(** [!!actionModal.selectedRoles[r.id]], the check box of a role inside the
    action modal. *)
Definition roleChecked (am : ActionModal) (r : Role) : bool :=
  default false (obj_get (am_selectedRoles am) (r_id r)).

(** U1 is linked to Editor and Viewer, but the roles collection is empty
    (not loaded, or the roles were removed). *)
Definition two_links_state : AppState :=
  {| users := [{| u_id := 1; u_name := "U1" |}]; modules := [invoices];
     permissions := two_role_perms; userRoles := two_role_links; roles := [];
     loading := false; fieldsModal := fieldsModal_init;
     actionModal := actionModal_closed |}.

(** The link test [ur.userId === userId && ur.roleId === roleId]. *)
Definition link_of (U R : Z) (ur : UserRole) : Prop :=
  ur_userId ur = U /\ ur_roleId ur = R.

Global Instance link_of_dec U R ur : Decision (link_of U R ur).
Proof. unfold link_of. apply _. Defined.

Definition delete_link_request (ident : option Z) : Request :=
  {| rq_method := DELETE; rq_url := urlAPi +:+ "/api/userRole/" +:+ show_id ident;
     rq_body := None |}.

Definition create_link_request (U R : Z) : Request :=
  {| rq_method := POST; rq_url := urlAPi +:+ "/api/userRole";
     rq_body := Some (BUserRole U R) |}.
(** * Verification *)

(** ** The index key is injective *)

Lemma append_cons c a b : String c a +:+ b = String c (a +:+ b).
Proof. reflexivity. Qed.

Lemma append_nil_l b : EmptyString +:+ b = b.
Proof. reflexivity. Qed.

Lemma append_nil_r a : a +:+ EmptyString = a.
Proof. induction a as [|c a IH]; [done|]. by rewrite append_cons, IH. Qed.

Lemma append_snoc a c b : (a +:+ String c EmptyString) +:+ b = a +:+ String c b.
Proof. induction a as [|d a IH]; [done|]. by rewrite !append_cons, IH. Qed.

Lemma pretty_N_char_digit x : Json.is_digit (pretty_N_char x) = true.
Proof.
  unfold pretty_N_char. repeat case_match; reflexivity.
Qed.

Lemma pretty_N_go_digits x : forall s,
  exists ds, pretty_N_go x s = ds +:+ s /\ all_digits ds = true
             /\ ((0 < x)%N -> ds <> EmptyString).
Proof.
  induction (N.lt_wf_0 x) as [x _ IH]. intros s.
  destruct (decide (0 < x)%N) as [Hpos|Hz].
  - rewrite pretty_N_go_step by done.
    destruct (IH (x `div` 10)%N (N.div_lt x 10 Hpos eq_refl)
                (String (pretty_N_char (x `mod` 10)) s)) as (ds & Hgo & Hds & _).
    rewrite Hgo.
    exists (ds +:+ String (pretty_N_char (x `mod` 10)) EmptyString).
    split; [|split].
    + by rewrite append_snoc.
    + clear -Hds. induction ds as [|c ds IHds].
      * rewrite append_nil_l. simpl. by rewrite pretty_N_char_digit.
      * rewrite append_cons. simpl in *. apply andb_prop in Hds as [-> ?]. simpl. auto.
    + intros _. by destruct ds.
  - assert (x = 0%N) as -> by lia. exists EmptyString. rewrite pretty_N_go_0.
    split; [done|]. split; [done|lia].
Qed.

Lemma pretty_pos_digits (p : positive) :
  exists ds, pretty p = ds /\ all_digits ds = true /\ ds <> EmptyString.
Proof.
  unfold pretty, pretty_positive, pretty, pretty_N.
  destruct (decide (N.pos p = 0%N)) as [|_]; [lia|].
  destruct (pretty_N_go_digits (N.pos p) EmptyString) as (ds & -> & Hds & Hne).
  exists ds. rewrite append_nil_r. split; [done|].
  split; [done|]. apply Hne. lia.
Qed.

Lemma pretty_Z_numeral (z : Z) : numeral (pretty z).
Proof.
  destruct z as [|p|p]; unfold pretty, pretty_Z.
  - by apply numeral_pos.
  - destruct (pretty_pos_digits p) as (ds & -> & ? & ?). by apply numeral_pos.
  - destruct (pretty_pos_digits p) as (ds & -> & ? & ?). by apply numeral_neg.
Qed.

Lemma digits_dash_split a1 : forall a2 b1 b2,
  all_digits a1 = true -> all_digits a2 = true ->
  a1 +:+ String "-" b1 = a2 +:+ String "-" b2 -> a1 = a2 /\ b1 = b2.
Proof.
  induction a1 as [|c a1 IH]; intros [|d a2] b1 b2 H1 H2 Heq;
    rewrite ?append_cons, ?append_nil_l in Heq; simpl in *.
  - by inversion Heq.
  - inversion Heq; subst. by apply andb_prop in H2 as [? _].
  - inversion Heq; subst. by apply andb_prop in H1 as [? _].
  - inversion Heq; subst. apply andb_prop in H1 as [_ H1].
    apply andb_prop in H2 as [_ H2].
    destruct (IH _ _ _ H1 H2 H3) as [-> ->]. done.
Qed.

Lemma numeral_dash_split a1 a2 b1 b2 :
  numeral a1 -> numeral a2 ->
  a1 +:+ String "-" b1 = a2 +:+ String "-" b2 -> a1 = a2 /\ b1 = b2.
Proof.
  intros [d1 H1 N1|d1 H1 N1] [d2 H2 N2|d2 H2 N2] Heq.
  - by apply digits_dash_split.
  - destruct d1 as [|c d1]; [done|]. rewrite !append_cons in Heq.
    simpl in *. inversion Heq; subst.
    by apply andb_prop in H1 as [? _].
  - destruct d2 as [|c d2]; [done|]. rewrite !append_cons in Heq.
    simpl in *. inversion Heq; subst.
    by apply andb_prop in H2 as [? _].
  - rewrite !append_cons in Heq. inversion Heq as [Heq'].
    destruct (digits_dash_split _ _ _ _ H1 H2 Heq') as [-> ->]. done.
Qed.

Lemma perm_key_inj r1 m1 r2 m2 :
  perm_key r1 m1 = perm_key r2 m2 -> r1 = r2 /\ m1 = m2.
Proof.
  unfold perm_key. intros Heq.
  destruct (numeral_dash_split _ _ _ _ (pretty_Z_numeral r1) (pretty_Z_numeral r2) Heq)
    as [Hr Hm].
  split; by apply (inj pretty).
Qed.

(** ** The permission index *)

Lemma permMap_snoc ps p :
  permMap (ps ++ [p]) = <[perm_key (p_roleId p) (p_moduleId p) := p]> (permMap ps).
Proof. unfold permMap. by rewrite foldl_snoc. Qed.

(** The index holds, for a pair, the last row of the collection with that
    pair. *)
Lemma permMap_lookup ps R M :
  permMap ps !! perm_key R M = last (filter (row_of R M) ps).
Proof.
  induction ps as [|p ps IH] using rev_ind; [done|].
  rewrite permMap_snoc, filter_app, filter_cons, filter_nil.
  destruct (decide (row_of R M p)) as [[HR HM]|Hn].
  - rewrite HR, HM, lookup_insert_eq. by rewrite last_snoc.
  - rewrite app_nil_r, lookup_insert_ne; [done|].
    intros Hk. apply perm_key_inj in Hk. by destruct Hn.
Qed.

Lemma permMap_lookup_Some ps R M p :
  permMap ps !! perm_key R M = Some p -> p ∈ ps /\ p_roleId p = R /\ p_moduleId p = M.
Proof.
  rewrite permMap_lookup. intros Hl.
  assert (p ∈ filter (row_of R M) ps) as Hin.
  { destruct (filter (row_of R M) ps) as [|q l] using rev_ind; [done|].
    rewrite last_snoc in Hl. inversion Hl; subst. set_solver. }
  apply list_elem_of_filter in Hin as [[? ?] ?]. done.
Qed.

Lemma permMap_lookup_None ps R M :
  permMap ps !! perm_key R M = None <->
  forall p, p ∈ ps -> ~ (p_roleId p = R /\ p_moduleId p = M).
Proof.
  rewrite permMap_lookup. split.
  - intros Hl p Hp Hrow.
    assert (p ∈ filter (row_of R M) ps) as Hin by (by apply list_elem_of_filter).
    destruct (filter (row_of R M) ps) as [|q l] using rev_ind; [by inversion Hin|].
    by rewrite last_snoc in Hl.
  - intros Hall. destruct (filter (row_of R M) ps) as [|q l] eqn:E using rev_ind; [done|].
    assert (q ∈ filter (row_of R M) ps) as Hin by (rewrite E; set_solver).
    apply list_elem_of_filter in Hin as [? ?]. by destruct (Hall q).
Qed.

(** ** [userRoleIds] *)

Lemma elem_of_userRoleIds urs U R :
  R ∈ userRoleIds urs U <-> exists ur, ur ∈ urs /\ ur_userId ur = U /\ ur_roleId ur = R.
Proof.
  unfold userRoleIds. rewrite list_elem_of_fmap. split.
  - intros (ur & -> & Hin). apply list_elem_of_filter in Hin as [? ?]. eauto.
  - intros (ur & ? & ? & <-). exists ur. split; [done|]. by apply list_elem_of_filter.
Qed.

Lemma userRoleIds_nil urs U :
  (forall ur, ur ∈ urs -> ur_userId ur <> U) -> userRoleIds urs U = [].
Proof.
  intros Hno. destruct (userRoleIds urs U) as [|R l] eqn:E; [done|].
  assert (R ∈ userRoleIds urs U) as Hin by (rewrite E; set_solver).
  apply elem_of_userRoleIds in Hin as (ur & ? & ? & _). by destruct (Hno ur).
Qed.

(** ** [userHasAction] *)

Lemma includes_true l a : includes l a = true <-> a ∈ l.
Proof. unfold includes. by rewrite bool_decide_eq_true. Qed.

Lemma userHasAction_loop_true pm M A rids :
  userHasAction_loop pm M A rids = true <->
  exists R perm, R ∈ rids /\ pm !! perm_key R M = Some perm
                 /\ action_name A ∈ p_actions perm.
Proof.
  induction rids as [|rid rest IH]; simpl.
  - split; [done|]. intros (R & perm & Hin & _). by inversion Hin.
  - destruct (pm !! perm_key rid M) as [perm|] eqn:Hl.
    + destruct (includes (p_actions perm) (action_name A)) eqn:Hinc.
      * split; [|done]. intros _. exists rid, perm.
        split; [apply elem_of_cons; by left|]. split; [done|]. by apply includes_true.
      * etransitivity; [exact IH|]. split.
        -- intros (R & q & ? & ? & ?). exists R, q.
           split; [apply elem_of_cons; by right|done].
        -- intros (R & q & Hin & Hq & Ha). apply elem_of_cons in Hin as [->|Hin].
           ++ rewrite Hl in Hq. inversion Hq; subst.
              apply includes_true in Ha. congruence.
           ++ by exists R, q.
    + etransitivity; [exact IH|]. split.
      * intros (R & q & ? & ? & ?). exists R, q.
           split; [apply elem_of_cons; by right|done].
      * intros (R & q & Hin & Hq & Ha). apply elem_of_cons in Hin as [->|Hin].
        -- congruence.
        -- by exists R, q.
Qed.

(** A row of the pair (R, M) is the last such row when no two rows share
    their pair. *)
Lemma unique_pairs_last perms R M p :
  unique_pairs perms ->
  last (filter (row_of R M) perms) = Some p <-> p ∈ perms /\ row_of R M p.
Proof.
  intros Huniq. rewrite <- permMap_lookup. split.
  - intros Hl. apply permMap_lookup_Some in Hl as (? & ? & ?). done.
  - intros [Hp [HR HM]].
    destruct (permMap perms !! perm_key R M) as [q|] eqn:Hl.
    + apply permMap_lookup_Some in Hl as (? & ? & ?).
      f_equal. apply Huniq; congruence.
    + exfalso. eapply permMap_lookup_None in Hl; [|exact Hp]. by apply Hl.
Qed.

(** C1.  [userHasAction(U, M, A)] is true exactly when some user-role record
    links U to a role R for which the row indexed under (R, M) -- the last
    row of the permissions collection whose roleId is R and whose moduleId is
    M -- has A among its actions; and it is false for a user whom no
    user-role record links to a role.  When no two rows share their pair, the
    indexed row is the one row of the collection for (R, M). *)
Theorem userHasAction_spec perms urs U M A :
  (userHasAction perms urs U M A = true <->
   exists ur perm, ur ∈ urs /\ ur_userId ur = U
     /\ last (filter (row_of (ur_roleId ur) M) perms) = Some perm
     /\ action_name A ∈ p_actions perm)
  /\ ((forall ur, ur ∈ urs -> ur_userId ur <> U) ->
      userHasAction perms urs U M A = false)
  /\ (unique_pairs perms ->
      (userHasAction perms urs U M A = true <->
       exists ur perm, ur ∈ urs /\ ur_userId ur = U
         /\ perm ∈ perms /\ row_of (ur_roleId ur) M perm
         /\ action_name A ∈ p_actions perm)).
Proof.
  assert (Hiff : userHasAction perms urs U M A = true <->
    exists ur perm, ur ∈ urs /\ ur_userId ur = U
      /\ last (filter (row_of (ur_roleId ur) M) perms) = Some perm
      /\ action_name A ∈ p_actions perm).
  { unfold userHasAction. rewrite userHasAction_loop_true. split.
    - intros (R & perm & Hin & Hl & Ha). rewrite permMap_lookup in Hl.
      apply elem_of_userRoleIds in Hin as (ur & ? & ? & <-). by exists ur, perm.
    - intros (ur & perm & ? & ? & Hl & ?). exists (ur_roleId ur), perm.
      rewrite permMap_lookup. split; [|done]. apply elem_of_userRoleIds. by exists ur. }
  split; [exact Hiff|]. split.
  - intros Hno. unfold userHasAction. by rewrite userRoleIds_nil.
  - intros Huniq. etransitivity; [exact Hiff|]. split.
    + intros (ur & perm & ? & ? & Hl & ?).
      apply (unique_pairs_last _ _ _ _ Huniq) in Hl as [? ?]. by exists ur, perm.
    + intros (ur & perm & ? & ? & Hp & Hrow & ?). exists ur, perm.
      split; [done|]. split; [done|]. split; [|done].
      by apply (unique_pairs_last _ _ _ _ Huniq).
Qed.

(** ** [unionFieldsForUserModule] *)

Lemma elem_of_set_add s f x : x ∈ set_add s f <-> x ∈ s \/ x = f.
Proof.
  unfold set_add. case_bool_decide as Hin.
  - split; [by left|]. intros [?| ->]; done.
  - rewrite elem_of_app, list_elem_of_singleton. done.
Qed.

Lemma NoDup_set_add s f : NoDup s -> NoDup (set_add s f).
Proof.
  intros Hs. unfold set_add. case_bool_decide as Hin; [done|].
  apply NoDup_app. split; [done|]. split; [|apply NoDup_singleton].
  intros x Hx Hx'. apply list_elem_of_singleton in Hx'. by subst.
Qed.

Lemma elem_of_set_add_all fs : forall s x,
  x ∈ set_add_all s fs <-> x ∈ s \/ x ∈ fs.
Proof.
  unfold set_add_all. induction fs as [|f fs IH]; intros s x; simpl.
  - split; [by left|]. intros [?|Hx]; [done|by inversion Hx].
  - etransitivity; [apply IH|]. rewrite elem_of_set_add, elem_of_cons. tauto.
Qed.

Lemma NoDup_set_add_all fs : forall s, NoDup s -> NoDup (set_add_all s fs).
Proof.
  unfold set_add_all. induction fs as [|f fs IH]; intros s Hs; simpl; [done|].
  by apply IH, NoDup_set_add.
Qed.

Section Union.
Variables (pm : gmap string Permission) (M : Z).

Lemma contributes_cons sel rid rids x :
  contributes pm M sel (rid :: rids) x <->
  (exists p, pm !! perm_key rid M = Some p /\ x ∈ or_empty (sel p))
  \/ contributes pm M sel rids x.
Proof.
  unfold contributes. split.
  - intros (R & p & Hin & Hl & Hx). apply elem_of_cons in Hin as [->|Hin]; eauto 6.
  - intros [(p & Hl & Hx)|(R & p & Hin & Hl & Hx)].
    + exists rid, p. split; [apply elem_of_cons; by left|done].
    + exists R, p. split; [apply elem_of_cons; by right|done].
Qed.

Lemma union_fold_elem rids : forall acc x,
  (x ∈ fst (foldl (union_step pm M) acc rids) <->
     x ∈ fst acc \/ contributes pm M p_visibleFields rids x)
  /\ (x ∈ snd (foldl (union_step pm M) acc rids) <->
     x ∈ snd acc \/ contributes pm M p_editableFields rids x).
Proof.
  induction rids as [|rid rids IH]; intros acc x; simpl.
  - unfold contributes. split; (split; [by left|]);
      (intros [?|(R & p & Hin & _)]; [done|by inversion Hin]).
  - destruct (IH (union_step pm M acc rid) x) as [IHv IHe].
    split; (etransitivity; [first [exact IHv|exact IHe]|]);
      rewrite contributes_cons; unfold union_step;
      destruct (pm !! perm_key rid M) as [p|] eqn:Hl; simpl;
      rewrite ?elem_of_set_add_all.
    + split; [intros [[?|?]|?]; eauto 6|].
      intros [?|[(q & Hq & ?)|?]]; [tauto| |tauto]. inversion Hq; subst. tauto.
    + split; [intros [?|?]; eauto|].
      intros [?|[(q & Hq & ?)|?]]; [tauto|done|tauto].
    + split; [intros [[?|?]|?]; eauto 6|].
      intros [?|[(q & Hq & ?)|?]]; [tauto| |tauto]. inversion Hq; subst. tauto.
    + split; [intros [?|?]; eauto|].
      intros [?|[(q & Hq & ?)|?]]; [tauto|done|tauto].
Qed.

Lemma union_fold_NoDup rids : forall acc,
  NoDup (fst acc) -> NoDup (snd acc) ->
  NoDup (fst (foldl (union_step pm M) acc rids))
  /\ NoDup (snd (foldl (union_step pm M) acc rids)).
Proof.
  induction rids as [|rid rids IH]; intros acc Hv He; simpl; [done|].
  apply IH; unfold union_step; destruct (pm !! perm_key rid M); simpl;
    auto using NoDup_set_add_all.
Qed.

Lemma union_fold_none rids : forall acc,
  (forall R, R ∈ rids -> pm !! perm_key R M = None) ->
  foldl (union_step pm M) acc rids = acc.
Proof.
  induction rids as [|rid rids IH]; intros acc Hnone; simpl; [done|].
  unfold union_step at 2. rewrite (Hnone rid) by (apply elem_of_cons; by left).
  apply IH. intros R HR. apply Hnone. apply elem_of_cons. by right.
Qed.

End Union.

Lemma contributes_indexed sel perms urs U M x :
  contributes (permMap perms) M sel (userRoleIds urs U) x
  <-> indexed_union sel perms urs U M x.
Proof.
  unfold contributes, indexed_union. split.
  - intros (R & p & Hin & Hl & Hx). rewrite permMap_lookup in Hl.
    apply elem_of_userRoleIds in Hin as (ur & ? & ? & <-). by exists ur, p.
  - intros (ur & p & ? & ? & Hl & ?). exists (ur_roleId ur), p.
    rewrite permMap_lookup.
    split; [|done]. apply elem_of_userRoleIds. by exists ur.
Qed.

(** When no two rows share their pair, the union over the last row of each
    pair is the union over all rows of the collection. *)
Lemma indexed_union_unique sel perms urs U M x :
  unique_pairs perms ->
  indexed_union sel perms urs U M x <-> all_rows_union sel perms urs U M x.
Proof.
  intros Huniq. unfold indexed_union, all_rows_union. split.
  - intros (ur & p & ? & ? & Hl & ?).
    apply (unique_pairs_last _ _ _ _ Huniq) in Hl as (? & ? & ?). by exists ur, p.
  - intros (ur & p & ? & ? & Hp & HR & HM & ?). exists ur, p.
    split; [done|]. split; [done|]. split; [|done].
    by apply (unique_pairs_last _ _ _ _ Huniq).
Qed.

Lemma unionFields_elem perms urs U M x :
  let r := unionFieldsForUserModule perms urs U M in
  (x ∈ visible r <-> indexed_union p_visibleFields perms urs U M x)
  /\ (x ∈ editable r <-> indexed_union p_editableFields perms urs U M x).
Proof.
  unfold unionFieldsForUserModule. simpl.
  destruct (union_fold_elem (permMap perms) M (userRoleIds urs U) ([], []) x)
    as [Hv He].
  rewrite <- !contributes_indexed. split.
  - etransitivity; [exact Hv|]. simpl.
    split; [intros [Hx|?]; [by inversion Hx|done]|by right].
  - etransitivity; [exact He|]. simpl.
    split; [intros [Hx|?]; [by inversion Hx|done]|by right].
Qed.

(** C2.  The two lists that [unionFieldsForUserModule(U, M)] returns are
    duplicate-free.  When no two permission rows share their
    (roleId, moduleId) pair, as the data model assumes, they hold exactly the
    visible (respectively editable) fields of all the rows of the collection
    whose roleId is one of U's roles and whose moduleId is M.  Whatever the
    collection, they hold the fields of the last row of each such pair, which
    is the row the index keeps.  Both are empty when no row of the collection
    matches one of U's roles and M. *)
Theorem unionFields_spec perms urs U M :
  let r := unionFieldsForUserModule perms urs U M in
  NoDup (visible r) /\ NoDup (editable r)
  /\ (unique_pairs perms ->
      (forall x, x ∈ visible r <-> all_rows_union p_visibleFields perms urs U M x)
      /\ (forall x, x ∈ editable r <-> all_rows_union p_editableFields perms urs U M x))
  /\ (forall x, x ∈ visible r <-> indexed_union p_visibleFields perms urs U M x)
  /\ (forall x, x ∈ editable r <-> indexed_union p_editableFields perms urs U M x)
  /\ ((forall ur p, ur ∈ urs -> ur_userId ur = U -> p ∈ perms ->
         ~ row_of (ur_roleId ur) M p) ->
      visible r = [] /\ editable r = []).
Proof.
  cbv zeta. split; [|split; [|split; [|split; [|split]]]].
  - unfold unionFieldsForUserModule. simpl.
    apply union_fold_NoDup; simpl; apply NoDup_nil_2.
  - unfold unionFieldsForUserModule. simpl.
    apply union_fold_NoDup; simpl; apply NoDup_nil_2.
  - intros Huniq. split; intros x.
    + rewrite <- (indexed_union_unique _ _ _ _ _ _ Huniq).
      apply (unionFields_elem perms urs U M x).
    + rewrite <- (indexed_union_unique _ _ _ _ _ _ Huniq).
      apply (unionFields_elem perms urs U M x).
  - intros x. apply (unionFields_elem perms urs U M x).
  - intros x. apply (unionFields_elem perms urs U M x).
  - intros Hnone. unfold unionFieldsForUserModule. simpl.
    rewrite union_fold_none; [done|].
    intros R HR. apply elem_of_userRoleIds in HR as (ur & Hur & HU & <-).
    apply permMap_lookup_None. intros p Hp Hrow. exact (Hnone ur p Hur HU Hp Hrow).
Qed.

(** Without that assumption the rows before the last one of a pair do not
    count: of two rows for (role 1, module 1), the field of the first one is
    missing from the result. *)
Example duplicate_rows_union :
  ~ (forall x, x ∈ visible (unionFieldsForUserModule dup_perms one_link 1 1)
               <-> all_rows_union p_visibleFields dup_perms one_link 1 1 x).
Proof.
  intros Hclaim.
  assert (Hin : "amount" ∈ visible (unionFieldsForUserModule dup_perms one_link 1 1)).
  { apply Hclaim. unfold all_rows_union.
    eexists _, _. split; [apply list_elem_of_here|].
    split; [reflexivity|]. split; [apply list_elem_of_here|].
    repeat split. apply list_elem_of_here. }
  vm_compute in Hin. apply list_elem_of_singleton in Hin. discriminate.
Qed.

Lemma unique_pairs_two_roles : unique_pairs two_role_perms.
Proof.
  intros p q Hp Hq HR _. unfold two_role_perms in Hp, Hq.
  apply elem_of_cons in Hp as [->|Hp]; [|apply list_elem_of_singleton in Hp as ->];
    (apply elem_of_cons in Hq as [->|Hq]; [|apply list_elem_of_singleton in Hq as ->]);
    first [reflexivity | exfalso; cbn in HR; lia].
Qed.

(** The second scenario of the specification: U1 is Editor and Viewer, and
    the field that only Viewer's row grants is in the union; nothing is
    granted for a module without rows. *)
Lemma two_roles_fields :
  "date" ∈ visible (unionFieldsForUserModule two_role_perms two_role_links 1 1)
  /\ visible (unionFieldsForUserModule two_role_perms two_role_links 1 2) = []
  /\ editable (unionFieldsForUserModule two_role_perms two_role_links 1 2) = [].
Proof.
  split.
  - apply (proj1 (proj2 (proj2 (unionFields_spec two_role_perms two_role_links 1 1)))
             unique_pairs_two_roles).
    exists {| ur_id := Some 2; ur_userId := 1; ur_roleId := 2 |}.
    exists {| p_id := Some 2; p_roleId := 2; p_moduleId := 1; p_actions := [];
              p_visibleFields := Some ["date"; "amount"]; p_editableFields := None |}.
    split; [apply list_elem_of_further, list_elem_of_here|].
    split; [reflexivity|].
    split; [apply list_elem_of_further, list_elem_of_here|].
    split; [reflexivity|]. split; [reflexivity|]. apply list_elem_of_here.
  - apply (unionFields_spec two_role_perms two_role_links 1 2).
    intros ur p _ _ Hp [_ HM]. unfold two_role_perms in Hp.
    apply elem_of_cons in Hp as [->|Hp]; [|apply list_elem_of_singleton in Hp as ->];
      cbn in HM; lia.
Defined.

(** U1 reads Invoices through Editor's row, and a user without a user-role
    record has no action. *)
Lemma editor_reads_invoices :
  userHasAction two_role_perms two_role_links 1 1 Aread = true
  /\ userHasAction two_role_perms two_role_links 3 1 Aread = false.
Proof.
  split.
  - apply (proj2 (proj2 (userHasAction_spec two_role_perms two_role_links 1 1 Aread))
             unique_pairs_two_roles).
    exists {| ur_id := Some 1; ur_userId := 1; ur_roleId := 1 |}.
    exists {| p_id := Some 1; p_roleId := 1; p_moduleId := 1; p_actions := ["read"];
              p_visibleFields := Some ["amount"]; p_editableFields := Some ["amount"] |}.
    split; [apply list_elem_of_here|]. split; [reflexivity|].
    split; [apply list_elem_of_here|]. split; [split; reflexivity|].
    apply list_elem_of_here.
  - apply (userHasAction_spec two_role_perms two_role_links 3 1 Aread).
    intros ur Hur. unfold two_role_links in Hur.
    repeat (apply elem_of_cons in Hur as [->|Hur]; [cbn; lia|]).
    by apply not_elem_of_nil in Hur.
Defined.

(** The resolver on the second scenario of the specification. *)
Example two_roles_union :
  unionFieldsForUserModule two_role_perms two_role_links 1 1
  = {| visible := ["amount"; "date"]; editable := ["amount"] |}.
Proof. vm_compute. reflexivity. Qed.

Example two_roles_actions :
  userHasAction two_role_perms two_role_links 1 1 Aread = true
  /\ userHasAction two_role_perms two_role_links 1 1 Aupdate = false
  /\ userHasAction two_role_perms two_role_links 2 1 Aread = false
  /\ userHasAction two_role_perms two_role_links 1 2 Aread = false.
Proof. vm_compute. repeat split. Qed.

Example perm_key_sample : perm_key 12 (-3) = "12--3".
Proof. vm_compute. reflexivity. Qed.

(** ** Opening the action modal *)

Lemma userRolesObjects_nil urs rs U :
  (forall ur, ur ∈ urs -> ur_userId ur <> U) -> userRolesObjects urs rs U = [].
Proof.
  intros Hno. unfold userRolesObjects. rewrite (userRoleIds_nil _ _ Hno).
  induction rs as [|r rs IH]; [done|].
  rewrite filter_cons. destruct (decide (r_id r ∈ [])) as [Hin|_]; [by inversion Hin|done].
Qed.

(** C5.  For a user whom no user-role record links to a role, the click
    handler of an action check box shows the notice and does nothing else:
    the React state (both modals included) is as before, no request is sent,
    nothing is logged. *)
Theorem openActionModal_no_roles {S} `{Backend S} (cur : AppState) (U M : Z)
    (A : Action) (w : World S) :
  (forall ur, ur ∈ userRoles cur -> ur_userId ur <> U) ->
  openActionModal cur U M A w =
    (Returned tt,
     {| react := react w; server := server w; sent := sent w; console := console w;
        alerts := alerts w ++ ["User has no roles assigned. Assign a role first."] |}).
Proof.
  intros Hno. unfold openActionModal. by rewrite (userRolesObjects_nil _ _ _ Hno).
Qed.

Lemma click_without_roles :
  openActionModal (S:=Store) initial_state 7 1 Acreate (world_of initial_state no_store) =
    (Returned tt,
     {| react := initial_state; server := no_store; sent := []; console := [];
        alerts := ["User has no roles assigned. Assign a role first."] |}).
Proof.
  apply (openActionModal_no_roles (S:=Store) initial_state 7 1 Acreate
           (world_of initial_state no_store)).
  simpl. intros ur Hin. inversion Hin.
Defined.

(** ** The guards of Apply and Save *)

Lemma truthy_falsy o : truthy o = false <-> falsy o.
Proof.
  unfold truthy, falsy. destruct o as [z|].
  - rewrite negb_false_iff, Z.eqb_eq. split; [intros ->; by right|].
    intros [?|Hz]; [done|by inversion Hz].
  - split; [by left|done].
Qed.

(** C10.  Apply returns at once, leaving the world (React state with the
    modal, requests sent) exactly as it was, when the modal's userId or
    moduleId is null or 0 or its action is null; Save, when the modal's
    moduleId or roleId is null or 0, only stores the field-editor state with
    [open] cleared: no request is sent, so nothing is reloaded. *)
Theorem falsy_guards {S} `{Backend S} (cur : AppState) (w : World S) :
  (falsy (am_userId (actionModal cur)) \/ falsy (am_moduleId (actionModal cur))
     \/ am_action (actionModal cur) = None ->
   applyActionModal cur w = (Returned tt, w))
  /\ (falsy (fm_moduleId (fieldsModal cur)) \/ falsy (fm_roleId (fieldsModal cur)) ->
      saveFieldsModal cur w = setFieldsModal (fun _ => fm_close (fieldsModal cur)) w
      /\ sent (snd (saveFieldsModal cur w)) = sent w
      /\ server (snd (saveFieldsModal cur w)) = server w
      /\ fm_open (fieldsModal (react (snd (saveFieldsModal cur w)))) = false
      /\ permissions (react (snd (saveFieldsModal cur w))) = permissions (react w)).
Proof.
  split.
  - intros Hg. unfold applyActionModal.
    destruct (am_moduleId (actionModal cur)) as [m|] eqn:Hm;
      destruct (am_action (actionModal cur)) as [a|] eqn:Ha; try done.
    assert (truthy (am_userId (actionModal cur)) && truthy (Some m) = false) as ->; [|done].
    apply andb_false_iff.
    destruct Hg as [Hu|[Hm'|?]]; [left|right|done]; by apply truthy_falsy.
  - intros Hg.
    assert (saveFieldsModal cur w
            = setFieldsModal (fun _ => fm_close (fieldsModal cur)) w) as Heq.
    { unfold saveFieldsModal.
      destruct (fm_moduleId (fieldsModal cur)) as [m|] eqn:Hm;
        destruct (fm_roleId (fieldsModal cur)) as [r|] eqn:Hr; try done.
      assert (truthy (Some m) && truthy (Some r) = false) as ->; [|done].
      apply andb_false_iff.
      destruct Hg as [Hm'|Hr']; [left|right]; by apply truthy_falsy. }
    rewrite Heq. done.
Qed.

Lemma user_zero_guards :
  let cur := with_actionModal initial_state zero_user_modal in
  applyActionModal (S:=Store) cur (world_of cur no_store)
    = (Returned tt, world_of cur no_store)
  /\ sent (snd (saveFieldsModal (S:=Store) cur (world_of cur no_store))) = [].
Proof.
  intros cur.
  destruct (falsy_guards (S:=Store) cur (world_of cur no_store)) as [Happly Hsave].
  split.
  - apply Happly. left. right. reflexivity.
  - apply Hsave. left. left. reflexivity.
Defined.

(** ** Own property enumeration *)

Lemma elem_of_first_keys ks x : x ∈ first_keys ks <-> x ∈ ks.
Proof.
  induction ks as [|k ks IH]; simpl; [done|].
  rewrite !elem_of_cons, list_elem_of_filter, IH.
  destruct (decide (x = k)); tauto.
Qed.

Lemma NoDup_first_keys ks : NoDup (first_keys ks).
Proof.
  induction ks as [|k ks IH]; simpl; [apply NoDup_nil_2|].
  apply NoDup_cons_2.
  - rewrite list_elem_of_filter. tauto.
  - by apply NoDup_filter.
Qed.

Lemma own_keys_Permutation o : own_keys o ≡ₚ first_keys (fst <$> o).
Proof.
  unfold own_keys. rewrite merge_sort_Permutation. apply filter_app_complement.
Qed.

Lemma NoDup_own_keys o : NoDup (own_keys o).
Proof. rewrite own_keys_Permutation. apply NoDup_first_keys. Qed.

Lemma elem_of_own_keys o k : k ∈ own_keys o <-> k ∈ fst <$> o.
Proof. rewrite own_keys_Permutation. apply elem_of_first_keys. Qed.

Lemma Object_entries_keys o : fst <$> Object_entries o = own_keys o.
Proof.
  unfold Object_entries. rewrite <- list_fmap_compose. apply list_fmap_id.
Qed.

Lemma NoDup_Object_entries o : NoDup (fst <$> Object_entries o).
Proof. rewrite Object_entries_keys. apply NoDup_own_keys. Qed.

Lemma obj_get_is_Some o k : k ∈ fst <$> o -> is_Some (obj_get o k).
Proof.
  induction o as [|[k' v] o IH]; simpl; [by inversion 1|].
  rewrite elem_of_cons. intros [->|Hin].
  - destruct (obj_get o k'); [done|]. rewrite bool_decide_eq_true_2 by done. done.
  - destruct (IH Hin) as [v' ->]. done.
Qed.

(** An entry pairs a written key with its latest value. *)
Lemma elem_of_Object_entries o k v :
  (k, v) ∈ Object_entries o <-> obj_get o k = Some v.
Proof.
  unfold Object_entries. rewrite list_elem_of_fmap. split.
  - intros (k' & [= <- ->] & Hin). apply elem_of_own_keys in Hin.
    destruct (obj_get_is_Some _ _ Hin) as [v' ->]. done.
  - intros Hget. exists k. rewrite Hget. split; [done|].
    apply elem_of_own_keys. clear -Hget.
    induction o as [|[k' v'] o IH]; simpl in *; [done|].
    rewrite elem_of_cons. destruct (obj_get o k) eqn:E; [right; by apply IH|].
    case_bool_decide; [by left|done].
Qed.

(** Index keys come first, in ascending order; the other keys follow in
    creation order; a rewritten key keeps its place and takes the new
    value. *)
Example Object_entries_order :
  Object_entries [(5, true); (-1, false); (2, true); (4294967295, true); (5, false)]
  = [(2, true); (5, false); (-1, false); (4294967295, true)].
Proof. vm_compute. reflexivity. Qed.

(** ** Traces of the handlers *)

Section Traces.
Context {S : Type} `{Backend S}.

Lemma apply_role_run pm m a e (w : World S) :
  fst (apply_role pm m a e w) = Returned tt
  /\ sent (snd (apply_role pm m a e w)) = sent w ++ role_requests pm m a e
  /\ react (snd (apply_role pm m a e w)) = react w
  /\ alerts (snd (apply_role pm m a e w)) = alerts w.
Proof.
  destruct e as [roleId enabled]. unfold apply_role, role_requests. simpl.
  destruct (pm !! perm_key roleId m) as [perm|].
  - unfold try_catch, bind, fetch, ret, console_error.
    destruct (put_permissions _ _ (server w)) as [[|ok j] s']; simpl; done.
  - destruct enabled.
    + unfold try_catch, bind, fetch, ret, console_error.
      destruct (post_permissions _ (server w)) as [[|ok j] s']; simpl; done.
    + unfold ret. simpl. by rewrite app_nil_r.
Qed.

Lemma for_of_apply_run pm m a entries : forall (w : World S),
  fst (for_of entries (apply_role pm m a) w) = Returned tt
  /\ sent (snd (for_of entries (apply_role pm m a) w))
     = sent w ++ mjoin (role_requests pm m a <$> entries)
  /\ react (snd (for_of entries (apply_role pm m a) w)) = react w
  /\ alerts (snd (for_of entries (apply_role pm m a) w)) = alerts w.
Proof.
  induction entries as [|e entries IH]; intros w; simpl.
  - unfold ret. simpl. by rewrite app_nil_r.
  - unfold bind.
    destruct (apply_role_run pm m a e w) as (Hr & Hs & Hre & Ha).
    destruct (apply_role pm m a e w) as [r w1]. simpl in *. subst r.
    destruct (IH w1) as (Hr' & Hs' & Hre' & Ha').
    rewrite Hr', Hs', Hre', Ha', Hs, Hre, Ha. by rewrite app_assoc.
Qed.

Lemma settle_apiGet_run {T} path (ep : S -> Outcome T * S) (w : World S) :
  settle (apiGet path ep) w =
    (Returned (reply_result (fst (ep (server w)))),
     {| react := react w; server := snd (ep (server w));
        sent := sent w ++ [get_request path];
        console := console w; alerts := alerts w |}).
Proof.
  unfold settle, apiGet, bind, fetch, res_json, ret, throw.
  destruct (ep (server w)) as [[|[] [j|]] s']; reflexivity.
Qed.

Lemma loadAll_run (w : World S) :
  sent (snd (loadAll w)) = sent w ++ reload_requests
  /\ console (snd (loadAll w)) = console w
  /\ alerts (snd (loadAll w)) = alerts w
  /\ fieldsModal (react (snd (loadAll w))) = fieldsModal (react w)
  /\ actionModal (react (snd (loadAll w))) = actionModal (react w).
Proof.
  destruct (loadAll w) as [res w'] eqn:E. simpl.
  unfold loadAll in E.
  unfold bind at 1 in E. unfold setLoading at 1, set_react at 1 in E.
  do 5 (unfold bind at 1 in E; rewrite settle_apiGet_run in E).
  cbn [react server sent console alerts] in E.
  rewrite <- !app_assoc in E.
  change (sent w ++ _) with (sent w ++ reload_requests) in E.
  unfold bind, join, ret, throw in E.
  destruct (reply_result _) as [u|e1]; [|by inversion E].
  destruct (reply_result _) as [m|e2]; [|by inversion E].
  destruct (reply_result _) as [p|e3]; [|by inversion E].
  destruct (reply_result _) as [ur|e4]; [|by inversion E].
  destruct (reply_result _) as [r|e5]; [|by inversion E].
  simpl in E. by inversion E.
Qed.

End Traces.

(** ** Apply: what is sent *)

Lemma issued_app {S A} (c : M S A) (w : World S) l :
  sent (snd (c w)) = sent w ++ l -> issued c w = l.
Proof. unfold issued. intros ->. by rewrite drop_app_length. Qed.

Section Apply.
Context {S : Type} `{Backend S}.

Lemma applyActionModal_issued cur (w : World S) m a :
  apply_guard (actionModal cur) m a ->
  issued (applyActionModal cur) w
  = mjoin (role_requests (permMap (permissions cur)) m a
              <$> Object_entries (am_selectedRoles (actionModal cur)))
    ++ reload_requests
  /\ alerts (snd (applyActionModal cur w)) = alerts w.
Proof.
  intros ((u & Hu & Hu0) & Hm & Hm0 & Ha).
  assert (sent (snd (applyActionModal cur w))
          = sent w ++ (mjoin (role_requests (permMap (permissions cur)) m a
                         <$> Object_entries (am_selectedRoles (actionModal cur)))
                       ++ reload_requests)
          /\ alerts (snd (applyActionModal cur w)) = alerts w) as [Hs Hal].
  { destruct (applyActionModal cur w) as [res w'] eqn:E. simpl.
    unfold applyActionModal in E. rewrite Hm, Ha, Hu in E. simpl in E.
    assert (negb (u =? 0) && negb (m =? 0) = true) as Hg.
    { apply andb_true_iff. split; apply negb_true_iff, Z.eqb_neq; done. }
    rewrite Hg in E. unfold bind, setActionModal, set_react in E.
    destruct (for_of_apply_run (permMap (permissions cur)) m a
                (Object_entries (am_selectedRoles (actionModal cur))) w)
      as (Hr & Hs & _ & Hal).
    destruct (for_of _ _ w) as [r w1]. simpl in *. subst r.
    destruct (loadAll_run w1) as (Hs2 & _ & Hal2 & _).
    destruct (loadAll w1) as [[[]|e] w2]; simpl in *; inversion E; subst; simpl;
      rewrite Hs2, Hs, Hal2, Hal, app_assoc; done. }
  split; [by apply issued_app|done].
Qed.

Lemma applyActionModal_blocked cur (w : World S) :
  (forall m a, ~ apply_guard (actionModal cur) m a) ->
  applyActionModal cur w = (Returned tt, w).
Proof.
  intros Hng. unfold applyActionModal.
  destruct (am_moduleId (actionModal cur)) as [m|] eqn:Hm; [|done].
  destruct (am_action (actionModal cur)) as [a|] eqn:Ha; [|done].
  destruct (truthy (am_userId (actionModal cur)) && truthy (Some m)) eqn:Hg; [|done].
  exfalso. apply (Hng m a). apply andb_true_iff in Hg as [Hu Hm'].
  unfold apply_guard. rewrite Hm, Ha.
  destruct (am_userId (actionModal cur)) as [u|]; [|done]. simpl in *.
  apply negb_true_iff, Z.eqb_neq in Hu, Hm'. eauto 8.
Qed.

End Apply.

Lemma role_requests_about perms m a e rq :
  rq ∈ role_requests (permMap perms) m a e -> about_role (fst e) rq.
Proof.
  unfold role_requests. destruct (permMap perms !! perm_key e.1 m) as [perm|] eqn:Hl.
  - intros Hin. apply list_elem_of_singleton in Hin as ->.
    apply permMap_lookup_Some in Hl as (_ & HR & _). done.
  - destruct (snd e); [|by inversion 1].
    intros Hin. apply list_elem_of_singleton in Hin as ->. done.
Qed.

Lemma filter_all {A} (P : A -> Prop) `{forall x, Decision (P x)} (l : list A) :
  (forall x, x ∈ l -> P x) -> filter P l = l.
Proof.
  induction l as [|x l IH]; intros Hall; [done|].
  rewrite filter_cons_True by (apply Hall, list_elem_of_here).
  f_equal. apply IH. intros y Hy. apply Hall. by apply list_elem_of_further.
Qed.

Lemma filter_none {A} (P : A -> Prop) `{forall x, Decision (P x)} (l : list A) :
  (forall x, x ∈ l -> ~ P x) -> filter P l = [].
Proof.
  induction l as [|x l IH]; intros Hall; [done|].
  rewrite filter_cons_False by (apply Hall, list_elem_of_here).
  apply IH. intros y Hy. apply Hall. by apply list_elem_of_further.
Qed.

(** Among the requests of a selection with distinct keys, those about one
    role are the requests of that role's entry. *)
Lemma filter_about_role perms m a entries R enabled :
  NoDup (fst <$> entries) -> (R, enabled) ∈ entries ->
  filter (about_role R) (mjoin (role_requests (permMap perms) m a <$> entries))
  = role_requests (permMap perms) m a (R, enabled).
Proof.
  induction entries as [|e entries IH]; intros Hnd Hin; [by inversion Hin|].
  rewrite fmap_cons in Hnd. apply NoDup_cons in Hnd as [Hfresh Hnd].
  rewrite fmap_cons. simpl. rewrite filter_app.
  apply elem_of_cons in Hin as [<-|Hin].
  - rewrite filter_all by (intros rq; apply role_requests_about).
    rewrite filter_none; [by rewrite app_nil_r|].
    intros rq Hrq Habout. apply list_elem_of_join in Hrq as (l & Hrq & Hl).
    apply list_elem_of_fmap in Hl as (e' & -> & He').
    apply role_requests_about in Hrq. unfold about_role in *.
    destruct (rq_body rq) as [[p|? ?]|]; try done.
    apply Hfresh. simpl. rewrite <- Habout, Hrq. by apply list_elem_of_fmap_2.
  - rewrite IH by done. rewrite filter_none; [done|].
    intros rq Hrq Habout. apply role_requests_about in Hrq. unfold about_role in *.
    destruct (rq_body rq) as [[p|? ?]|]; try done.
    apply Hfresh. rewrite <- Hrq, Habout.
    by apply (list_elem_of_fmap_2 fst _ (R, enabled)).
Qed.

Lemma filter_about_role_reload R : filter (about_role R) reload_requests = [].
Proof. reflexivity. Qed.

(** C3, as amended.  When the guard of Apply lets the modal through (its
    userId and moduleId are non-zero numbers and its action is set), then for
    every selected role without a permission row for (role, module): with the
    box enabled, the requests about that role are exactly one create request,
    whose body has the toggled action as its only action and empty visible
    and editable fields; with the box disabled, no request is about that
    role. *)
Theorem apply_creates_missing_row {S} `{Backend S} (cur : AppState) (w : World S)
    (m : Z) (a : Action) :
  apply_guard (actionModal cur) m a ->
  creates_for_missing_rows cur w m a.
Proof.
  intros Hg R enabled Hin Hno.
  destruct (applyActionModal_issued cur w m a Hg) as [-> _].
  rewrite filter_app, filter_about_role_reload, app_nil_r.
  rewrite (filter_about_role _ _ _ _ R enabled) by (done || apply NoDup_Object_entries).
  unfold role_requests. simpl.
  assert (permMap (permissions cur) !! perm_key R m = None) as ->
    by (by apply permMap_lookup_None).
  done.
Qed.

Lemma editor_modal_open_eq :
  actionModal editor_modal_open =
    {| am_open := true; am_userId := Some 1; am_moduleId := Some 1;
       am_action := Some Acreate; am_selectedRoles := [(1, false); (1, true)];
       am_userRolesList := [{| r_id := 1; r_name := "Editor" |}] |}.
Proof. vm_compute. reflexivity. Qed.

(** The scenario of the specification: Editor has no row for Invoices, the
    operator ticks Editor for create and applies. *)
Lemma editor_create_scenario :
  creates_for_missing_rows editor_modal_open
    (world_of editor_modal_open editor_store) 1 Acreate.
Proof.
  apply (apply_creates_missing_row editor_modal_open
           (world_of editor_modal_open editor_store) 1 Acreate).
  unfold apply_guard. rewrite editor_modal_open_eq. simpl.
  split; [exists 1; split; [reflexivity|lia]|].
  split; [reflexivity|]. split; [lia|reflexivity].
Defined.

(** C3, as stated, fails for a user (or a module) whose identifier is 0: the
    modal opens and Editor is ticked, there is no row, and yet Apply sends
    nothing. *)
Lemma user_zero_apply_sends_nothing :
  ~ creates_for_missing_rows root_modal_open
      (world_of root_modal_open root_store) 1 Acreate.
Proof.
  intros Hclaim.
  specialize (Hclaim 1 true).
  assert (Hin : (1, true) ∈ Object_entries (am_selectedRoles (actionModal root_modal_open))).
  { vm_compute. apply list_elem_of_here. }
  assert (Hno : no_row (permissions root_modal_open) 1 1).
  { intros p Hp. vm_compute in Hp. inversion Hp. }
  specialize (Hclaim Hin Hno).
  vm_compute in Hclaim. discriminate.
Qed.

(** ** Apply: the update payload *)

Lemma filter_ne_notin (l : list string) a : a ∉ l -> filter (fun x => x ≠ a) l = l.
Proof. intros Hn. apply filter_all. intros x Hx ->. done. Qed.

Lemma newActions_of_toggled perm a enabled :
  toggled_payload perm a enabled (with_actions perm (newActions_of perm a enabled)).
Proof.
  unfold toggled_payload, with_actions, newActions_of, includes. simpl.
  repeat (split; [done|]).
  destruct enabled; case_bool_decide as Hin; simpl.
  - done.
  - split; [|done]. rewrite filter_app, filter_cons_False by (intros Hne; by apply Hne).
    by rewrite filter_nil, app_nil_r.
  - split; [|done]. rewrite list_filter_filter. apply list_filter_iff. tauto.
  - done.
Qed.

Lemma apply_guard_dec am :
  (exists m a, apply_guard am m a) \/ (forall m a, ~ apply_guard am m a).
Proof.
  unfold apply_guard.
  destruct (am_moduleId am) as [m|]; [|right; intros m a (_ & ? & _); done].
  destruct (am_action am) as [a|]; [|right; intros ? ? (_ & _ & _ & ?); done].
  destruct (am_userId am) as [u|]; [|right; intros ? ? ((? & ? & _) & _); done].
  destruct (decide (u = 0)) as [->|Hu].
  { right. intros ? ? ((? & [= <-] & ?) & _). done. }
  destruct (decide (m = 0)) as [->|Hm].
  { right. intros ? ? (_ & [= <-] & ? & _). done. }
  left. exists m, a. eauto 8.
Qed.

(** C4.  Every PUT that Apply issues belongs to a selected role that has a
    row in the permission index: it is addressed to that row's identifier and
    its payload is the row with the toggled action added (box enabled, action
    absent) or removed (box disabled, action present); identifier, role,
    module, both field lists and all other actions, in their order, are those
    of the row.  And when the guard of Apply lets the modal through, the
    requests about each such role are exactly that one PUT. *)
Theorem apply_update_payload {S} `{Backend S} (cur : AppState) (w : World S) :
  (forall rq, rq ∈ issued (applyActionModal cur) w -> rq_method rq = PUT ->
     exists R enabled perm m a payload,
       (R, enabled) ∈ Object_entries (am_selectedRoles (actionModal cur))
       /\ am_moduleId (actionModal cur) = Some m
       /\ am_action (actionModal cur) = Some a
       /\ permMap (permissions cur) !! perm_key R m = Some perm
       /\ rq = update_request (p_id perm) payload
       /\ toggled_payload perm (action_name a) enabled payload)
  /\ (forall m a, apply_guard (actionModal cur) m a ->
      forall R enabled perm,
        (R, enabled) ∈ Object_entries (am_selectedRoles (actionModal cur)) ->
        permMap (permissions cur) !! perm_key R m = Some perm ->
        exists payload,
          filter (about_role R) (issued (applyActionModal cur) w)
            = [update_request (p_id perm) payload]
          /\ toggled_payload perm (action_name a) enabled payload).
Proof.
  split.
  - intros rq Hin Hput.
    destruct (apply_guard_dec (actionModal cur)) as [(m & a & Hg)|Hng].
    + destruct (applyActionModal_issued cur w m a Hg) as [Heq _].
      rewrite Heq in Hin. apply elem_of_app in Hin as [Hin|Hin].
      * apply list_elem_of_join in Hin as (l & Hrq & Hl).
        apply list_elem_of_fmap in Hl as ([R enabled] & -> & He).
        unfold role_requests in Hrq. simpl in Hrq.
        destruct (permMap (permissions cur) !! perm_key R m) as [perm|] eqn:Hl.
        -- apply list_elem_of_singleton in Hrq as ->.
           destruct Hg as (_ & Hm & _ & Ha).
           exists R, enabled, perm, m, a. eexists.
           repeat (split; [done|]). apply newActions_of_toggled.
        -- destruct enabled; [|by inversion Hrq].
           apply list_elem_of_singleton in Hrq as ->. done.
      * unfold reload_requests in Hin.
        repeat (apply elem_of_cons in Hin as [->|Hin]; [done|]). by inversion Hin.
    + unfold issued in Hin. rewrite (applyActionModal_blocked cur w Hng) in Hin.
      simpl in Hin. rewrite drop_all in Hin. by inversion Hin.
  - intros m a Hg R enabled perm Hin Hl.
    destruct (applyActionModal_issued cur w m a Hg) as [-> _].
    rewrite filter_app, filter_about_role_reload, app_nil_r.
    rewrite (filter_about_role _ _ _ _ R enabled) by (done || apply NoDup_Object_entries).
    unfold role_requests. simpl. rewrite Hl.
    eexists. split; [done|]. apply newActions_of_toggled.
Qed.

Lemma reader_modal_open_eq :
  actionModal reader_modal_open =
    {| am_open := true; am_userId := Some 1; am_moduleId := Some 1;
       am_action := Some Aupdate; am_selectedRoles := [(1, true); (1, false)];
       am_userRolesList := [{| r_id := 1; r_name := "Editor" |}] |}.
Proof. vm_compute. reflexivity. Qed.

(** Editor loses update on Invoices: one PUT to row 10, whose payload keeps
    read and both field lists. *)
Lemma editor_update_scenario :
  exists payload,
    filter (about_role 1)
      (issued (applyActionModal reader_modal_open)
              (world_of reader_modal_open reader_store))
      = [update_request (Some 10) payload]
    /\ toggled_payload reader_row "update" false payload.
Proof.
  refine (proj2 (apply_update_payload reader_modal_open
                   (world_of reader_modal_open reader_store))
            1 Aupdate _ 1 false reader_row _ _).
  - unfold apply_guard. rewrite reader_modal_open_eq. simpl.
    split; [exists 1; split; [reflexivity|lia]|].
    split; [reflexivity|]. split; [lia|reflexivity].
  - vm_compute. apply list_elem_of_here.
  - vm_compute. reflexivity.
Defined.

Example reader_update_payload :
  issued (applyActionModal reader_modal_open) (world_of reader_modal_open reader_store)
  = update_request (Some 10)
      {| p_id := Some 10; p_roleId := 1; p_moduleId := 1; p_actions := ["read"];
         p_visibleFields := Some ["amount"; "date"];
         p_editableFields := Some ["amount"] |}
    :: reload_requests.
Proof. vm_compute. reflexivity. Qed.

(** ** The field editor *)

Lemma find_first_split {A} (P : A -> Prop) `{forall x, Decision (P x)} l1 x l2 :
  (forall y, y ∈ l1 -> ~ P y) -> P x -> find_first P (l1 ++ x :: l2) = Some x.
Proof.
  intros Hl1 Hx. unfold find_first.
  rewrite filter_app, (filter_none P l1 Hl1), filter_cons_True by done. done.
Qed.

Lemma find_first_None {A} (P : A -> Prop) `{forall x, Decision (P x)} l :
  (forall y, y ∈ l -> ~ P y) -> find_first P l = None.
Proof. intros Hl. unfold find_first. by rewrite (filter_none P l Hl). Qed.

Section Editor.
Context {S : Type} `{Backend S}.

Lemma normalize_fields_run f (w : World S) :
  normalize_fields f w =
    (Returned
       match f with
       | FieldsArray l => JArray (JString <$> l)
       | _ => default (JArray []) (Json.parse (fields_text f))
       end, w).
Proof.
  destruct f as [l|s|]; unfold normalize_fields.
  - reflexivity.
  - unfold try_catch, JSON_parse, ret, throw.
    destruct (Json.parse (fields_text (FieldsString s))); reflexivity.
  - unfold try_catch, JSON_parse, ret, throw.
    destruct (Json.parse (fields_text FieldsMissing)); reflexivity.
Qed.

Lemma openFieldsEditor_found cur U moduleObj (w : World S) l1 rel l2 :
  userRoles cur = l1 ++ rel :: l2 ->
  (forall ur, ur ∈ l1 -> ur_userId ur <> U) -> ur_userId rel = U ->
  exists allFields,
    openFieldsEditor cur U moduleObj w =
      (Returned tt,
       {| react := with_fieldsModal (react w) (opened_editor cur rel moduleObj allFields);
          server := server w; sent := sent w; console := console w;
          alerts := alerts w |}).
Proof.
  intros Hsplit Hl1 Hrel. unfold openFieldsEditor.
  rewrite Hsplit, (find_first_split _ _ _ _ Hl1 Hrel).
  unfold bind. rewrite normalize_fields_run. eexists. reflexivity.
Qed.

Lemma openFieldsEditor_none cur U moduleObj (w : World S) :
  (forall ur, ur ∈ userRoles cur -> ur_userId ur <> U) ->
  openFieldsEditor cur U moduleObj w =
    (Returned tt,
     {| react := react w; server := server w; sent := sent w; console := console w;
        alerts := alerts w
          ++ ["Assign a role to the user first to edit fields for that role/module."] |}).
Proof.
  intros Hno. unfold openFieldsEditor. by rewrite (find_first_None _ _ Hno).
Qed.

Lemma sent_fetch {T} rq (ep : S -> Outcome T * S) (w : World S) :
  sent (snd (fetch rq ep w)) = sent w ++ [rq].
Proof. unfold fetch. destruct (ep (server w)) as [[|ok j] s']; reflexivity. Qed.

(** Save, once past its guard: the request it sends first. *)
Lemma saveFieldsModal_first cur (w : World S) m r :
  save_guard (fieldsModal cur) m r ->
  head (issued (saveFieldsModal cur) w) =
    Some match find_first (row_of r m) (permissions cur) with
         | Some existing =>
             update_request (p_id existing)
               (with_fields existing (fm_visibleFields (fieldsModal cur))
                  (fm_editableFields (fieldsModal cur)))
         | None => create_request (fields_payload (fieldsModal cur) r m)
         end.
Proof.
  intros (Hm & Hm0 & Hr & Hr0).
  assert (exists rest, sent (snd (saveFieldsModal cur w)) = sent w ++
     match find_first (row_of r m) (permissions cur) with
     | Some existing =>
         update_request (p_id existing)
           (with_fields existing (fm_visibleFields (fieldsModal cur))
              (fm_editableFields (fieldsModal cur)))
     | None => create_request (fields_payload (fieldsModal cur) r m)
     end :: rest) as [rest Hs].
  { destruct (saveFieldsModal cur w) as [res w'] eqn:E. simpl.
    unfold saveFieldsModal in E. rewrite Hm, Hr in E. simpl in E.
    assert (negb (m =? 0) && negb (r =? 0) = true) as Hg.
    { apply andb_true_iff. split; apply negb_true_iff, Z.eqb_neq; done. }
    rewrite Hg in E.
    unfold bind, fetch, ret, setFieldsModal, set_react in E.
    destruct (find_first (row_of r m) (permissions cur)) as [existing|].
    - destruct (put_permissions _ _ (server w)) as [[|ok j] s1]; simpl in E.
      + inversion E; subst. simpl. eauto.
      + match type of E with context [loadAll ?w1] =>
          destruct (loadAll_run w1) as (Hs2 & _);
          destruct (loadAll w1) as [[[]|e] w2] end;
          simpl in *; inversion E; subst; simpl;
          rewrite Hs2, <- app_assoc; eauto.
    - unfold fields_payload.
      destruct (post_permissions _ (server w)) as [[|ok j] s1]; simpl in E.
      + inversion E; subst. simpl. eauto.
      + match type of E with context [loadAll ?w1] =>
          destruct (loadAll_run w1) as (Hs2 & _);
          destruct (loadAll w1) as [[[]|e] w2] end;
          simpl in *; inversion E; subst; simpl;
          rewrite Hs2, <- app_assoc; eauto. }
  by rewrite (issued_app _ _ _ Hs).
Qed.

End Editor.

(** C7, as amended.  Open takes the role of the first user-role record of
    the user, whatever the module, and only shows the notice when the user
    has none.  Save, when the editor's moduleId and roleId are non-zero
    numbers, first sends the update of the first record of (role, module),
    with the editor's field lists and the record's own actions, or, when
    there is no such record, the creation of one with no actions. *)
Theorem fields_editor_spec {S} `{Backend S} (cur : AppState) (w : World S) :
  (forall U moduleObj l1 rel l2,
     userRoles cur = l1 ++ rel :: l2 ->
     (forall ur, ur ∈ l1 -> ur_userId ur <> U) -> ur_userId rel = U ->
     let w' := snd (openFieldsEditor cur U moduleObj w) in
     fm_roleId (fieldsModal (react w')) = Some (ur_roleId rel)
     /\ fm_moduleId (fieldsModal (react w')) = Some (m_id moduleObj)
     /\ fm_open (fieldsModal (react w')) = true
     /\ alerts w' = alerts w /\ sent w' = sent w)
  /\ (forall U moduleObj,
      (forall ur, ur ∈ userRoles cur -> ur_userId ur <> U) ->
      let w' := snd (openFieldsEditor cur U moduleObj w) in
      alerts w'
        = alerts w
            ++ ["Assign a role to the user first to edit fields for that role/module."]
      /\ react w' = react w /\ sent w' = sent w)
  /\ (forall m r, save_guard (fieldsModal cur) m r ->
      save_updates_or_creates cur w m r).
Proof.
  split; [|split].
  - intros U moduleObj l1 rel l2 Hsplit Hl1 Hrel.
    destruct (openFieldsEditor_found cur U moduleObj w l1 rel l2 Hsplit Hl1 Hrel)
      as [allFields ->]. done.
  - intros U moduleObj Hno. by rewrite (openFieldsEditor_none cur U moduleObj w Hno).
  - intros m r Hg. split.
    + intros l1 existing l2 Hsplit Hl1 Hex.
      rewrite (saveFieldsModal_first cur w m r Hg), Hsplit.
      rewrite (find_first_split (row_of r m) l1 existing l2 Hl1 Hex).
      destruct Hex as [HR HM]. eexists. split; [done|]. simpl. done.
    + intros Hno.
      rewrite (saveFieldsModal_first cur w m r Hg).
      by rewrite (find_first_None (row_of r m) _ Hno).
Qed.

Lemma reader_editor_open_eq :
  fieldsModal reader_editor_open =
    {| fm_open := true; fm_permId := Some 10; fm_moduleId := Some 1;
       fm_roleId := Some 1; fm_visibleFields := ["amount"];
       fm_editableFields := ["amount"];
       fm_allFields := JArray [JString "amount"; JString "date"] |}.
Proof. vm_compute. reflexivity. Qed.

Lemma editor_save_scenario :
  save_updates_or_creates reader_editor_open
    (world_of reader_editor_open reader_store) 1 1.
Proof.
  refine (proj2 (proj2 (fields_editor_spec reader_editor_open
                          (world_of reader_editor_open reader_store))) 1 1 _).
  unfold save_guard. rewrite reader_editor_open_eq. simpl.
  split; [reflexivity|]. split; [lia|]. split; [reflexivity|lia].
Defined.

(** C7, as stated, fails for a role (or a module) whose identifier is 0:
    U1's only role is role 0, which has a record for Invoices; the editor
    opens on it, and Save sends nothing. *)
Lemma role_zero_save_sends_nothing :
  fm_roleId (fieldsModal zero_role_editor_open) = Some 0
  /\ fm_moduleId (fieldsModal zero_role_editor_open) = Some 1
  /\ ~ save_updates_or_creates zero_role_editor_open
         (world_of zero_role_editor_open zero_role_store) 1 0.
Proof.
  split; [vm_compute; reflexivity|]. split; [vm_compute; reflexivity|].
  intros [Hupd _].
  destruct (Hupd [] zero_role_row []) as (payload & Hhead & _).
  - vm_compute. reflexivity.
  - intros p Hp. inversion Hp.
  - split; reflexivity.
  - vm_compute in Hhead. discriminate.
Qed.

(** ** [JSON.parse] never runs out of fuel *)

Module JsonFacts.
Import Json.

Local Open Scope nat_scope.

Lemma skip_ws_length s : String.length (skip_ws s) <= String.length s.
Proof.
  induction s as [|c s IH]; simpl; [lia|]. destruct (is_ws c); simpl; lia.
Qed.

Lemma expect_length lit : forall s r,
  expect lit s = Some r -> String.length r <= String.length s.
Proof.
  induction lit as [|c lit IH]; intros s r; simpl.
  - intros [= ->]. lia.
  - destruct s as [|d s]; [done|]. destruct (c =? d)%char; [|done].
    intros Hr. apply IH in Hr. simpl. lia.
Qed.

Lemma take_digits_length s : String.length (snd (take_digits s)) <= String.length s.
Proof.
  induction s as [|c s IH]; simpl; [lia|].
  destruct (is_digit c); simpl; [|lia].
  destruct (take_digits s) as [ds r]. simpl in *. lia.
Qed.

Lemma parse_int_length s i r :
  parse_int s = Some (i, r) -> String.length r < String.length s.
Proof.
  unfold parse_int. destruct s as [|c s]; [done|].
  destruct (c =? "0")%char; [intros [= _ <-]; simpl; lia|].
  destruct (is_digit19 c); [|done].
  pose proof (take_digits_length s). destruct (take_digits s) as [ds r'].
  intros [= _ <-]. simpl in *. lia.
Qed.

Lemma parse_frac_length s f r :
  parse_frac s = Some (f, r) -> String.length r <= String.length s.
Proof.
  unfold parse_frac. destruct s as [|c s]; [intros [= _ <-]; lia|].
  pose proof (take_digits_length s).
  destruct (take_digits s) as [ds r'] eqn:E. simpl in *.
  repeat case_match; intros [= _ <-]; simplify_eq/=; lia.
Qed.

Lemma parse_exp_digits_length mark s e r :
  parse_exp_digits mark s = Some (e, r) -> String.length r <= String.length s.
Proof.
  unfold parse_exp_digits. pose proof (take_digits_length s).
  destruct (take_digits s) as [[|d ds] r']; [done|]. intros [= _ <-]. simpl in *. lia.
Qed.

Lemma parse_exp_length s e r :
  parse_exp s = Some (e, r) -> String.length r <= String.length s.
Proof.
  unfold parse_exp. destruct s as [|c s]; [intros [= _ <-]; lia|].
  destruct ((c =? "e")%char || (c =? "E")%char); [|intros [= _ <-]; lia].
  destruct s as [|d s]; [intros Hd; apply parse_exp_digits_length in Hd; simpl in *; lia|].
  repeat case_match; intros Hd; apply parse_exp_digits_length in Hd; simpl in *; lia.
Qed.

Lemma parse_number_length s v r :
  parse_number s = POk v r -> String.length r < String.length s.
Proof.
  unfold parse_number.
  assert (exists sign s1,
    match s with
    | String "-" r => (true, r)
    | _ => (false, s)
    end = (sign, s1) /\ String.length s1 <= String.length s)
    as (sign & s1 & -> & Hlen).
  { repeat case_match; simplify_eq; eexists _, _; (split; [reflexivity|]); simpl; lia. }
  destruct (parse_int s1) as [[i s2]|] eqn:E1; [|done].
  apply parse_int_length in E1.
  destruct (parse_frac s2) as [[f s3]|] eqn:E2; [|done].
  apply parse_frac_length in E2.
  destruct (parse_exp s3) as [[e s4]|] eqn:E3; [|done].
  apply parse_exp_length in E3. intros [= _ <-]. lia.
Qed.

Lemma expect_shorter lit s r :
  lit <> EmptyString -> expect lit s = Some r -> String.length r < String.length s.
Proof.
  destruct lit as [|c lit]; [done|]. intros _. simpl.
  destruct s as [|d s]; [done|]. destruct (c =? d)%char; [|done].
  intros Hr. apply expect_length in Hr. simpl. lia.
Qed.

Lemma consumes_mono {A} (s s' : string) (res : ParseResult A) :
  consumes s' res -> String.length s' <= String.length s -> consumes s res.
Proof. destruct res; simpl; [lia|done|done]. Qed.

Lemma consumes_map_ok {A B} (f : A -> B) s res :
  consumes s res -> consumes s (map_ok f res).
Proof. by destruct res. Qed.

Lemma parse_number_consumes s : consumes s (parse_number s).
Proof.
  destruct (parse_number s) as [v r| |] eqn:E; simpl; [|done|].
  - by apply parse_number_length in E.
  - unfold parse_number in E. repeat case_match; done.
Qed.

Lemma low_surrogate_escape_None s :
  (String.length s < 6) -> low_surrogate_escape s = None.
Proof.
  do 6 (destruct s as [|? s]; [done|]). simpl. lia.
Qed.

Lemma parse_chars_consumes_lt n : forall s,
  String.length s < n -> consumes s (parse_chars s).
Proof.
  induction n as [|n IH]; intros s Hlen; [lia|].
  destruct s as [|c r]; [done|]. simpl in Hlen. simpl.
  destruct (c =? dquote)%char; [simpl; lia|].
  destruct (c =? "\")%char.
  - destruct r as [|e r1]; [done|]. simpl in Hlen.
    destruct (e =? "u")%char.
    + destruct r1 as [|h1 [|h2 [|h3 [|h4 r2]]]]; try done. simpl in Hlen.
      destruct (hex4 h1 h2 h3 h4) as [cp|]; [|done].
      assert (consumes (String c (String e (String h1 (String h2 (String h3
                (String h4 r2)))))) (map_ok (String.append (utf8 cp)) (parse_chars r2)))
        as Hsingle.
      { apply consumes_map_ok. eapply consumes_mono; [apply IH; lia|simpl; lia]. }
      destruct r2 as [|b [|u [|l1 [|l2 [|l3 [|l4 r3]]]]]]; try exact Hsingle.
      destruct (if is_high_surrogate cp then _ else None) as [[lo ?]|];
        [|exact Hsingle].
      apply consumes_map_ok. eapply consumes_mono; [apply IH; simpl in *; lia|simpl; lia].
    + destruct (simple_escape e); [|done].
      apply consumes_map_ok. eapply consumes_mono; [apply IH; lia|simpl; lia].
  - destruct (N_of_ascii c <? 32)%N; [done|].
    apply consumes_map_ok. eapply consumes_mono; [apply IH; lia|simpl; lia].
Qed.

Lemma parse_chars_consumes s : consumes s (parse_chars s).
Proof. apply (parse_chars_consumes_lt (Datatypes.S (String.length s))). lia. Qed.

Local Arguments expect : simpl never.
Local Arguments parse_number : simpl never.
Local Arguments parse_chars : simpl never.
Local Arguments skip_ws : simpl never.

(** With fuel above twice the length of the text, the three parsers do not
    run out of it, and a successful parse consumes a character. *)
Lemma parsers_consume n :
  (forall s, 2 * String.length s + 1 <= n -> consumes s (parse_value n s))
  /\ (forall s, 2 * String.length s + 2 <= n -> consumes s (parse_elements n s))
  /\ (forall s, 2 * String.length s + 2 <= n -> consumes s (parse_members n s)).
Proof.
  induction n as [|n (IHv & IHe & IHm)]; [repeat split; intros s Hn; lia|].
  split; [|split]; intros s Hn; simpl.
  - pose proof (skip_ws_length s) as Hws.
    destruct (skip_ws s) as [|c r] eqn:Es; [done|]. simpl in Hws.
    destruct (c =? "n")%char.
    { destruct (expect "ull" r) as [r'|] eqn:E; [|done]. apply expect_length in E.
      simpl. lia. }
    destruct (c =? "t")%char.
    { destruct (expect "rue" r) as [r'|] eqn:E; [|done]. apply expect_length in E.
      simpl. lia. }
    destruct (c =? "f")%char.
    { destruct (expect "alse" r) as [r'|] eqn:E; [|done]. apply expect_length in E.
      simpl. lia. }
    destruct (c =? dquote)%char.
    { apply consumes_map_ok. eapply consumes_mono; [apply parse_chars_consumes|lia]. }
    pose proof (skip_ws_length r) as Hwr.
    destruct (c =? "[")%char.
    { destruct (expect "]" (skip_ws r)) as [rest|] eqn:E.
      - apply expect_length in E. simpl. lia.
      - apply consumes_map_ok. eapply consumes_mono; [apply IHe; lia|lia]. }
    destruct (c =? "{")%char.
    { destruct (expect "}" (skip_ws r)) as [rest|] eqn:E.
      - apply expect_length in E. simpl. lia.
      - apply consumes_map_ok. eapply consumes_mono; [apply IHm; lia|lia]. }
    destruct ((c =? "-")%char || is_digit c); [|done].
    eapply consumes_mono; [apply parse_number_consumes|simpl; lia].
  - assert (2 * String.length s + 1 <= n) as Hv by lia.
    specialize (IHv s Hv).
    destruct (parse_value n s) as [v rest| |]; [|done|done]. simpl in IHv.
    pose proof (skip_ws_length rest) as Hws.
    destruct (expect "]" (skip_ws rest)) as [rest'|] eqn:E1.
    { apply expect_length in E1. simpl. lia. }
    destruct (expect "," (skip_ws rest)) as [rest'|] eqn:E2; [|done].
    apply expect_shorter in E2; [|done].
    apply consumes_map_ok. eapply consumes_mono; [apply IHe; lia|lia].
  - pose proof (skip_ws_length s) as Hws.
    destruct (expect (String dquote EmptyString) (skip_ws s)) as [r|] eqn:E0; [|done].
    apply expect_shorter in E0; [|done].
    pose proof (parse_chars_consumes r) as Hk.
    destruct (parse_chars r) as [k rest| |]; [|done|done]. simpl in Hk.
    pose proof (skip_ws_length rest) as Hws1.
    destruct (expect ":" (skip_ws rest)) as [rest1|] eqn:E1; [|done].
    apply expect_shorter in E1; [|done].
    assert (2 * String.length rest1 + 1 <= n) as Hv by lia.
    specialize (IHv rest1 Hv).
    destruct (parse_value n rest1) as [v rest2| |]; [|done|done]. simpl in IHv.
    pose proof (skip_ws_length rest2) as Hws2.
    destruct (expect "}" (skip_ws rest2)) as [rest'|] eqn:E2.
    { apply expect_length in E2. simpl. lia. }
    destruct (expect "," (skip_ws rest2)) as [rest'|] eqn:E3; [|done].
    apply expect_shorter in E3; [|done].
    apply consumes_map_ok. eapply consumes_mono; [apply IHm; lia|lia].
Qed.

(** [JSON.parse] is total: the parse of a text settles with the fuel it is
    given. *)
Lemma parse_total (text : string) :
  parse_value (fuel_for text) text <> PFuel.
Proof.
  pose proof (proj1 (parsers_consume (fuel_for text)) text) as Hc.
  unfold fuel_for in *. intros E. rewrite E in Hc. apply Hc. lia.
Qed.

End JsonFacts.

(** ** [JSON.parse] on sample texts *)

Example parse_fields : Json.parse fields_json = Some (JArray [JString "amount"; JString "date"]).
Proof. vm_compute. reflexivity. Qed.

Example parse_object :
  Json.parse object_json = Some (JObject [("fields", JArray [JString "amount"])]).
Proof. vm_compute. reflexivity. Qed.

Example parse_mixed :
  Json.parse (" {" +:+ quoted "k" +:+ " : [1, -2.5e+3, true, null, 0.5E-7], "
              +:+ quoted "x" +:+ ":{}} ")
  = Some (JObject [("k", JArray [JNumber (S754_finite false 4503599627370496 (-52));
                                 JNumber (S754_finite true 5497558138880000 (-41));
                                 JBool true; JNull;
                                 JNumber (S754_finite false 7555786372591432 (-77))]);
                   ("x", JObject [])]).
Proof. vm_compute. reflexivity. Qed.

(** Numbers are doubles: different literals of one value parse alike, a
    literal is rounded to the nearest double, and the format's range is
    respected. *)
Example parse_numbers :
  Json.parse "1" = Some (JNumber (S754_finite false 4503599627370496 (-52)))
  /\ Json.parse "1.0" = Json.parse "1" /\ Json.parse "10e-1" = Json.parse "1"
  /\ Json.parse "0.1" = Some (JNumber (S754_finite false 7205759403792794 (-56)))
  /\ Json.parse "9007199254740993" = Json.parse "9007199254740992"
  /\ Json.parse "1e400" = Some (JNumber (S754_infinity false))
  /\ Json.parse "-1e-400" = Some (JNumber (S754_zero true))
  /\ Json.parse "-0" = Some (JNumber (S754_zero true))
  /\ Json.parse "5e-324" = Some (JNumber (S754_finite false 1 (-1074))).
Proof. repeat split; vm_compute; reflexivity. Qed.

(** An object holds one member per name: a repeated name keeps its place and
    takes the last value, and array indices come first. *)
Example parse_repeated_names :
  Json.parse ("{" +:+ quoted "b" +:+ ":1," +:+ quoted "2" +:+ ":2,"
              +:+ quoted "1" +:+ ":3," +:+ quoted "b" +:+ ":4,"
              +:+ quoted "01" +:+ ":null}")
  = Some (JObject [("1", JNumber (S754_finite false 6755399441055744 (-51)));
                   ("2", JNumber (S754_finite false 4503599627370496 (-51)));
                   ("b", JNumber (S754_finite false 4503599627370496 (-50)));
                   ("01", JNull)]).
Proof. vm_compute. reflexivity. Qed.

Example parse_nested : Json.parse "[[[[]]], [ ]]" = Some (JArray [JArray [JArray [JArray []]]; JArray []]).
Proof. vm_compute. reflexivity. Qed.

Example parse_escapes :
  Json.parse (quoted "a\nA\/")
  = Some (JString (String "a" (String "010" (String "A" (String "/" EmptyString))))).
Proof. vm_compute. reflexivity. Qed.

Example parse_surrogates :
  Json.parse (quoted "\ud83d\ude00\u00e9\u20AC")
  = Some (JString (String "240" (String "159" (String "152" (String "128"
           (String "195" (String "169"
           (String "226" (String "130" (String "172" EmptyString)))))))))).
Proof. vm_compute. reflexivity. Qed.

Example parse_rejects :
  Forall (fun text => Json.parse text = None)
    [EmptyString; "[1,]"; "01"; "[1 2]"; "nul"; "{" +:+ quoted "a" +:+ ":1,}";
     "amount,date"; "[" +:+ quoted "a"; quoted "a\x"; "1."; "-"; "[] []"; "+1";
     String Json.dquote (String "009" (String Json.dquote EmptyString));
     quoted "\ud83"; quoted "\"].
Proof. repeat constructor. Qed.

Example parse_scalars :
  Json.parse " null " = Some JNull /\ Json.parse "42" = Some (JNumber (S754_finite false 5910974510923776 (-47)))
  /\ Json.parse "false" = Some (JBool false)
  /\ Json.parse (quoted "amount,date") = Some (JString "amount,date").
Proof. repeat split; vm_compute; reflexivity. Qed.

(** ** Normalizing the field list *)

(** X21.  What the [// normalize module fields] block computes.  It never
    signals anything (the world is left as it was) and yields: for an input
    that is already an array, that array; for a non-empty string, the value
    [JSON.parse] gives for it, and the empty array when the parse fails; for
    a missing or empty field list, the empty array.  The result for a
    non-empty string is therefore an array of strings exactly when the parse
    fails or the text encodes one. *)
Lemma normalize_fields_cases {S} `{Backend S} (w : World S) :
  (forall l, normalize_fields (FieldsArray l) w = (Returned (JArray (JString <$> l)), w))
  /\ (forall s j, s <> EmptyString -> Json.parse s = Some j ->
      normalize_fields (FieldsString s) w = (Returned j, w))
  /\ (forall s, Json.parse s = None ->
      normalize_fields (FieldsString s) w = (Returned (JArray []), w))
  /\ normalize_fields FieldsMissing w = (Returned (JArray []), w)
  /\ (forall s v, s <> EmptyString ->
      normalize_fields (FieldsString s) w = (Returned v, w) ->
      is_string_seq v <->
        Json.parse s = None
        \/ exists l, Json.parse s = Some (JArray (JString <$> l))).
Proof.
  assert (Hne : forall s, s <> EmptyString -> fields_text (FieldsString s) = s).
  { intros s Hs. unfold fields_text. by rewrite bool_decide_eq_false_2. }
  assert (Hempty : Json.parse "[]" = Some (JArray [])) by (vm_compute; reflexivity).
  split; [|split; [|split; [|split]]].
  - intros l. by rewrite normalize_fields_run.
  - intros s j Hs Hj. rewrite normalize_fields_run, (Hne s Hs), Hj. done.
  - intros s Hnone. rewrite normalize_fields_run.
    destruct (decide (s = EmptyString)) as [->|Hs].
    + unfold fields_text. rewrite bool_decide_eq_true_2 by done. by rewrite Hempty.
    + by rewrite (Hne s Hs), Hnone.
  - rewrite normalize_fields_run. unfold fields_text. by rewrite Hempty.
  - intros s v Hs. rewrite normalize_fields_run, (Hne s Hs). intros [= <-].
    destruct (Json.parse s) as [j|]; simpl.
    + split.
      * intros [l ->]. right. by exists l.
      * intros [?|[l [= ->]]]; [done|]. by exists l.
    + split; [by left|]. intros _. by exists [].
Qed.

Lemma normalize_samples :
  normalize_fields (S:=Store) (FieldsString fields_json) (world_of initial_state no_store)
    = (Returned (JArray [JString "amount"; JString "date"]),
       world_of initial_state no_store)
  /\ normalize_fields (S:=Store) (FieldsString "amount,date")
       (world_of initial_state no_store)
     = (Returned (JArray []), world_of initial_state no_store).
Proof.
  destruct (normalize_fields_cases (S:=Store) (world_of initial_state no_store))
    as (_ & Hsome & Hnone & _).
  split.
  - apply Hsome; [discriminate|vm_compute; reflexivity].
  - apply Hnone. vm_compute. reflexivity.
Defined.

(** The editor renders exactly when [allFields] is an array, and then with
    one box per entry, in order, for each of the two lists. *)
Lemma render_fieldsModal_open fm :
  fm_open fm = true ->
  match fm_allFields fm with
  | JArray items =>
      exists query update,
        render_fieldsModal fm = Returned (Some (query, update))
        /\ fb_field <$> query = items /\ fb_field <$> update = items
  | _ => render_fieldsModal fm = Threw TypeError
  end.
Proof.
  intros Hopen. unfold render_fieldsModal. rewrite Hopen.
  destruct (fm_allFields fm) as [| | | |items|]; try reflexivity.
  cbn [Array_map]. eexists _, _. split; [reflexivity|].
  rewrite <- !list_fmap_compose. split; apply list_fmap_id.
Qed.

(** C8 at its failing input.  The module's field list arrives as the text
    [{"fields": ["amount"]}], which is JSON but not an array.  Normalizing
    does not yield a sequence of field names: the parsed object itself
    becomes the field list, silently, and [openFieldsEditor] opens the editor
    on it.  Rendering the open editor then calls [map] on the object and
    throws. *)
Theorem object_text_breaks_editor :
  let w := world_of reader_state reader_store in
  let w1 := snd (openFieldsEditor reader_state 1 wrapped_invoices w) in
  normalize_fields (FieldsString object_json) w
    = (Returned (JObject [("fields", JArray [JString "amount"])]), w)
  /\ fst (openFieldsEditor reader_state 1 wrapped_invoices w) = Returned tt
  /\ fm_open (fieldsModal (react w1)) = true
  /\ fm_allFields (fieldsModal (react w1))
     = JObject [("fields", JArray [JString "amount"])]
  /\ alerts w1 = [] /\ console w1 = []
  /\ render_fieldsModal (fieldsModal (react w1)) = Threw TypeError.
Proof. vm_compute. repeat split. Qed.

(** With the same fields sent as an array, or as the text of an array, the
    editor renders its boxes. *)
Example array_text_renders :
  let boxes :=
    Some ([{| fb_field := JString "amount"; fb_checked := true |};
           {| fb_field := JString "date"; fb_checked := true |}],
          [{| fb_field := JString "amount"; fb_checked := true |};
           {| fb_field := JString "date"; fb_checked := false |}]) in
  let text_invoices :=
    {| m_id := 1; m_name := "Invoices"; m_fields := FieldsString fields_json |} in
  let w := world_of reader_state reader_store in
  render_fieldsModal (fieldsModal (react (snd (openFieldsEditor reader_state 1 invoices w))))
    = Returned boxes
  /\ render_fieldsModal
       (fieldsModal (react (snd (openFieldsEditor reader_state 1 text_invoices w))))
     = Returned boxes
  /\ render_fieldsModal (fieldsModal reader_state) = Returned None.
Proof. vm_compute. repeat split. Qed.

(** ** Rejected requests *)

(** In Apply a rejected request is caught and logged, and the reload
    follows: here the PUT for Editor is dropped. *)
Example apply_rejected_is_logged :
  let '(res, w') :=
    applyActionModal reader_modal_open
      (dropped_world reader_modal_open reader_store [true]) in
  res = Returned tt
  /\ console w' = [NetworkError]
  /\ sent w' = update_request (Some 10) (with_actions reader_row ["read"])
               :: reload_requests
  /\ am_open (actionModal (react w')) = false
  /\ permissions (react w') = [reader_row].
Proof. vm_compute. repeat split. Qed.

(** C6 at its failing input.  The field editor is open on Editor's record
    for Invoices and the network drops the PUT of Save: the rejection leaves
    [saveFieldsModal] as an exception, nothing is logged, no reload request
    follows the PUT, and the React state, with the editor still open, is what
    it was. *)
Theorem save_rejected_escapes :
  saveFieldsModal reader_editor_open
    (dropped_world reader_editor_open reader_store [true])
  = (Threw NetworkError,
     {| react := reader_editor_open;
        server := {| script := []; inner := reader_store |};
        sent := [update_request (Some 10) (with_fields reader_row ["amount"] ["amount"])];
        console := []; alerts := [] |})
  /\ fm_open (fieldsModal reader_editor_open) = true.
Proof. vm_compute. split; reflexivity. Qed.

(** The same holds whatever the backend: past the guard, a rejected first
    request ends Save there. *)
Lemma saveFieldsModal_rejected {S} `{Backend S} cur (w : World S) m r existing :
  save_guard (fieldsModal cur) m r ->
  find_first (row_of r m) (permissions cur) = Some existing ->
  fst (put_permissions (show_id (p_id existing))
         (with_fields existing (fm_visibleFields (fieldsModal cur))
            (fm_editableFields (fieldsModal cur))) (server w)) = Rejected ->
  fst (saveFieldsModal cur w) = Threw NetworkError
  /\ length (issued (saveFieldsModal cur) w) = 1%nat
  /\ react (snd (saveFieldsModal cur w)) = react w
  /\ console (snd (saveFieldsModal cur w)) = console w.
Proof.
  intros (Hm & Hm0 & Hr & Hr0) Hfind Hrej.
  unfold issued.
  destruct (saveFieldsModal cur w) as [res w'] eqn:E. simpl.
  unfold saveFieldsModal in E. rewrite Hm, Hr in E. simpl in E.
  assert (negb (m =? 0) && negb (r =? 0) = true) as Hg.
  { apply andb_true_iff. split; apply negb_true_iff, Z.eqb_neq; done. }
  rewrite Hg in E.
  rewrite Hfind in E. unfold bind, fetch in E.
  destruct (put_permissions _ _ (server w)) as [o s1]. simpl in Hrej. subst o.
  inversion E; subst. simpl. rewrite drop_app_length. done.
Qed.

(** The role-assignment toggle has the same shape: a dropped DELETE leaves
    it as an exception before the local update and the reload. *)
Example toggle_rejected_escapes :
  toggleRoleForUser reader_state 1 1 (dropped_world reader_state reader_store [true])
  = (Threw NetworkError,
     {| react := reader_state;
        server := {| script := []; inner := reader_store |};
        sent := [{| rq_method := DELETE; rq_url := urlAPi +:+ "/api/userRole/1";
                    rq_body := None |}];
        console := []; alerts := [] |}).
Proof. vm_compute. reflexivity. Qed.

(** Without a failure Save reloads and closes the editor. *)
Example save_accepted_reloads :
  let '(res, w') :=
    saveFieldsModal reader_editor_open (world_of reader_editor_open reader_store) in
  res = Returned tt
  /\ sent w' = update_request (Some 10) (with_fields reader_row ["amount"] ["amount"])
               :: reload_requests
  /\ fm_open (fieldsModal (react w')) = false
  /\ permissions (react w') = [with_fields reader_row ["amount"] ["amount"]].
Proof. vm_compute. repeat split. Qed.

(** ** Apply twice *)

Lemma pretty_ne_undefined (i : Z) : pretty i ≠ "undefined".
Proof.
  intros E. pose proof (pretty_Z_numeral i) as Hn. rewrite E in Hn.
  inversion Hn as [ds Hd _|ds Hd _ Heq]; simpl in *; done.
Qed.

Lemma put_undefined body (ps : list Permission) : store_put "undefined" body <$> ps = ps.
Proof.
  induction ps as [|p ps IH]; [done|]. rewrite fmap_cons, IH. f_equal.
  unfold store_put. destruct (p_id p) as [i|]; [|done].
  rewrite bool_decide_eq_false_2; [done|]. apply pretty_ne_undefined.
Qed.

Lemma fresh_id_above (ids : list (option Z)) i : Some i ∈ ids -> i < fresh_id ids.
Proof.
  unfold fresh_id. induction ids as [|o ids IH]; [by inversion 1|].
  rewrite elem_of_cons. simpl. intros [<-|Hin]; simpl; [lia|].
  specialize (IH Hin). lia.
Qed.

Lemma fresh_id_fresh (ids : list (option Z)) : Some (fresh_id ids) ∉ ids.
Proof. intros Hin. apply fresh_id_above in Hin. lia. Qed.

Lemma put_other body i (ps : list Permission) :
  Some i ∉ p_id <$> ps -> store_put (pretty i) body <$> ps = ps.
Proof.
  induction ps as [|p ps IH]; [done|]. rewrite !fmap_cons, not_elem_of_cons.
  intros [Hne Hnin]. rewrite (IH Hnin). f_equal.
  unfold store_put. destruct (p_id p) as [j|]; [|done].
  rewrite bool_decide_eq_false_2; [done|].
  intros E. apply (inj pretty) in E. congruence.
Qed.

Lemma put_split body i (l1 : list Permission) x l2 :
  NoDup (p_id <$> (l1 ++ x :: l2)) -> p_id x = Some i ->
  store_put (pretty i) body <$> (l1 ++ x :: l2) = l1 ++ with_id body i :: l2.
Proof.
  intros Hnd Hx. rewrite fmap_app, fmap_cons in Hnd.
  apply NoDup_app in Hnd as (_ & Hdisj & Hnd2). apply NoDup_cons in Hnd2 as [Hx2 _].
  rewrite fmap_app, fmap_cons.
  rewrite put_other.
  2:{ intros Hin. apply (Hdisj _ Hin). rewrite Hx. apply list_elem_of_here. }
  rewrite put_other by (by rewrite <- Hx).
  unfold store_put at 1. rewrite Hx, bool_decide_eq_true_2 by done. done.
Qed.

Lemma last_filter_split {A} (P : A -> Prop) `{forall x, Decision (P x)} (l : list A) x :
  last (filter P l) = Some x ->
  exists l1 l2, l = l1 ++ x :: l2 /\ P x /\ filter P l2 = [].
Proof.
  induction l as [|y l IH] using rev_ind; [done|].
  rewrite filter_app, filter_cons, filter_nil.
  destruct (decide (P y)) as [Hy|Hy].
  - rewrite last_snoc. intros [= ->]. exists l, []. done.
  - rewrite app_nil_r. intros Hl. destruct (IH Hl) as (l1 & l2 & -> & Hx & Hl2).
    exists l1, (l2 ++ [y]). rewrite <- app_assoc. split; [done|]. split; [done|].
    by rewrite filter_app, Hl2, filter_cons_False.
Qed.

Lemma with_actions_same p : with_actions p (p_actions p) = p.
Proof. by destruct p. Qed.

Lemma with_id_same p i : p_id p = Some i -> with_id p i = p.
Proof. destruct p. simpl. by intros ->. Qed.

Lemma newActions_of_idem perm a enabled :
  newActions_of (with_actions perm (newActions_of perm a enabled)) a enabled
  = newActions_of perm a enabled.
Proof.
  unfold newActions_of at 1. simpl.
  assert (includes (newActions_of perm a enabled) a = enabled
          \/ (newActions_of perm a enabled = p_actions perm
              /\ includes (p_actions perm) a = true /\ enabled = true)
          \/ (newActions_of perm a enabled = p_actions perm
              /\ includes (p_actions perm) a = false /\ enabled = false)) as Hcases.
  { unfold newActions_of. destruct enabled; destruct (includes (p_actions perm) a) eqn:E;
      simpl; auto.
    - left. unfold includes. apply bool_decide_eq_true.
      apply elem_of_app. right. apply list_elem_of_here.
    - left. unfold includes. apply bool_decide_eq_false.
      rewrite list_elem_of_filter. tauto. }
  destruct Hcases as [Hinc|[(-> & -> & ->)|(-> & -> & ->)]]; [|done|done].
  rewrite Hinc. destruct enabled; simpl; done.
Qed.

Section Idempotence.
Variables (m : Z) (a : Action).

Lemma lookup_app_row (ps : list Permission) R q :
  permMap (ps ++ [q]) !! perm_key R m
  = if decide (row_of R m q) then Some q else permMap ps !! perm_key R m.
Proof.
  rewrite !permMap_lookup, filter_app, filter_cons, filter_nil.
  destruct (decide (row_of R m q)); [by rewrite last_snoc|by rewrite app_nil_r].
Qed.

Lemma lookup_replace_row (l1 : list Permission) x y l2 R :
  p_roleId y = p_roleId x -> p_moduleId y = p_moduleId x ->
  permMap (l1 ++ y :: l2) !! perm_key R m
  = if decide (row_of R m x) then
      match last (filter (row_of R m) l2) with
      | Some z => Some z
      | None => Some y
      end
    else permMap (l1 ++ x :: l2) !! perm_key R m.
Proof.
  intros HR HM. rewrite !permMap_lookup, !filter_app, !filter_cons.
  assert (row_of R m y <-> row_of R m x) as Hiff by (unfold row_of; by rewrite HR, HM).
  destruct (decide (row_of R m x)) as [Hx|Hx].
  - rewrite decide_True by (by apply Hiff).
    rewrite last_app, last_cons. by destruct (last (filter (row_of R m) l2)).
  - rewrite decide_False by (by rewrite Hiff). done.
Qed.

(** One entry, run against a store that agrees with the snapshot on its
    role. *)
Lemma store_step_settles pm0 (ps : list Permission) e :
  NoDup (p_id <$> ps) ->
  permMap ps !! perm_key (fst e) m = pm0 !! perm_key (fst e) m ->
  let ps1 := store_step pm0 m a ps e in
  NoDup (p_id <$> ps1)
  /\ settled ps1 m a e
  /\ (forall R, R <> fst e ->
      permMap ps1 !! perm_key R m = permMap ps !! perm_key R m).
Proof.
  intros Hnd Hagree. simpl. unfold store_step, settled. rewrite <- Hagree.
  destruct (permMap ps !! perm_key e.1 m) as [perm|] eqn:Hl.
  - pose proof Hl as Hl'. rewrite permMap_lookup in Hl'.
    apply last_filter_split in Hl' as (l1 & l2 & -> & [HR HM] & Hl2).
    destruct (p_id perm) as [i|] eqn:Hid; simpl.
    + rewrite (put_split _ i l1 perm l2 Hnd Hid).
      rewrite with_id_same by done.
      set (perm' := with_actions perm (newActions_of perm (action_name a) e.2)).
      split; [|split].
      * rewrite fmap_app, fmap_cons in *. done.
      * rewrite (lookup_replace_row l1 perm perm' l2) by done.
        rewrite decide_True by done. rewrite Hl2. simpl. left.
        apply newActions_of_idem.
      * intros R HRne. rewrite (lookup_replace_row l1 perm perm' l2) by done.
        rewrite decide_False; [done|]. intros [? _]. congruence.
    + rewrite put_undefined. rewrite Hl. split; [done|]. split; [by right|done].
  - destruct (snd e) eqn:Hen.
    + set (r := with_id (fresh_payload e.1 m a) (fresh_id (p_id <$> ps))).
      split; [|split].
      * rewrite fmap_app. apply NoDup_app. split; [done|]. split; [|apply NoDup_singleton].
        intros o Ho Ho'. apply list_elem_of_singleton in Ho'. subst o.
        by apply fresh_id_fresh in Ho.
      * rewrite lookup_app_row. rewrite decide_True by done. left.
        unfold newActions_of, includes. simpl.
        rewrite bool_decide_eq_true_2 by apply list_elem_of_here. done.
      * intros R HRne. rewrite lookup_app_row.
        rewrite decide_False; [done|]. intros [? _]. simpl in *. congruence.
    + rewrite Hl. done.
Qed.

Lemma settled_lookup ps ps' e :
  permMap ps' !! perm_key (fst e) m = permMap ps !! perm_key (fst e) m ->
  settled ps m a e -> settled ps' m a e.
Proof. unfold settled. by intros ->. Qed.

(** The first run leaves every selected role settled. *)
Lemma first_run_settles pm0 todo : NoDup (fst <$> todo) -> forall ps : list Permission,
  NoDup (p_id <$> ps) ->
  (forall e, e ∈ todo -> permMap ps !! perm_key (fst e) m = pm0 !! perm_key (fst e) m) ->
  let ps' := foldl (store_step pm0 m a) ps todo in
  NoDup (p_id <$> ps')
  /\ (forall e, e ∈ todo -> settled ps' m a e)
  /\ (forall R, R ∉ fst <$> todo ->
      permMap ps' !! perm_key R m = permMap ps !! perm_key R m).
Proof.
  induction todo as [|e todo IH]; intros Hkeys ps Hnd Hagree; simpl.
  - split; [done|]. split; [by inversion 1|done].
  - rewrite fmap_cons in Hkeys. apply NoDup_cons in Hkeys as [He Hkeys].
    destruct (store_step_settles pm0 ps e Hnd) as (Hnd1 & Hset & Hframe).
    { apply Hagree, list_elem_of_here. }
    destruct (IH Hkeys (store_step pm0 m a ps e) Hnd1) as (Hnd' & Hset' & Hframe').
    { intros e' He'. rewrite Hframe.
      - apply Hagree. by apply list_elem_of_further.
      - intros Heq. apply He. rewrite <- Heq. by apply list_elem_of_fmap_2. }
    split; [done|]. split.
    + intros e' He'. apply elem_of_cons in He' as [->|He']; [|by apply Hset'].
      eapply settled_lookup; [|exact Hset]. by apply Hframe'.
    + intros R HR. apply not_elem_of_cons in HR as [HRe HR].
      rewrite Hframe' by done. by apply Hframe.
Qed.

(** On a store whose selected roles are settled, a run changes nothing. *)
Lemma second_run_fixed (ps : list Permission) entries :
  NoDup (p_id <$> ps) ->
  (forall e, e ∈ entries -> settled ps m a e) ->
  foldl (store_step (permMap ps) m a) ps entries = ps.
Proof.
  intros Hnd. induction entries as [|e entries IH]; intros Hset; simpl; [done|].
  assert (store_step (permMap ps) m a ps e = ps) as ->.
  { specialize (Hset e (list_elem_of_here _ _)). unfold settled in Hset.
    unfold store_step.
    destruct (permMap ps !! perm_key e.1 m) as [p|] eqn:Hl; [|by rewrite Hset].
    destruct (p_id p) as [i|] eqn:Hid; [|apply put_undefined].
    destruct Hset as [Hsame|?]; [|done].
    rewrite Hsame, with_actions_same. simpl.
    rewrite permMap_lookup in Hl.
    apply last_filter_split in Hl as (l1 & l2 & -> & _ & _).
    rewrite (put_split _ i l1 p l2 Hnd Hid). by rewrite with_id_same. }
  apply IH. intros e' He'. apply Hset. by apply list_elem_of_further.
Qed.

(** Running a selection over the snapshot of a store, and then over the
    snapshot of the result, gives the result of the first run. *)
Lemma store_run_idempotent (ps : list Permission) entries :
  NoDup (fst <$> entries) -> NoDup (p_id <$> ps) ->
  let ps1 := foldl (store_step (permMap ps) m a) ps entries in
  foldl (store_step (permMap ps1) m a) ps1 entries = ps1.
Proof.
  intros Hkeys Hnd. simpl.
  destruct (first_run_settles (permMap ps) entries Hkeys ps Hnd) as (Hnd1 & Hset & _);
    [done|].
  by apply second_run_fixed.
Qed.

End Idempotence.

(** ** Apply against the modelled backend *)

Lemma set_permissions_same (s : Store) : set_permissions s (db_permissions s) = s.
Proof. by destruct s. Qed.

Lemma apply_role_rest pm m a e (w : World Store) :
  server (snd (apply_role pm m a e w))
  = set_permissions (server w) (store_step pm m a (db_permissions (server w)) e).
Proof.
  destruct e as [R enabled]. unfold apply_role, store_step. simpl.
  destruct (pm !! perm_key R m) as [perm|]; [done|].
  destruct enabled; [done|]. simpl. by rewrite set_permissions_same.
Qed.

Lemma for_of_apply_rest pm m a entries : forall (w : World Store),
  server (snd (for_of entries (apply_role pm m a) w))
  = set_permissions (server w)
      (foldl (store_step pm m a) (db_permissions (server w)) entries).
Proof.
  induction entries as [|e entries IH]; intros w; simpl.
  - by rewrite set_permissions_same.
  - unfold bind.
    pose proof (apply_role_rest pm m a e w) as Hs.
    destruct (apply_role_run pm m a e w) as (Hr & _).
    destruct (apply_role pm m a e w) as [r w1]. simpl in *. subst r.
    rewrite IH, Hs. by destruct (server w).
Qed.

Lemma loadAll_rest (w : World Store) :
  fst (loadAll w) = Returned tt
  /\ server (snd (loadAll w)) = server w
  /\ permissions (react (snd (loadAll w))) = db_permissions (server w).
Proof. done. Qed.

Lemma bind_returned {S A B} (c : M S A) (k : A -> M S B) (w w1 : World S) x :
  c w = (Returned x, w1) -> bind c k w = k x w1.
Proof. unfold bind. by intros ->. Qed.

Lemma applyActionModal_rest cur (w : World Store) m a :
  apply_guard (actionModal cur) m a ->
  let ps' := foldl (store_step (permMap (permissions cur)) m a)
               (db_permissions (server w))
               (Object_entries (am_selectedRoles (actionModal cur))) in
  fst (applyActionModal cur w) = Returned tt
  /\ server (snd (applyActionModal cur w)) = set_permissions (server w) ps'
  /\ permissions (react (snd (applyActionModal cur w))) = ps'
  /\ actionModal (react (snd (applyActionModal cur w))) = actionModal_closed.
Proof.
  intros ((u & Hu & Hu0) & Hm & Hm0 & Ha). cbv zeta.
  assert (truthy (Some u) && truthy (Some m) = true) as Hg.
  { unfold truthy. apply andb_true_iff. split; apply negb_true_iff, Z.eqb_neq; done. }
  pose proof (for_of_apply_rest (permMap (permissions cur)) m a
                (Object_entries (am_selectedRoles (actionModal cur))) w) as Hsrv.
  destruct (for_of_apply_run (permMap (permissions cur)) m a
              (Object_entries (am_selectedRoles (actionModal cur))) w) as (Hr & _).
  destruct (for_of (Object_entries (am_selectedRoles (actionModal cur)))
              (apply_role (permMap (permissions cur)) m a) w) as [r w1] eqn:Ef.
  cbn [fst snd] in Hr, Hsrv. subst r.
  destruct (loadAll_rest w1) as (Hr2 & Hs2 & Hp2).
  destruct (loadAll w1) as [r2 w2] eqn:El.
  cbn [fst snd] in Hr2, Hs2, Hp2. subst r2.
  assert (applyActionModal cur w
          = setActionModal (fun _ => actionModal_closed) w2) as ->.
  { unfold applyActionModal. rewrite Hm, Ha, Hu, Hg.
    rewrite (bind_returned _ _ _ _ _ Ef). by rewrite (bind_returned _ _ _ _ _ El). }
  unfold setActionModal, set_react. cbn [fst snd react server permissions actionModal].
  rewrite Hp2, Hs2, Hsrv. unfold set_permissions. cbn [db_permissions].
  split; [reflexivity|]. split; [reflexivity|]. split; reflexivity.
Qed.

(** C9, as amended.  Against the backing API as the specification describes
    it (every request is answered and stored), with row identifiers unique,
    let Apply run on the snapshot of the store, and let it run again, on the
    reloaded snapshot, with the modal holding the same user, module, action
    and selection: the second run leaves the stored permissions, and with
    them the actions of every row, and the reloaded snapshot as the first run
    left them. *)
Theorem apply_twice_same (cur : AppState) (w : World Store) :
  NoDup (p_id <$> db_permissions (server w)) ->
  permissions cur = db_permissions (server w) ->
  let w1 := snd (applyActionModal cur w) in
  let cur2 := with_actionModal (react w1) (actionModal cur) in
  let w2 := snd (applyActionModal cur2 w1) in
  db_permissions (server w2) = db_permissions (server w1)
  /\ permissions (react w2) = permissions (react w1).
Proof.
  intros Hnd Hsnap. cbv zeta.
  destruct (apply_guard_dec (actionModal cur)) as [(m & a & Hg)|Hng].
  - destruct (applyActionModal_rest cur w m a Hg) as (_ & Hs1 & Hp1 & _).
    set (w1 := snd (applyActionModal cur w)) in *.
    destruct (applyActionModal_rest (with_actionModal (react w1) (actionModal cur))
                w1 m a Hg) as (_ & Hs2 & Hp2 & _).
    cbv zeta in Hs1, Hp1, Hs2, Hp2.
    cbn [permissions actionModal with_actionModal] in Hs2, Hp2.
    rewrite Hs2, Hp2, Hp1, Hs1. unfold set_permissions. cbn [db_permissions].
    rewrite Hsnap.
    rewrite (store_run_idempotent m a (db_permissions (server w))
               (Object_entries (am_selectedRoles (actionModal cur)))
               (NoDup_Object_entries _) Hnd).
    split; reflexivity.
  - rewrite (applyActionModal_blocked cur w Hng). cbn [snd].
    rewrite (applyActionModal_blocked (with_actionModal (react w) (actionModal cur)) w);
      [split; reflexivity|].
    intros m a. apply Hng.
Qed.

Lemma editor_apply_twice :
  let w1 := snd (applyActionModal reader_modal_open
                   (world_of reader_modal_open reader_store)) in
  let cur2 := with_actionModal (react w1) (actionModal reader_modal_open) in
  let w2 := snd (applyActionModal cur2 w1) in
  db_permissions (server w2) = db_permissions (server w1)
  /\ permissions (react w2) = permissions (react w1).
Proof.
  apply (apply_twice_same reader_modal_open (world_of reader_modal_open reader_store)).
  - simpl. apply NoDup_singleton.
  - reflexivity.
Defined.

(** C9, as stated, fails when a request of the first run is lost, and when
    the first run starts from a snapshot that is not that of the store.
    First the network drops the PUT that removes update from Editor's row:
    the first Apply leaves the row as it was and the second one rewrites it.
    Then the row has meanwhile been created again under another identifier:
    the first Apply addresses the old identifier, which changes nothing, and
    the second one, on the reloaded snapshot, rewrites the row. *)
Lemma apply_twice_differs :
  (let w1 := snd (applyActionModal reader_modal_open
                    (dropped_world reader_modal_open reader_store [true])) in
   let cur2 := with_actionModal (react w1) (actionModal reader_modal_open) in
   let w2 := snd (applyActionModal cur2 w1) in
   p_actions <$> db_permissions (inner (server w1)) = [["read"; "update"]]
   /\ p_actions <$> permissions (react w1) = [["read"; "update"]]
   /\ p_actions <$> db_permissions (inner (server w2)) = [["read"]]
   /\ p_actions <$> permissions (react w2) = [["read"]])
  /\ (let w1 := snd (applyActionModal reader_modal_open
                       (world_of reader_modal_open moved_store)) in
      let cur2 := with_actionModal (react w1) (actionModal reader_modal_open) in
      let w2 := snd (applyActionModal cur2 w1) in
      p_actions <$> db_permissions (server w1) = [["read"; "update"]]
      /\ p_actions <$> permissions (react w1) = [["read"; "update"]]
      /\ p_actions <$> db_permissions (server w2) = [["read"]]
      /\ p_actions <$> permissions (react w2) = [["read"]]).
Proof. vm_compute. repeat split. Qed.

(** The scenario of the specification, twice: the first Apply creates
    Editor's row for Invoices, the second rewrites it with the same content,
    and [userHasAction] reflects the change after the reload. *)
Example create_then_again :
  let w1 := snd (applyActionModal editor_modal_open
                   (world_of editor_modal_open editor_store)) in
  let cur2 := with_actionModal (react w1) (actionModal editor_modal_open) in
  let w2 := snd (applyActionModal cur2 w1) in
  sent w1 = create_request (fresh_payload 1 1 Acreate) :: reload_requests
  /\ permissions (react w1) = [with_id (fresh_payload 1 1 Acreate) 1]
  /\ userHasAction (permissions (react w1)) (userRoles (react w1)) 1 1 Acreate = true
  /\ issued (applyActionModal cur2) w1
     = update_request (Some 1) (with_id (fresh_payload 1 1 Acreate) 1) :: reload_requests
  /\ permissions (react w2) = [with_id (fresh_payload 1 1 Acreate) 1].
Proof. vm_compute. repeat split. Qed.

(** * Further properties of the page *)

(** ** The permission index *)

(** X1.  The index key of a (role, module) pair determines the pair: two
    pairs of integers get the same key text only when they are the same
    pair, so the index never files a row under another pair's key. *)
Theorem perm_key_eq_iff (r1 m1 r2 m2 : Z) :
  perm_key r1 m1 = perm_key r2 m2 <-> r1 = r2 /\ m1 = m2.
Proof.
  split; [apply perm_key_inj|]. by intros [-> ->].
Qed.

(** X2.  Looking a pair up in the index gives the last row of the
    collection with that pair (the last one seen wins), and nothing exactly
    when the collection has no row with that pair. *)
Theorem permMap_last_wins (perms : list Permission) (R M : Z) :
  permMap perms !! perm_key R M = last (filter (row_of R M) perms)
  /\ (permMap perms !! perm_key R M = None <-> no_row perms R M)
  /\ (forall p, row_of R M p -> permMap (perms ++ [p]) !! perm_key R M = Some p).
Proof.
  split; [apply permMap_lookup|]. split; [apply permMap_lookup_None|].
  intros p Hp. rewrite lookup_app_row. by rewrite decide_True.
Qed.

Lemma index_after_append :
  permMap (dup_perms ++ [reader_row]) !! perm_key 1 1 = Some reader_row.
Proof.
  apply (permMap_last_wins dup_perms 1 1). split; reflexivity.
Defined.

(** ** The resolver does not depend on the order of the links *)

(** X3.  [userHasAction] looks at the set of roles the user is linked to:
    reordering the user-role records, or repeating one, does not change its
    answer. *)
Theorem userHasAction_links_as_set perms urs urs' U M A :
  (forall ur, ur ∈ urs <-> ur ∈ urs') ->
  userHasAction perms urs U M A = userHasAction perms urs' U M A.
Proof.
  intros Hsame. unfold userHasAction.
  apply eq_true_iff_eq. rewrite !userHasAction_loop_true.
  split; intros (R & perm & Hin & Hrest); exists R, perm; (split; [|done]);
    apply elem_of_userRoleIds in Hin as (ur & Hur & ? & ?);
    apply elem_of_userRoleIds; exists ur; (split; [by apply Hsame|done]).
Qed.

Lemma links_reversed_same_action :
  userHasAction two_role_perms two_role_links 1 1 Aread
  = userHasAction two_role_perms (reverse two_role_links ++ two_role_links) 1 1 Aread.
Proof.
  apply (userHasAction_links_as_set two_role_perms two_role_links
           (reverse two_role_links ++ two_role_links) 1 1 Aread).
  intros ur. rewrite elem_of_app, elem_of_reverse. tauto.
Defined.

(** X4.  The field lists of [unionFieldsForUserModule] hold the same fields
    whatever the order or multiplicity of the user-role records: the lists
    for two collections with the same records are rearrangements of one
    another (the order of the fields itself follows the order of the
    links). *)
Theorem unionFields_links_as_set perms urs urs' U M :
  (forall ur, ur ∈ urs <-> ur ∈ urs') ->
  visible (unionFieldsForUserModule perms urs U M)
    ≡ₚ visible (unionFieldsForUserModule perms urs' U M)
  /\ editable (unionFieldsForUserModule perms urs U M)
    ≡ₚ editable (unionFieldsForUserModule perms urs' U M).
Proof.
  intros Hsame.
  assert (Hroles : forall R, R ∈ userRoleIds urs U <-> R ∈ userRoleIds urs' U).
  { intros R. rewrite !elem_of_userRoleIds.
    split; intros (ur & ? & ? & ?); exists ur; (split; [by apply Hsame|done]). }
  assert (Hc : forall sel x,
    contributes (permMap perms) M sel (userRoleIds urs U) x
    <-> contributes (permMap perms) M sel (userRoleIds urs' U) x).
  { intros sel x. unfold contributes.
    split; intros (R & p & ? & ?); exists R, p; (split; [by apply Hroles|done]). }
  unfold unionFieldsForUserModule. cbn [visible editable].
  destruct (union_fold_NoDup (permMap perms) M (userRoleIds urs U) ([], []))
    as [Hv He]; [apply NoDup_nil_2..|].
  destruct (union_fold_NoDup (permMap perms) M (userRoleIds urs' U) ([], []))
    as [Hv' He']; [apply NoDup_nil_2..|].
  split; apply NoDup_Permutation; try done; intros x.
  - destruct (union_fold_elem (permMap perms) M (userRoleIds urs U) ([], []) x) as [H1 _].
    destruct (union_fold_elem (permMap perms) M (userRoleIds urs' U) ([], []) x) as [H2 _].
    rewrite H1, H2, Hc. done.
  - destruct (union_fold_elem (permMap perms) M (userRoleIds urs U) ([], []) x) as [_ H1].
    destruct (union_fold_elem (permMap perms) M (userRoleIds urs' U) ([], []) x) as [_ H2].
    rewrite H1, H2, Hc. done.
Qed.

Lemma links_reversed_same_fields :
  visible (unionFieldsForUserModule two_role_perms two_role_links 1 1)
    ≡ₚ visible (unionFieldsForUserModule two_role_perms (reverse two_role_links) 1 1)
  /\ editable (unionFieldsForUserModule two_role_perms two_role_links 1 1)
    ≡ₚ editable (unionFieldsForUserModule two_role_perms (reverse two_role_links) 1 1).
Proof.
  apply (unionFields_links_as_set two_role_perms two_role_links (reverse two_role_links) 1 1).
  intros ur. by rewrite elem_of_reverse.
Defined.

Example reversed_links_reorder_fields :
  visible (unionFieldsForUserModule two_role_perms (reverse two_role_links) 1 1)
  = ["date"; "amount"].
Proof. vm_compute. reflexivity. Qed.

(** ** The action modal *)

Lemma obj_get_app (o1 o2 : NumRecord) k :
  obj_get (o1 ++ o2) k
  = match obj_get o2 k with Some v => Some v | None => obj_get o1 k end.
Proof.
  induction o1 as [|[k' v] o1 IH]; simpl.
  - by destruct (obj_get o2 k).
  - rewrite IH. by destruct (obj_get o2 k).
Qed.

Lemma obj_get_set (o : NumRecord) k v k' :
  obj_get (obj_set o k v) k' = if decide (k = k') then Some v else obj_get o k'.
Proof.
  unfold obj_set. rewrite obj_get_app. simpl.
  destruct (decide (k = k')) as [->|Hne].
  - by rewrite bool_decide_eq_true_2.
  - by rewrite bool_decide_eq_false_2.
Qed.

Lemma obj_get_None (o : NumRecord) k : obj_get o k = None <-> k ∉ fst <$> o.
Proof.
  split.
  - intros Hn Hin. apply obj_get_is_Some in Hin as [v Hv]. congruence.
  - intros Hnin. destruct (obj_get o k) as [v|] eqn:E; [|done].
    exfalso. apply Hnin. apply elem_of_own_keys.
    apply elem_of_Object_entries in E.
    rewrite <- Object_entries_keys. by apply (list_elem_of_fmap_2 fst _ (k, v)).
Qed.

(** Reading a property of [{ ...o }] is reading it in [o]. *)
Lemma obj_get_spread (o : NumRecord) k : obj_get (obj_spread o) k = obj_get o k.
Proof.
  unfold obj_spread.
  destruct (obj_get o k) as [v|] eqn:E.
  - apply elem_of_Object_entries in E.
    pose proof (NoDup_Object_entries o) as Hnd.
    induction (Object_entries o) as [|[k' v'] l IH]; [by inversion E|].
    rewrite fmap_cons in Hnd. apply NoDup_cons in Hnd as [Hk' Hnd]. simpl.
    apply elem_of_cons in E as [[= <- <-]|E].
    + assert (obj_get l k = None) as -> by (by apply obj_get_None).
      by rewrite bool_decide_eq_true_2.
    + by rewrite (IH E Hnd).
  - apply obj_get_None. rewrite Object_entries_keys, elem_of_own_keys.
    by apply obj_get_None.
Qed.

(** The selection [openActionModal] builds. *)
Lemma seed_get (g : Z -> bool) (objs : list Role) : forall (o : NumRecord) k,
  obj_get (foldl (fun sel r => obj_set sel (r_id r) (g (r_id r))) o objs) k
  = if decide (k ∈ r_id <$> objs) then Some (g k) else obj_get o k.
Proof.
  induction objs as [|r objs IH]; intros o k; simpl; [done|].
  rewrite IH, obj_get_set.
  destruct (decide (k ∈ r_id <$> objs)) as [Hin|Hnin].
  - rewrite decide_True; [done|]. apply elem_of_cons. by right.
  - destruct (decide (r_id r = k)) as [->|Hne].
    + rewrite decide_True; [done|]. apply elem_of_cons. by left.
    + rewrite decide_False; [done|]. rewrite elem_of_cons. intros [?|?]; [congruence|done].
Qed.

Lemma elem_of_userRolesObjects urs rs U r :
  r ∈ userRolesObjects urs rs U <-> r ∈ rs /\ r_id r ∈ userRoleIds urs U.
Proof. unfold userRolesObjects. rewrite list_elem_of_filter. tauto. Qed.

Lemma userRolesObjects_nil_iff urs rs U :
  userRolesObjects urs rs U = [] <-> forall r, r ∈ rs -> r_id r ∉ userRoleIds urs U.
Proof.
  split.
  - intros Hnil r Hr Hin.
    assert (r ∈ userRolesObjects urs rs U) as Hobj by (by apply elem_of_userRolesObjects).
    rewrite Hnil in Hobj. by inversion Hobj.
  - intros Hno. destruct (userRolesObjects urs rs U) as [|r l] eqn:E; [done|].
    assert (r ∈ userRolesObjects urs rs U) as Hobj by (rewrite E; apply list_elem_of_here).
    apply elem_of_userRolesObjects in Hobj as [? ?]. by destruct (Hno r).
Qed.

Section ActionModal.
Context {S : Type} `{Backend S}.

Lemma openActionModal_opened cur U M A (w : World S) :
  userRolesObjects (userRoles cur) (roles cur) U <> [] ->
  exists selected,
    openActionModal cur U M A w =
      (Returned tt,
       {| react := with_actionModal (react w)
            {| am_open := true; am_userId := Some U; am_moduleId := Some M;
               am_action := Some A; am_selectedRoles := selected;
               am_userRolesList := userRolesObjects (userRoles cur) (roles cur) U |};
          server := server w; sent := sent w; console := console w; alerts := alerts w |})
    /\ forall k, obj_get selected k
         = if decide (k ∈ r_id <$> userRolesObjects (userRoles cur) (roles cur) U)
           then Some (grants (permMap (permissions cur)) k M A) else None.
Proof.
  intros Hne. unfold openActionModal.
  destruct (userRolesObjects (userRoles cur) (roles cur) U) as [|r objs] eqn:E; [done|].
  cbn [length Nat.eqb]. eexists. split; [reflexivity|].
  intros k. apply (seed_get (fun R => grants (permMap (permissions cur)) R M A)).
Qed.

End ActionModal.

(** X5.  The action modal opens only for a user linked to a role that
    occurs in the roles collection.  When none of the listed roles is linked
    to the user -- no links at all, or links to roles the collection does not
    hold -- the click shows the notice and changes nothing else; otherwise it
    shows no notice and opens the modal for that user, module and action,
    listing exactly the linked roles of the collection. *)
Theorem openActionModal_opens_iff {S} `{Backend S} (cur : AppState) (U M : Z)
    (A : Action) (w : World S) :
  ((forall r, r ∈ roles cur -> r_id r ∉ userRoleIds (userRoles cur) U) ->
   openActionModal cur U M A w =
     (Returned tt,
      {| react := react w; server := server w; sent := sent w; console := console w;
         alerts := alerts w ++ ["User has no roles assigned. Assign a role first."] |}))
  /\ ((exists r, r ∈ roles cur /\ r_id r ∈ userRoleIds (userRoles cur) U) ->
      let w' := snd (openActionModal cur U M A w) in
      alerts w' = alerts w /\ sent w' = sent w
      /\ am_open (actionModal (react w')) = true
      /\ am_userId (actionModal (react w')) = Some U
      /\ am_moduleId (actionModal (react w')) = Some M
      /\ am_action (actionModal (react w')) = Some A
      /\ (forall r, r ∈ am_userRolesList (actionModal (react w'))
            <-> r ∈ roles cur /\ r_id r ∈ userRoleIds (userRoles cur) U)
      /\ permissions (react w') = permissions (react w)).
Proof.
  split.
  - intros Hno. apply userRolesObjects_nil_iff in Hno.
    unfold openActionModal. by rewrite Hno.
  - intros (r & Hr & Hin). cbv zeta.
    destruct (openActionModal_opened cur U M A w) as (selected & -> & _).
    { intros Hnil. eapply userRolesObjects_nil_iff in Hnil; [|exact Hr]. done. }
    cbn. repeat (split; [reflexivity|]). split; [|reflexivity].
    intros r'. apply elem_of_userRolesObjects.
Qed.

(** A user whose only link names a role that the roles collection lacks. *)
Lemma click_with_unknown_roles :
  let cur := with_actionModal zero_role_state actionModal_closed in
  alerts (snd (openActionModal (S:=Store) cur 1 1 Aread (world_of cur zero_role_store)))
    = []
  /\ alerts (snd (openActionModal (S:=Store) two_links_state 1 1 Aread
                    (world_of two_links_state zero_role_store)))
     = ["User has no roles assigned. Assign a role first."].
Proof.
  intros cur. split.
  - apply (proj2 (openActionModal_opens_iff (S:=Store) cur 1 1 Aread
                    (world_of cur zero_role_store))).
    exists {| r_id := 0; r_name := "Guest" |}. split; [apply list_elem_of_here|].
    vm_compute. apply list_elem_of_here.
  - rewrite (proj1 (openActionModal_opens_iff (S:=Store) two_links_state 1 1 Aread
                      (world_of two_links_state zero_role_store))); [reflexivity|].
    intros r Hr. inversion Hr.
Defined.

(** X6.  In the modal as [openActionModal] opens it, the box of each listed
    role is ticked exactly when the permission index grants that role the
    action for the module.  So a ticked box implies that the check box of
    the matrix ([userHasAction]) is checked; and when every role the user is
    linked to occurs in the roles collection, a checked matrix box has a
    ticked role box behind it. *)
Theorem openActionModal_seeds {S} `{Backend S} (cur : AppState) (U M : Z)
    (A : Action) (w : World S) :
  (exists r, r ∈ roles cur /\ r_id r ∈ userRoleIds (userRoles cur) U) ->
  let am := actionModal (react (snd (openActionModal cur U M A w))) in
  (forall r, r ∈ am_userRolesList am ->
     roleChecked am r = grants (permMap (permissions cur)) (r_id r) M A)
  /\ ((exists r, r ∈ am_userRolesList am /\ roleChecked am r = true) ->
      userHasAction (permissions cur) (userRoles cur) U M A = true)
  /\ ((forall R, R ∈ userRoleIds (userRoles cur) U -> exists r, r ∈ roles cur /\ r_id r = R) ->
      userHasAction (permissions cur) (userRoles cur) U M A = true ->
      exists r, r ∈ am_userRolesList am /\ roleChecked am r = true).
Proof.
  intros (r0 & Hr0 & Hin0). cbv zeta.
  destruct (openActionModal_opened cur U M A w) as (selected & -> & Hget).
  { intros Hnil. eapply userRolesObjects_nil_iff in Hnil; [|exact Hr0]. done. }
  cbn [snd react actionModal with_actionModal am_userRolesList].
  assert (Hbox : forall r, r ∈ userRolesObjects (userRoles cur) (roles cur) U ->
    roleChecked
      {| am_open := true; am_userId := Some U; am_moduleId := Some M;
         am_action := Some A; am_selectedRoles := selected;
         am_userRolesList := userRolesObjects (userRoles cur) (roles cur) U |} r
    = grants (permMap (permissions cur)) (r_id r) M A).
  { intros r Hr. unfold roleChecked. cbn [am_selectedRoles]. rewrite Hget.
    rewrite decide_True; [done|]. by apply list_elem_of_fmap_2. }
  split; [exact Hbox|]. split.
  - intros (r & Hr & Hticked). rewrite (Hbox r Hr) in Hticked.
    apply elem_of_userRolesObjects in Hr as [_ Hlinked].
    unfold userHasAction. apply userHasAction_loop_true.
    unfold grants in Hticked.
    destruct (permMap (permissions cur) !! perm_key (r_id r) M) as [p|] eqn:Hl; [|done].
    exists (r_id r), p. split; [done|]. split; [done|]. by apply includes_true.
  - intros Hknown Hchecked. unfold userHasAction in Hchecked.
    apply userHasAction_loop_true in Hchecked as (R & p & HR & Hl & Ha).
    destruct (Hknown R HR) as (r & Hr & <-).
    assert (r ∈ userRolesObjects (userRoles cur) (roles cur) U) as Hobj
      by (by apply elem_of_userRolesObjects).
    exists r. split; [done|]. rewrite (Hbox r Hobj). unfold grants. rewrite Hl.
    by apply includes_true.
Qed.

Lemma reader_boxes_seeded :
  let am := actionModal (react (snd (openActionModal (S:=Store) reader_state 1 1 Aread
                                       (world_of reader_state reader_store)))) in
  Forall (fun r => roleChecked am r
                   = grants (permMap (permissions reader_state)) (r_id r) 1 Aread)
         (am_userRolesList am).
Proof.
  intros am. apply Forall_forall.
  apply (openActionModal_seeds (S:=Store) reader_state 1 1 Aread
           (world_of reader_state reader_store)).
  exists {| r_id := 1; r_name := "Editor" |}. split; [apply list_elem_of_here|].
  vm_compute. apply list_elem_of_here.
Defined.

(** X7.  Ticking or unticking the box of one role in the action modal sets
    that role's box (and the box of any listed role with the same
    identifier) and leaves every other box, the modal's user, module and
    action, and everything outside the modal as they were; no request is
    sent. *)
Theorem toggleSelectedRole_boxes {S} `{Backend S} (r : Role) (checked : bool)
    (w : World S) :
  let w' := snd (toggleSelectedRole r checked w) in
  (forall r', roleChecked (actionModal (react w')) r'
     = if decide (r_id r' = r_id r) then checked
       else roleChecked (actionModal (react w)) r')
  /\ am_userId (actionModal (react w')) = am_userId (actionModal (react w))
  /\ am_moduleId (actionModal (react w')) = am_moduleId (actionModal (react w))
  /\ am_action (actionModal (react w')) = am_action (actionModal (react w))
  /\ am_userRolesList (actionModal (react w')) = am_userRolesList (actionModal (react w))
  /\ am_open (actionModal (react w')) = am_open (actionModal (react w))
  /\ permissions (react w') = permissions (react w)
  /\ sent w' = sent w.
Proof.
  cbv zeta. unfold toggleSelectedRole, setActionModal, set_react.
  cbn [snd react actionModal am_userId am_moduleId am_action am_userRolesList am_open
       permissions sent].
  split; [|done].
  intros r'. unfold roleChecked. cbn [am_selectedRoles].
  rewrite obj_get_set, obj_get_spread.
  destruct (decide (r_id r = r_id r')) as [Heq|Hne].
  - by rewrite decide_True.
  - by rewrite decide_False.
Qed.

Lemma newActions_of_same perm a :
  newActions_of perm a (includes (p_actions perm) a) = p_actions perm.
Proof.
  unfold newActions_of. destruct (includes (p_actions perm) a); reflexivity.
Qed.

(** X8.  Applying the modal exactly as it was opened (no box touched)
    changes no permission: Apply then issues no create request, and each
    update request it issues carries, unchanged, the very row the index
    holds for that role; the only other requests are those of the reload. *)
Theorem open_then_apply_rewrites {S} `{Backend S} (cur : AppState) (U M : Z)
    (A : Action) (w : World S) :
  react w = cur ->
  (exists r, r ∈ roles cur /\ r_id r ∈ userRoleIds (userRoles cur) U) ->
  let w1 := snd (openActionModal cur U M A w) in
  forall rq, rq ∈ issued (applyActionModal (react w1)) w1 ->
    rq ∈ reload_requests
    \/ exists R perm,
         permMap (permissions cur) !! perm_key R M = Some perm
         /\ rq = update_request (p_id perm) perm.
Proof.
  intros Hw (r0 & Hr0 & Hin0). cbv zeta.
  destruct (openActionModal_opened cur U M A w) as (selected & -> & Hget).
  { intros Hnil. eapply userRolesObjects_nil_iff in Hnil; [|exact Hr0]. done. }
  cbn [snd react]. rewrite Hw.
  set (am := Build_ActionModal _ _ _ _ _ _).
  set (w1 := Build_World _ _ _ _ _ _).
  intros rq Hrq.
  destruct (apply_guard_dec am) as [(m & a & Hg)|Hng].
  - destruct (applyActionModal_issued (with_actionModal cur am) w1 m a Hg) as [Heq _].
    rewrite Heq in Hrq. clear Heq.
    destruct Hg as (_ & [= <-] & _ & [= <-]).
    apply elem_of_app in Hrq as [Hrq|Hrq]; [right|by left].
    apply list_elem_of_join in Hrq as (l & Hrq & Hl).
    apply list_elem_of_fmap in Hl as ([R enabled] & -> & He).
    cbn [actionModal with_actionModal am_selectedRoles am permissions] in He, Hrq.
    apply elem_of_Object_entries in He. rewrite Hget in He.
    destruct (decide (R ∈ r_id <$> userRolesObjects (userRoles cur) (roles cur) U));
      [|done].
    injection He as <-. unfold role_requests, grants in Hrq. cbn [fst snd] in Hrq.
    destruct (permMap (permissions cur) !! perm_key R M) as [perm|] eqn:Hl.
    + apply list_elem_of_singleton in Hrq as ->. exists R, perm. split; [done|].
      by rewrite newActions_of_same, with_actions_same.
    + by inversion Hrq.
  - unfold issued in Hrq.
    rewrite (applyActionModal_blocked (with_actionModal cur am) w1 Hng) in Hrq.
    cbn [snd] in Hrq. rewrite drop_all in Hrq. by inversion Hrq.
Qed.

Lemma reader_open_apply_untouched :
  Forall (fun rq =>
            rq ∈ reload_requests
            \/ exists R perm,
                 permMap (permissions reader_state) !! perm_key R 1 = Some perm
                 /\ rq = update_request (p_id perm) perm)
    (issued (applyActionModal
               (react (snd (openActionModal reader_state 1 1 Aread
                              (world_of reader_state reader_store)))))
       (snd (openActionModal reader_state 1 1 Aread
               (world_of reader_state reader_store)))).
Proof.
  apply Forall_forall.
  apply (open_then_apply_rewrites reader_state 1 1 Aread
           (world_of reader_state reader_store)).
  - reflexivity.
  - exists {| r_id := 1; r_name := "Editor" |}. split; [apply list_elem_of_here|].
    vm_compute. apply list_elem_of_here.
Defined.

Example open_then_apply_reader :
  issued (applyActionModal
            (react (snd (openActionModal reader_state 1 1 Aread
                           (world_of reader_state reader_store)))))
         (snd (openActionModal reader_state 1 1 Aread
                 (world_of reader_state reader_store)))
  = update_request (Some 10) reader_row :: reload_requests.
Proof. vm_compute. reflexivity. Qed.

(** ** Loading *)

Lemma setters_run {S} `{Backend S} u m p ur r (w : World S) :
  bind (setUsers u) (fun _ =>
    bind (setModules m) (fun _ =>
      bind (setPermissions p) (fun _ =>
        bind (setUserRoles (fun _ => ur)) (fun _ =>
          bind (setRoles r) (fun _ => setLoading false))))) w
  = (Returned tt,
     {| react := {| users := u; modules := m; permissions := p; userRoles := ur;
                    roles := r; loading := false;
                    fieldsModal := fieldsModal (react w);
                    actionModal := actionModal (react w) |};
        server := server w; sent := sent w; console := console w;
        alerts := alerts w |}).
Proof. reflexivity. Qed.

Lemma loadAll_cases {S} `{Backend S} (w : World S) :
  let '(o1, s1) := get_user (server w) in
  let '(o2, s2) := get_module s1 in
  let '(o3, s3) := get_permissions s2 in
  let '(o4, s4) := get_userRole s3 in
  let '(o5, s5) := get_role s4 in
  sent (snd (loadAll w)) = sent w ++ reload_requests
  /\ server (snd (loadAll w)) = s5
  /\ match reply_result o1, reply_result o2, reply_result o3,
           reply_result o4, reply_result o5 with
     | Returned u, Returned m, Returned p, Returned ur, Returned r =>
         fst (loadAll w) = Returned tt
         /\ react (snd (loadAll w))
            = {| users := u; modules := m; permissions := p; userRoles := ur;
                 roles := r; loading := false;
                 fieldsModal := fieldsModal (react w);
                 actionModal := actionModal (react w) |}
     | _, _, _, _, _ =>
         (exists e, fst (loadAll w) = Threw e)
         /\ react (snd (loadAll w))
            = {| users := users (react w); modules := modules (react w);
                 permissions := permissions (react w);
                 userRoles := userRoles (react w); roles := roles (react w);
                 loading := true;
                 fieldsModal := fieldsModal (react w);
                 actionModal := actionModal (react w) |}
     end.
Proof.
  destruct (get_user (server w)) as [o1 s1] eqn:E1.
  destruct (get_module s1) as [o2 s2] eqn:E2.
  destruct (get_permissions s2) as [o3 s3] eqn:E3.
  destruct (get_userRole s3) as [o4 s4] eqn:E4.
  destruct (get_role s4) as [o5 s5] eqn:E5.
  destruct (loadAll w) as [res w'] eqn:E. cbn [fst snd].
  unfold loadAll in E.
  unfold bind at 1 in E. unfold setLoading at 1, set_react at 1 in E.
  unfold bind at 1 in E. rewrite settle_apiGet_run in E.
  cbn [react server sent console alerts] in E. rewrite E1 in E. cbn [fst snd] in E.
  unfold bind at 1 in E. rewrite settle_apiGet_run in E.
  cbn [react server sent console alerts] in E. rewrite E2 in E. cbn [fst snd] in E.
  unfold bind at 1 in E. rewrite settle_apiGet_run in E.
  cbn [react server sent console alerts] in E. rewrite E3 in E. cbn [fst snd] in E.
  unfold bind at 1 in E. rewrite settle_apiGet_run in E.
  cbn [react server sent console alerts] in E. rewrite E4 in E. cbn [fst snd] in E.
  unfold bind at 1 in E. rewrite settle_apiGet_run in E.
  cbn [react server sent console alerts] in E. rewrite E5 in E. cbn [fst snd] in E.
  rewrite <- !app_assoc in E.
  change (sent w ++ _) with (sent w ++ reload_requests) in E.
  set (w5 := Build_World _ _ _ _ _ _) in E.
  assert (Hw5 : sent w5 = sent w ++ reload_requests /\ server w5 = s5
                /\ react w5 = {| users := users (react w); modules := modules (react w);
                                 permissions := permissions (react w);
                                 userRoles := userRoles (react w);
                                 roles := roles (react w); loading := true;
                                 fieldsModal := fieldsModal (react w);
                                 actionModal := actionModal (react w) |})
    by (split; [reflexivity|split; reflexivity]).
  destruct Hw5 as (Hs5 & Hsrv5 & Hr5). clearbody w5.
  unfold bind at 1, join at 1 in E.
  destruct (reply_result o1) as [u|e1];
    [unfold ret at 1 in E
    |unfold throw at 1 in E; inversion E; subst; cbv beta iota;
      split; [done|split; [done|split; [by eexists|done]]]].
  unfold bind at 1, join at 1 in E.
  destruct (reply_result o2) as [m|e2];
    [unfold ret at 1 in E
    |unfold throw at 1 in E; inversion E; subst; cbv beta iota;
      split; [done|split; [done|split; [by eexists|done]]]].
  unfold bind at 1, join at 1 in E.
  destruct (reply_result o3) as [p|e3];
    [unfold ret at 1 in E
    |unfold throw at 1 in E; inversion E; subst; cbv beta iota;
      split; [done|split; [done|split; [by eexists|done]]]].
  unfold bind at 1, join at 1 in E.
  destruct (reply_result o4) as [ur|e4];
    [unfold ret at 1 in E
    |unfold throw at 1 in E; inversion E; subst; cbv beta iota;
      split; [done|split; [done|split; [by eexists|done]]]].
  unfold bind at 1, join at 1 in E.
  destruct (reply_result o5) as [r|e5];
    [unfold ret at 1 in E
    |unfold throw at 1 in E; inversion E; subst; cbv beta iota;
      split; [done|split; [done|split; [by eexists|done]]]].
  rewrite setters_run in E. inversion E; subst. cbv beta iota. cbn [sent server react].
  rewrite Hr5. cbn [fieldsModal actionModal].
  split; [done|split; [done|split; reflexivity]].
Qed.

(** X9.  [loadAll] is all or nothing.  It marks the screen as loading and
    sends its five requests, in the same order, whatever the replies.  Only
    when all five are answered with an [ok] response whose body is JSON does
    it store the five collections of the replies and clear the loading flag;
    if one is rejected, answered without [ok], or answered with a body that
    is not JSON, [loadAll] throws, the five collections stay as they were and
    the loading flag stays set.  Neither modal is touched. *)
Theorem loadAll_all_or_nothing {S} `{Backend S} (w : World S) :
  let '(o1, s1) := get_user (server w) in
  let '(o2, s2) := get_module s1 in
  let '(o3, s3) := get_permissions s2 in
  let '(o4, s4) := get_userRole s3 in
  let '(o5, s5) := get_role s4 in
  sent (snd (loadAll w)) = sent w ++ reload_requests
  /\ server (snd (loadAll w)) = s5
  /\ match reply_result o1, reply_result o2, reply_result o3,
           reply_result o4, reply_result o5 with
     | Returned u, Returned m, Returned p, Returned ur, Returned r =>
         fst (loadAll w) = Returned tt
         /\ react (snd (loadAll w))
            = {| users := u; modules := m; permissions := p; userRoles := ur;
                 roles := r; loading := false;
                 fieldsModal := fieldsModal (react w);
                 actionModal := actionModal (react w) |}
     | _, _, _, _, _ =>
         (exists e, fst (loadAll w) = Threw e)
         /\ react (snd (loadAll w))
            = {| users := users (react w); modules := modules (react w);
                 permissions := permissions (react w);
                 userRoles := userRoles (react w); roles := roles (react w);
                 loading := true;
                 fieldsModal := fieldsModal (react w);
                 actionModal := actionModal (react w) |}
     end.
Proof. apply loadAll_cases. Qed.

Lemma loadAll_outcome {S} `{Backend S} (w : World S) :
  (fst (loadAll w) = Returned tt /\ loading (react (snd (loadAll w))) = false)
  \/ (exists e, fst (loadAll w) = Threw e)
     /\ react (snd (loadAll w))
        = {| users := users (react w); modules := modules (react w);
             permissions := permissions (react w);
             userRoles := userRoles (react w); roles := roles (react w);
             loading := true;
             fieldsModal := fieldsModal (react w);
             actionModal := actionModal (react w) |}.
Proof.
  pose proof (loadAll_cases w) as Hc.
  destruct (get_user (server w)) as [o1 s1].
  destruct (get_module s1) as [o2 s2].
  destruct (get_permissions s2) as [o3 s3].
  destruct (get_userRole s3) as [o4 s4].
  destruct (get_role s4) as [o5 s5].
  destruct Hc as (_ & _ & Hc).
  destruct (reply_result o1); [|by right].
  destruct (reply_result o2); [|by right].
  destruct (reply_result o3); [|by right].
  destruct (reply_result o4); [|by right].
  destruct (reply_result o5); [|by right].
  left. destruct Hc as [-> ->]. done.
Qed.

(** ** Apply, whatever the backend does *)

Section ApplyRuns.
Context {S : Type} `{Backend S}.

Lemma apply_role_console pm m a e (w : World S) :
  exists k, console (snd (apply_role pm m a e w)) = console w ++ replicate k NetworkError
    /\ (k <= 1)%nat
    /\ ((forall p s, fst (post_permissions p s) <> Rejected) ->
        (forall i p s, fst (put_permissions i p s) <> Rejected) -> k = 0%nat).
Proof.
  destruct e as [roleId enabled]. unfold apply_role.
  destruct (pm !! perm_key roleId m) as [perm|].
  - unfold try_catch, bind, fetch, ret, console_error.
    match goal with |- context [put_permissions ?ident0 ?body0 (server w)] =>
      pose proof (fun Hput : forall x y s, fst (put_permissions x y s) <> Rejected =>
                    Hput ident0 body0 (server w)) as Hnr;
      destruct (put_permissions ident0 body0 (server w)) as [[|ok j] s'] end; cbn in *.
    + exists 1%nat. split; [reflexivity|]. split; [lia|]. intros _ Hput. by destruct (Hnr Hput).
    + exists 0%nat. rewrite app_nil_r. split; [reflexivity|split; [lia|done]].
  - destruct enabled.
    + unfold try_catch, bind, fetch, ret, console_error.
      match goal with |- context [post_permissions ?body0 (server w)] =>
        pose proof (fun Hpost : forall y s, fst (post_permissions y s) <> Rejected =>
                      Hpost body0 (server w)) as Hnr;
        destruct (post_permissions body0 (server w)) as [[|ok j] s'] end; cbn in *.
      * exists 1%nat. split; [reflexivity|]. split; [lia|]. intros Hpost _.
        by destruct (Hnr Hpost).
      * exists 0%nat. rewrite app_nil_r. split; [reflexivity|split; [lia|done]].
    + exists 0%nat. unfold ret. cbn. rewrite app_nil_r. split; [reflexivity|split; [lia|done]].
Qed.

Lemma for_of_apply_console pm m a entries : forall (w : World S),
  exists k, console (snd (for_of entries (apply_role pm m a) w))
            = console w ++ replicate k NetworkError
    /\ (k <= length entries)%nat
    /\ ((forall p s, fst (post_permissions p s) <> Rejected) ->
        (forall i p s, fst (put_permissions i p s) <> Rejected) -> k = 0%nat).
Proof.
  induction entries as [|e entries IH]; intros w.
  - exists 0%nat. cbn. rewrite app_nil_r. split; [reflexivity|split; [lia|done]].
  - cbn [for_of]. unfold bind.
    destruct (apply_role_console pm m a e w) as (k1 & Hc1 & Hk1 & Hz1).
    destruct (apply_role_run pm m a e w) as (Hr & _).
    destruct (apply_role pm m a e w) as [r w1]. cbn [fst snd] in *. subst r.
    destruct (IH w1) as (k2 & Hc2 & Hk2 & Hz2).
    exists (k1 + k2)%nat. rewrite Hc2, Hc1, replicate_add, app_assoc.
    split; [done|]. split; [cbn; lia|].
    intros Hpost Hput. rewrite (Hz1 Hpost Hput), (Hz2 Hpost Hput). done.
Qed.

(** Apply, past its guard, is the loop, then the reload, then the closing of
    the modal. *)
Lemma applyActionModal_steps cur (w : World S) m a :
  apply_guard (actionModal cur) m a ->
  exists w1,
    for_of (Object_entries (am_selectedRoles (actionModal cur)))
      (apply_role (permMap (permissions cur)) m a) w = (Returned tt, w1)
    /\ applyActionModal cur w
       = match loadAll w1 with
         | (Returned _, w2) => setActionModal (fun _ => actionModal_closed) w2
         | (Threw e, w2) => (Threw e, w2)
         end.
Proof.
  intros ((u & Hu & Hu0) & Hm & Hm0 & Ha).
  assert (truthy (Some u) && truthy (Some m) = true) as Hg.
  { unfold truthy. apply andb_true_iff. split; apply negb_true_iff, Z.eqb_neq; done. }
  destruct (for_of_apply_run (permMap (permissions cur)) m a
              (Object_entries (am_selectedRoles (actionModal cur))) w) as (Hr & _).
  destruct (for_of (Object_entries (am_selectedRoles (actionModal cur)))
              (apply_role (permMap (permissions cur)) m a) w) as [r w1] eqn:Ef.
  cbn [fst] in Hr. subst r. exists w1. split; [done|].
  unfold applyActionModal. rewrite Hm, Ha, Hu, Hg.
  rewrite (bind_returned _ _ _ _ _ Ef). unfold bind.
  destruct (loadAll w1) as [[[]|e] w2]; reflexivity.
Qed.

End ApplyRuns.

(** X10.  What Apply sends does not depend on how the backend answers: on
    any two backends, in any state, with any requests rejected or refused,
    the same modal state and snapshot give the same sequence of requests.  A
    failure for one role never stops or alters the requests for the roles
    after it, nor the reload. *)
Theorem apply_requests_independent {S1 S2} `{Backend S1} `{Backend S2}
    (cur : AppState) (w1 : World S1) (w2 : World S2) :
  issued (applyActionModal cur) w1 = issued (applyActionModal cur) w2.
Proof.
  destruct (apply_guard_dec (actionModal cur)) as [(m & a & Hg)|Hng].
  - destruct (applyActionModal_issued cur w1 m a Hg) as [-> _].
    destruct (applyActionModal_issued cur w2 m a Hg) as [-> _]. done.
  - unfold issued.
    rewrite (applyActionModal_blocked cur w1 Hng), (applyActionModal_blocked cur w2 Hng).
    cbn [snd]. by rewrite !drop_all.
Qed.

(** X11.  Past its guard Apply ends in one of two ways.  Either the reload
    succeeded: Apply returns, the action modal is closed and the loading flag
    is cleared.  Or the reload failed: the failure leaves Apply as an
    exception, the action modal is left as it was (still open), the five
    collections are the old ones and the loading flag stays set, although the
    requests for the selected roles have been sent. *)
Theorem apply_outcome {S} `{Backend S} (cur : AppState) (w : World S) (m : Z)
    (a : Action) :
  apply_guard (actionModal cur) m a ->
  let w' := snd (applyActionModal cur w) in
  (fst (applyActionModal cur w) = Returned tt
   /\ actionModal (react w') = actionModal_closed
   /\ loading (react w') = false)
  \/ ((exists e, fst (applyActionModal cur w) = Threw e)
      /\ react w'
         = {| users := users (react w); modules := modules (react w);
              permissions := permissions (react w);
              userRoles := userRoles (react w); roles := roles (react w);
              loading := true;
              fieldsModal := fieldsModal (react w);
              actionModal := actionModal (react w) |}).
Proof.
  intros Hg. cbv zeta.
  destruct (applyActionModal_steps cur w m a Hg) as (w1 & Hloop & ->).
  destruct (for_of_apply_run (permMap (permissions cur)) m a
              (Object_entries (am_selectedRoles (actionModal cur))) w)
    as (_ & _ & Hreact & _).
  rewrite Hloop in Hreact. cbn [snd] in Hreact.
  destruct (loadAll_outcome w1) as [[Hr Hl]|[[e He] Hst]].
  - left. destruct (loadAll w1) as [[[]|e] w2]; [|done].
    cbn [fst snd] in *. unfold setActionModal, set_react. cbn. done.
  - right. destruct (loadAll w1) as [[[]|e'] w2]; [done|].
    cbn [fst snd] in *. split; [by eexists|]. by rewrite Hst, Hreact.
Qed.

(** X12.  Apply logs an error only for a request the network rejects: every
    entry it adds to the console is such a rejection, at most one per selected
    role; and on a backend that answers every create and update request, be
    it with an error status, Apply logs nothing at all -- an answer that is
    not [ok] is not treated as a failure. *)
Theorem apply_logs_rejections_only {S} `{Backend S} (cur : AppState) (w : World S) :
  (exists k, console (snd (applyActionModal cur w))
             = console w ++ replicate k NetworkError
     /\ (k <= length (Object_entries (am_selectedRoles (actionModal cur))))%nat)
  /\ ((forall p s, fst (post_permissions p s) <> Rejected) ->
      (forall i p s, fst (put_permissions i p s) <> Rejected) ->
      console (snd (applyActionModal cur w)) = console w).
Proof.
  destruct (apply_guard_dec (actionModal cur)) as [(m & a & Hg)|Hng].
  - destruct (applyActionModal_steps cur w m a Hg) as (w1 & Hloop & ->).
    destruct (for_of_apply_console (permMap (permissions cur)) m a
                (Object_entries (am_selectedRoles (actionModal cur))) w)
      as (k & Hc & Hk & Hz).
    rewrite Hloop in Hc. cbn [snd] in Hc.
    destruct (loadAll_run w1) as (_ & Hcons & _).
    assert (console (snd (match loadAll w1 with
                          | (Returned _, w2) =>
                              setActionModal (fun _ => actionModal_closed) w2
                          | (Threw e, w2) => (Threw e, w2)
                          end)) = console w ++ replicate k NetworkError) as Hfinal.
    { destruct (loadAll w1) as [[[]|e] w2]; cbn [snd] in *;
        [unfold setActionModal, set_react; cbn [snd console]|]; congruence. }
    split.
    + exists k. done.
    + intros Hpost Hput. rewrite Hfinal, (Hz Hpost Hput). cbn. by rewrite app_nil_r.
  - rewrite (applyActionModal_blocked cur w Hng). cbn [snd]. split; [|done].
    exists 0%nat. cbn. rewrite app_nil_r. split; [done|lia].
Qed.

Lemma reader_apply_ends :
  let cur := reader_modal_open in
  let w := world_of reader_modal_open reader_store in
  let w' := snd (applyActionModal cur w) in
  (fst (applyActionModal cur w) = Returned tt
   /\ actionModal (react w') = actionModal_closed
   /\ loading (react w') = false)
  \/ ((exists e, fst (applyActionModal cur w) = Threw e)
      /\ react w'
         = {| users := users (react w); modules := modules (react w);
              permissions := permissions (react w);
              userRoles := userRoles (react w); roles := roles (react w);
              loading := true;
              fieldsModal := fieldsModal (react w);
              actionModal := actionModal (react w) |}).
Proof.
  apply (apply_outcome reader_modal_open (world_of reader_modal_open reader_store)
           1 Aupdate).
  unfold apply_guard. rewrite reader_modal_open_eq. cbn.
  split; [exists 1; split; [reflexivity|lia]|].
  split; [reflexivity|]. split; [lia|reflexivity].
Defined.

(** When the reload after Apply is dropped, the page stays on its loading
    placeholder with the modal open. *)
Example apply_reload_dropped :
  let '(res, w') :=
    applyActionModal reader_modal_open
      (dropped_world reader_modal_open reader_store [false; false; true]) in
  res = Threw NetworkError
  /\ loading (react w') = true
  /\ am_open (actionModal (react w')) = true
  /\ length (sent w') = 6%nat.
Proof. vm_compute. repeat split. Qed.

Lemma reader_apply_logs_nothing :
  console (snd (applyActionModal reader_modal_open
                  (world_of reader_modal_open reader_store))) = [].
Proof.
  apply (proj2 (apply_logs_rejections_only (S:=Store) reader_modal_open
                  (world_of reader_modal_open reader_store))).
  - intros p s. cbn. discriminate.
  - intros i p s. cbn. discriminate.
Defined.

(** ** The field editor's check boxes *)

Lemma includes_toggle_in l f x :
  includes (toggle_in l f) x
  = if decide (x = f) then negb (includes l f) else includes l x.
Proof.
  unfold toggle_in. destruct (includes l f) eqn:Hf.
  - destruct (decide (x = f)) as [->|Hne]; cbn.
    + unfold includes. apply bool_decide_eq_false. rewrite list_elem_of_filter. tauto.
    + unfold includes. apply bool_decide_ext. rewrite list_elem_of_filter. tauto.
  - destruct (decide (x = f)) as [->|Hne]; cbn.
    + unfold includes. apply bool_decide_eq_true. apply elem_of_app. right.
      apply list_elem_of_here.
    + unfold includes. apply bool_decide_ext. rewrite elem_of_app, list_elem_of_singleton.
      tauto.
Qed.

Lemma NoDup_toggle_in l f : NoDup l -> NoDup (toggle_in l f).
Proof.
  intros Hl. unfold toggle_in. destruct (includes l f) eqn:Hf.
  - by apply NoDup_filter.
  - apply NoDup_app. split; [done|]. split; [|apply NoDup_singleton].
    intros x Hx Hx'. apply list_elem_of_singleton in Hx' as ->.
    apply includes_true in Hx. congruence.
Qed.

(** X13.  A click on a field's box in the editor flips that box and no
    other: the field is added to the list when absent and every occurrence
    of it is removed when present; the other fields, the other list and the
    rest of the state are untouched, and no request is sent.  A list without
    repetitions stays so, and two clicks on the same box bring every box
    back to where it was.  The same holds for the boxes of the editable
    list. *)
Theorem toggle_field_boxes {S} `{Backend S} (f : string) (w : World S) :
  let vis w := fm_visibleFields (fieldsModal (react w)) in
  let edi w := fm_editableFields (fieldsModal (react w)) in
  let v1 := snd (toggleVisibleField f w) in
  let v2 := snd (toggleVisibleField f v1) in
  let e1 := snd (toggleEditableField f w) in
  let e2 := snd (toggleEditableField f e1) in
  (forall x, includes (vis v1) x
     = if decide (x = f) then negb (includes (vis w) f) else includes (vis w) x)
  /\ edi v1 = edi w /\ sent v1 = sent w
  /\ (NoDup (vis w) -> NoDup (vis v1))
  /\ (forall x, includes (vis v2) x = includes (vis w) x)
  /\ (forall x, includes (edi e1) x
        = if decide (x = f) then negb (includes (edi w) f) else includes (edi w) x)
  /\ vis e1 = vis w /\ sent e1 = sent w
  /\ (NoDup (edi w) -> NoDup (edi e1))
  /\ (forall x, includes (edi e2) x = includes (edi w) x).
Proof.
  cbv zeta. unfold toggleVisibleField, toggleEditableField, setFieldsModal, set_react.
  cbn [snd react fieldsModal fm_visibleFields fm_editableFields sent].
  assert (Htwice : forall l x,
    includes (toggle_in (toggle_in l f) f) x = includes l x).
  { intros l x. rewrite !includes_toggle_in.
    destruct (decide (x = f)) as [->|Hne].
    - rewrite decide_True by done. by rewrite negb_involutive.
    - done. }
  repeat split; auto using includes_toggle_in, NoDup_toggle_in.
Qed.

Lemma reader_toggle_date :
  NoDup (fm_visibleFields (fieldsModal (react
           (snd (toggleVisibleField (S:=Store) "date"
                   (world_of reader_editor_open reader_store)))))).
Proof.
  apply (toggle_field_boxes (S:=Store) "date" (world_of reader_editor_open reader_store)).
  unfold world_of. cbn [react]. rewrite reader_editor_open_eq. cbn. apply NoDup_singleton.
Defined.

(** ** Opening the editor, then saving *)

(** X14.  The editor is filled from the row that the index holds for the
    first role of the user and the module (the last row of that pair), with
    an absent field list read as empty, while Save rewrites the first row of
    that pair.  So Open followed at once by Save, for a role and a module
    with non-zero identifiers, first sends an update of the first row that
    carries the field lists of the last row; when the pair has one row only,
    that is the row itself with its absent lists made empty. *)
Theorem open_then_save_payload {S} `{Backend S} (cur : AppState) (U : Z)
    (moduleObj : ModuleRow) (w : World S) l1 rel l2 p1 first p2 :
  react w = cur ->
  userRoles cur = l1 ++ rel :: l2 ->
  (forall ur, ur ∈ l1 -> ur_userId ur <> U) -> ur_userId rel = U ->
  ur_roleId rel <> 0 -> m_id moduleObj <> 0 ->
  permissions cur = p1 ++ first :: p2 ->
  no_row p1 (ur_roleId rel) (m_id moduleObj) ->
  row_of (ur_roleId rel) (m_id moduleObj) first ->
  let w1 := snd (openFieldsEditor cur U moduleObj w) in
  exists lastrow,
    permMap (permissions cur) !! perm_key (ur_roleId rel) (m_id moduleObj) = Some lastrow
    /\ head (issued (saveFieldsModal (react w1)) w1)
       = Some (update_request (p_id first)
                 (with_fields first (or_empty (p_visibleFields lastrow))
                    (or_empty (p_editableFields lastrow))))
    /\ (no_row p2 (ur_roleId rel) (m_id moduleObj) -> lastrow = first).
Proof.
  intros Hw Hlinks Hl1 Hrel HR0 HM0 Hperms Hp1 Hfirst. cbv zeta.
  destruct (openFieldsEditor_found cur U moduleObj w l1 rel l2 Hlinks Hl1 Hrel)
    as [allFields ->].
  cbn [snd react]. rewrite Hw.
  assert (exists lastrow,
    permMap (permissions cur) !! perm_key (ur_roleId rel) (m_id moduleObj) = Some lastrow
    /\ (no_row p2 (ur_roleId rel) (m_id moduleObj) -> lastrow = first))
    as (lastrow & Hlast & Hsingle).
  { rewrite permMap_lookup, Hperms, filter_app, filter_cons_True by done.
    rewrite (filter_none _ p1) by (intros y Hy; apply (Hp1 y Hy)).
    rewrite app_nil_l, last_cons.
    destruct (last (filter (row_of (ur_roleId rel) (m_id moduleObj)) p2)) as [z|] eqn:E.
    - exists z. split; [done|]. intros Hp2.
      rewrite (filter_none _ p2) in E by (intros y Hy; apply (Hp2 y Hy)). done.
    - exists first. done. }
  exists lastrow. split; [done|]. split; [|done].
  set (w1 := Build_World _ _ _ _ _ _).
  rewrite (saveFieldsModal_first
             (with_fieldsModal cur (opened_editor cur rel moduleObj allFields)) w1
             (m_id moduleObj) (ur_roleId rel)).
  2:{ unfold save_guard. cbn. done. }
  cbn [permissions with_fieldsModal fieldsModal opened_editor fm_visibleFields
       fm_editableFields].
  rewrite Hperms at 1.
  rewrite (find_first_split (row_of (ur_roleId rel) (m_id moduleObj)) p1 first p2)
    by (done || (intros y Hy; apply (Hp1 y Hy))).
  rewrite Hlast. done.
Qed.

Lemma reader_open_save_untouched :
  exists lastrow,
    permMap (permissions reader_state) !! perm_key 1 1 = Some lastrow
    /\ head (issued (saveFieldsModal
                       (react (snd (openFieldsEditor reader_state 1 invoices
                                      (world_of reader_state reader_store)))))
               (snd (openFieldsEditor reader_state 1 invoices
                       (world_of reader_state reader_store))))
       = Some (update_request (p_id reader_row)
                 (with_fields reader_row (or_empty (p_visibleFields lastrow))
                    (or_empty (p_editableFields lastrow))))
    /\ (no_row [] 1 1 -> lastrow = reader_row).
Proof.
  apply (open_then_save_payload reader_state 1 invoices
           (world_of reader_state reader_store)
           [] {| ur_id := Some 1; ur_userId := 1; ur_roleId := 1 |} [] [] reader_row []).
  - reflexivity.
  - reflexivity.
  - intros ur Hur. inversion Hur.
  - reflexivity.
  - cbn. lia.
  - cbn. lia.
  - reflexivity.
  - intros p Hp. inversion Hp.
  - split; reflexivity.
Defined.

(** ** Assigning roles *)

Lemma find_first_link (urs : list UserRole) U R :
  find_first (fun ur => ur_userId ur = U ∧ ur_roleId ur = R) urs
  = find_first (link_of U R) urs.
Proof. reflexivity. Qed.

(** X15.  The check box of the Assign Roles tab is checked for a user and
    a role exactly when the role is among the roles the permission matrix
    resolves for that user. *)
Theorem hasRole_iff (urs : list UserRole) (U R : Z) :
  hasRole urs U R = true <-> R ∈ userRoleIds urs U.
Proof.
  unfold hasRole. rewrite bool_decide_eq_true, find_first_link.
  rewrite elem_of_userRoleIds. unfold find_first. split.
  - intros [ur Hur]. apply head_Some_elem_of in Hur.
    apply list_elem_of_filter in Hur as [[? ?] ?]. by exists ur.
  - intros (ur & Hin & HU & HR).
    assert (ur ∈ filter (link_of U R) urs) as Hf by (by apply list_elem_of_filter).
    destruct (filter (link_of U R) urs) as [|x l]; [by inversion Hf|]. by eexists.
Qed.

Section Toggle.
Context {S : Type} `{Backend S}.

Lemma toggleRoleForUser_linked cur U R (w : World S) existing :
  find_first (link_of U R) (userRoles cur) = Some existing ->
  toggleRoleForUser cur U R w
  = (if truthy (ur_id existing) then
       bind (bind (fetch (delete_link_request (ur_id existing))
                     (delete_userRole (show_id (ur_id existing))))
               (fun _ => setUserRoles
                           (fun prev => filter (fun u => ur_id u ≠ ur_id existing) prev)))
            (fun _ => loadAll)
     else loadAll) w.
Proof.
  intros Hfind. unfold toggleRoleForUser. rewrite find_first_link, Hfind.
  destruct (truthy (ur_id existing)); [reflexivity|].
  unfold bind, ret. reflexivity.
Qed.

Lemma toggleRoleForUser_unlinked cur U R (w : World S) :
  find_first (link_of U R) (userRoles cur) = None ->
  toggleRoleForUser cur U R w
  = bind (bind (fetch (create_link_request U R) (post_userRole U R))
            (fun res => bind (res_json res)
                          (fun json => setUserRoles (fun prev => prev ++ [json]))))
         (fun _ => loadAll) w.
Proof.
  intros Hfind. unfold toggleRoleForUser. rewrite find_first_link, Hfind. reflexivity.
Qed.

End Toggle.



(** Behind a gateway that answers the POST with a page that is not JSON,
    the link is created on the server but the handler stops at
    [res.json()]: no reload follows, and the tab keeps showing the box
    unchecked. *)
Example toggle_reply_not_json :
  let w := {| react := reader_state; server := {| upstream := reader_store |};
              sent := []; console := []; alerts := [] |} in
  let w' := snd (toggleRoleForUser reader_state 1 2 w) in
  fst (toggleRoleForUser reader_state 1 2 w) = Threw SyntaxError
  /\ sent w' = [create_link_request 1 2]
  /\ react w' = reader_state
  /\ hasRole (userRoles (react w')) 1 2 = false
  /\ hasRole (db_userRoles (upstream (server w'))) 1 2 = true.
Proof. vm_compute. repeat split. Qed.

(** A link whose identifier is 0 cannot be removed from the tab. *)
Example toggle_link_zero :
  let st := with_actionModal zero_role_state actionModal_closed in
  let urs0 := [{| ur_id := Some 0; ur_userId := 1; ur_roleId := 0 |}] in
  let st0 :=
    {| users := users st; modules := modules st; permissions := permissions st;
       userRoles := urs0; roles := roles st; loading := false;
       fieldsModal := fieldsModal st; actionModal := actionModal st |} in
  issued (toggleRoleForUser st0 1 0) (world_of st0 (set_userRoles zero_role_store urs0))
  = reload_requests.
Proof. vm_compute. reflexivity. Qed.

(** ** Save, when the request is answered *)

(** X17.  Past its guard, and on a backend that answers the create and
    update requests (with any status: the [ok] flag of the answer is never
    looked at), Save sends its one request and then the five of the reload.
    If the reload succeeds Save returns and the editor holds the state the
    handler was created with, closed; if the reload fails the failure leaves
    Save as an exception with the editor as it was and the loading flag
    set. *)
Theorem save_outcome {S} `{Backend S} (cur : AppState) (w : World S) (m r : Z) :
  save_guard (fieldsModal cur) m r ->
  (forall p s, fst (post_permissions p s) <> Rejected) ->
  (forall i p s, fst (put_permissions i p s) <> Rejected) ->
  let w' := snd (saveFieldsModal cur w) in
  (exists rq, issued (saveFieldsModal cur) w = rq :: reload_requests
     /\ (rq_method rq = PUT \/ rq_method rq = POST))
  /\ ((fst (saveFieldsModal cur w) = Returned tt
       /\ fieldsModal (react w') = fm_close (fieldsModal cur)
       /\ loading (react w') = false)
      \/ ((exists e, fst (saveFieldsModal cur w) = Threw e)
          /\ fieldsModal (react w') = fieldsModal (react w)
          /\ loading (react w') = true)).
Proof.
  intros (Hm & Hm0 & Hr & Hr0) Hpost Hput. cbv zeta. unfold issued.
  destruct (saveFieldsModal cur w) as [res w'] eqn:E. cbn [fst snd].
  unfold saveFieldsModal in E. rewrite Hm, Hr in E.
  assert (truthy (Some m) && truthy (Some r) = true) as Hg.
  { unfold truthy. apply andb_true_iff. split; apply negb_true_iff, Z.eqb_neq; done. }
  rewrite Hg in E. unfold bind, fetch, ret, setFieldsModal, set_react in E.
  destruct (find_first (row_of r m) (permissions cur)) as [existing|].
  - match type of E with context [put_permissions ?i ?p (server w)] =>
      pose proof (Hput i p (server w)) as Hnr;
      destruct (put_permissions i p (server w)) as [[|ok j] s1] end; [done|].
    cbn [fst snd react server sent console alerts] in E.
    match type of E with context [loadAll ?w1] =>
      destruct (loadAll_run w1) as (Hs & _ & _ & Hfm & _);
      destruct (loadAll_outcome w1) as [[Hres Hload]|[[e He] Hst]];
      destruct (loadAll w1) as [[[]|e'] w2] end;
      cbn [fst snd react sent fieldsModal loading] in *; try done;
      inversion E; subst; cbn [react sent fieldsModal loading].
    + rewrite Hs, <- app_assoc, drop_app_length. split; [eexists; split; eauto|].
      left. done.
    + rewrite Hs, <- app_assoc, drop_app_length. split; [eexists; split; eauto|].
      right. rewrite Hst. cbn. split; [by eexists|done].
  - match type of E with context [post_permissions ?p (server w)] =>
      pose proof (Hpost p (server w)) as Hnr;
      destruct (post_permissions p (server w)) as [[|ok j] s1] end; [done|].
    cbn [fst snd react server sent console alerts] in E.
    match type of E with context [loadAll ?w1] =>
      destruct (loadAll_run w1) as (Hs & _ & _ & Hfm & _);
      destruct (loadAll_outcome w1) as [[Hres Hload]|[[e He] Hst]];
      destruct (loadAll w1) as [[[]|e'] w2] end;
      cbn [fst snd react sent fieldsModal loading] in *; try done;
      inversion E; subst; cbn [react sent fieldsModal loading].
    + rewrite Hs, <- app_assoc, drop_app_length. split; [eexists; split; eauto|].
      left. done.
    + rewrite Hs, <- app_assoc, drop_app_length. split; [eexists; split; eauto|].
      right. rewrite Hst. cbn. split; [by eexists|done].
Qed.

Lemma reader_save_ends :
  let cur := reader_editor_open in
  let w := world_of reader_editor_open reader_store in
  let w' := snd (saveFieldsModal cur w) in
  (exists rq, issued (saveFieldsModal cur) w = rq :: reload_requests
     /\ (rq_method rq = PUT \/ rq_method rq = POST))
  /\ ((fst (saveFieldsModal cur w) = Returned tt
       /\ fieldsModal (react w') = fm_close (fieldsModal cur)
       /\ loading (react w') = false)
      \/ ((exists e, fst (saveFieldsModal cur w) = Threw e)
          /\ fieldsModal (react w') = fieldsModal (react w)
          /\ loading (react w') = true)).
Proof.
  apply (save_outcome reader_editor_open (world_of reader_editor_open reader_store) 1 1).
  - unfold save_guard. rewrite reader_editor_open_eq. cbn.
    split; [reflexivity|]. split; [lia|]. split; [reflexivity|lia].
  - intros p s. cbn. discriminate.
  - intros i p s. cbn. discriminate.
Defined.

(** ** Against the modelled backend *)

Lemma newActions_fixed_includes p a enabled :
  newActions_of p a enabled = p_actions p -> includes (p_actions p) a = enabled.
Proof.
  unfold newActions_of.
  destruct enabled; destruct (includes (p_actions p) a) eqn:Hinc; cbn; try done.
  - intros Heq. apply (f_equal length) in Heq. rewrite length_app in Heq. cbn in Heq. lia.
  - intros Heq. apply includes_true in Hinc. rewrite <- Heq in Hinc.
    apply list_elem_of_filter in Hinc as [Hne _]. done.
Qed.

Lemma store_step_has_ids pm m a (ps : list Permission) e :
  Forall (fun p => is_Some (p_id p)) ps ->
  Forall (fun p => is_Some (p_id p)) (store_step pm m a ps e).
Proof.
  intros Hall. unfold store_step. destruct (pm !! perm_key e.1 m) as [perm|].
  - apply Forall_fmap. eapply Forall_impl; [exact Hall|].
    intros row Hrow. unfold store_put. cbn.
    destruct (p_id row) as [i|] eqn:Hid; [|done].
    case_bool_decide; [by eexists|by rewrite Hid].
  - destruct (snd e); [|done]. apply Forall_app. split; [done|].
    apply Forall_singleton. by eexists.
Qed.

Lemma store_run_has_ids pm m a entries : forall ps : list Permission,
  Forall (fun p => is_Some (p_id p)) ps ->
  Forall (fun p => is_Some (p_id p)) (foldl (store_step pm m a) ps entries).
Proof.
  induction entries as [|e entries IH]; intros ps Hall; [done|].
  cbn [foldl]. by apply IH, store_step_has_ids.
Qed.

(** X18.  Against the backing API as the specification describes it (every
    request succeeds, rows carry unique identifiers), and starting from the
    snapshot of its store: after Apply has run past its guard and reloaded,
    the permission index grants each selected role the action exactly when
    that role's box was enabled -- so reopening the modal shows the boxes as
    they were submitted. *)
Theorem apply_then_grants (cur : AppState) (w : World Store) (m : Z) (a : Action) :
  NoDup (p_id <$> db_permissions (server w)) ->
  Forall (fun p => is_Some (p_id p)) (db_permissions (server w)) ->
  permissions cur = db_permissions (server w) ->
  apply_guard (actionModal cur) m a ->
  let w1 := snd (applyActionModal cur w) in
  forall R enabled,
    (R, enabled) ∈ Object_entries (am_selectedRoles (actionModal cur)) ->
    grants (permMap (permissions (react w1))) R m a = enabled.
Proof.
  intros Hnd Hids Hsnap Hg. cbv zeta. intros R enabled Hin.
  destruct (applyActionModal_rest cur w m a Hg) as (_ & _ & Hp1 & _).
  cbv zeta in Hp1. rewrite Hp1, Hsnap.
  destruct (first_run_settles m a (permMap (db_permissions (server w)))
              (Object_entries (am_selectedRoles (actionModal cur)))
              (NoDup_Object_entries _) (db_permissions (server w)) Hnd)
    as (_ & Hset & _); [done|].
  specialize (Hset (R, enabled) Hin). unfold settled in Hset. cbn [fst snd] in Hset.
  pose proof (store_run_has_ids (permMap (db_permissions (server w))) m a
                (Object_entries (am_selectedRoles (actionModal cur)))
                (db_permissions (server w)) Hids) as Hids1.
  unfold grants.
  destruct (permMap _ !! perm_key R m) as [p|] eqn:Hl; [|done].
  apply permMap_lookup_Some in Hl as (Hp & _).
  rewrite Forall_forall in Hids1. destruct (Hids1 p Hp) as [i Hi].
  destruct Hset as [Hfix|Hnone]; [|congruence].
  by apply newActions_fixed_includes.
Qed.

Lemma reader_boxes_after_apply :
  Forall (fun e =>
            grants (permMap (permissions (react (snd (applyActionModal reader_modal_open
                      (world_of reader_modal_open reader_store)))))) e.1 1 Aupdate = e.2)
    (Object_entries (am_selectedRoles (actionModal reader_modal_open))).
Proof.
  apply Forall_forall. intros [R enabled].
  apply (apply_then_grants reader_modal_open (world_of reader_modal_open reader_store)
           1 Aupdate).
  - cbn. apply NoDup_singleton.
  - cbn. apply Forall_singleton. by eexists.
  - reflexivity.
  - unfold apply_guard. rewrite reader_modal_open_eq. cbn.
    split; [exists 1; split; [reflexivity|lia]|].
    split; [reflexivity|]. split; [lia|reflexivity].
Defined.

Lemma fresh_id_pos (ids : list (option Z)) : 0 < fresh_id ids.
Proof.
  unfold fresh_id.
  assert (0 <= foldr (fun o acc => Z.max (default 0 o) acc) 0 ids); [|lia].
  induction ids as [|o ids IH]; cbn; lia.
Qed.

Lemma toggle_on_rest cur U R (w : World Store) :
  find_first (link_of U R) (userRoles cur) = None ->
  let row := {| ur_id := Some (fresh_id (ur_id <$> db_userRoles (server w)));
                ur_userId := U; ur_roleId := R |} in
  server (snd (toggleRoleForUser cur U R w))
    = set_userRoles (server w) (db_userRoles (server w) ++ [row])
  /\ userRoles (react (snd (toggleRoleForUser cur U R w)))
     = db_userRoles (server w) ++ [row].
Proof.
  intros Hfind. cbv zeta. rewrite (toggleRoleForUser_unlinked cur U R w Hfind).
  split; reflexivity.
Qed.

Lemma toggle_off_rest cur U R (w : World Store) existing i :
  find_first (link_of U R) (userRoles cur) = Some existing ->
  ur_id existing = Some i -> i <> 0 ->
  server (snd (toggleRoleForUser cur U R w))
    = set_userRoles (server w)
        (filter (fun row => addressed (pretty i) (ur_id row) = false)
           (db_userRoles (server w)))
  /\ userRoles (react (snd (toggleRoleForUser cur U R w)))
     = filter (fun row => addressed (pretty i) (ur_id row) = false)
         (db_userRoles (server w)).
Proof.
  intros Hfind Hid Hi. rewrite (toggleRoleForUser_linked cur U R w existing Hfind).
  rewrite Hid. unfold truthy.
  assert (negb (i =? 0) = true) as -> by (by apply negb_true_iff, Z.eqb_neq).
  split; reflexivity.
Qed.

Lemma filter_unaddressed (urs : list UserRole) i :
  Some i ∉ ur_id <$> urs ->
  filter (fun row => addressed (pretty i) (ur_id row) = false) urs = urs.
Proof.
  intros Hnin. apply filter_all. intros row Hrow. unfold addressed.
  destruct (ur_id row) as [j|] eqn:Hj; [|done].
  apply bool_decide_eq_false. intros Heq. apply (inj pretty) in Heq. subst j.
  apply Hnin. rewrite <- Hj. by apply list_elem_of_fmap_2.
Qed.

(** X19.  Against the backing API as the specification describes it, and
    starting from the snapshot of its store: for a user without a link to a
    role, a click on the box of the Assign Roles tab creates the link, so
    that after the reload the box is checked; a second click removes exactly
    that link, and the stored links, the reloaded snapshot and the box are
    back where they started. *)
Theorem toggle_role_twice (cur : AppState) (w : World Store) (U R : Z) :
  userRoles cur = db_userRoles (server w) ->
  (forall ur, ur ∈ userRoles cur -> ~ link_of U R ur) ->
  let w1 := snd (toggleRoleForUser cur U R w) in
  let w2 := snd (toggleRoleForUser (react w1) U R w1) in
  hasRole (userRoles (react w1)) U R = true
  /\ db_userRoles (server w2) = db_userRoles (server w)
  /\ userRoles (react w2) = db_userRoles (server w)
  /\ hasRole (userRoles (react w2)) U R = false.
Proof.
  intros Hsnap Hno. cbv zeta.
  assert (Hnone : find_first (link_of U R) (userRoles cur) = None)
    by (by apply find_first_None).
  destruct (toggle_on_rest cur U R w Hnone) as [Hs1 Hu1]. cbv zeta in Hs1, Hu1.
  set (w1 := snd (toggleRoleForUser cur U R w)) in *.
  set (row := {| ur_id := Some (fresh_id (ur_id <$> db_userRoles (server w)));
                 ur_userId := U; ur_roleId := R |}) in *.
  assert (Hfound : find_first (link_of U R) (userRoles (react w1)) = Some row).
  { rewrite Hu1. apply find_first_split; [|done].
    intros ur Hur. apply Hno. by rewrite Hsnap. }
  destruct (toggle_off_rest (react w1) U R w1 row
              (fresh_id (ur_id <$> db_userRoles (server w))) Hfound eq_refl)
    as [Hs2 Hu2].
  { pose proof (fresh_id_pos (ur_id <$> db_userRoles (server w))). lia. }
  assert (Hback : filter (fun r0 => addressed
                     (pretty (fresh_id (ur_id <$> db_userRoles (server w))))
                     (ur_id r0) = false) (db_userRoles (server w1))
                  = db_userRoles (server w)).
  { rewrite Hs1. unfold set_userRoles. cbn [db_userRoles].
    rewrite filter_app, filter_unaddressed by apply fresh_id_fresh.
    rewrite filter_cons_False, filter_nil, app_nil_r; [done|].
    unfold addressed. cbn [ur_id row]. rewrite bool_decide_eq_true_2; done. }
  rewrite Hs2, Hu2, Hback. unfold set_userRoles. cbn [db_userRoles].
  split; [|split; [done|split; [done|]]].
  - unfold hasRole. rewrite find_first_link, Hfound. by apply bool_decide_eq_true.
  - unfold hasRole. rewrite find_first_link, <- Hsnap, Hnone.
    apply bool_decide_eq_false. by intros [? ?].
Qed.

Lemma reader_assign_twice :
  let w := world_of reader_state reader_store in
  let w1 := snd (toggleRoleForUser reader_state 1 2 w) in
  let w2 := snd (toggleRoleForUser (react w1) 1 2 w1) in
  hasRole (userRoles (react w1)) 1 2 = true
  /\ db_userRoles (server w2) = db_userRoles (server w)
  /\ userRoles (react w2) = db_userRoles (server w)
  /\ hasRole (userRoles (react w2)) 1 2 = false.
Proof.
  apply (toggle_role_twice reader_state (world_of reader_state reader_store) 1 2).
  - reflexivity.
  - intros ur Hur [_ HR]. apply list_elem_of_singleton in Hur. subst ur. cbn in HR. lia.
Defined.

(** ** What Apply never touches *)

(** X20.  Apply only ever writes permissions of the modal's module for
    roles of the selection: besides the five requests of the reload, every
    request it issues is a POST or a PUT whose body is a permission of that
    module and of a role that has an entry in the selection.  It sends no
    DELETE, at most one request about any one role, and in all at most one
    request per entry besides the reload. *)
Theorem apply_writes_within_selection {S} `{Backend S} (cur : AppState) (w : World S) :
  (forall rq, rq ∈ issued (applyActionModal cur) w ->
     rq ∈ reload_requests
     \/ exists p enabled,
          rq_body rq = Some (BPermission p)
          /\ (rq_method rq = POST \/ rq_method rq = PUT)
          /\ am_moduleId (actionModal cur) = Some (p_moduleId p)
          /\ (p_roleId p, enabled) ∈ Object_entries (am_selectedRoles (actionModal cur)))
  /\ (length (issued (applyActionModal cur) w)
      <= length (Object_entries (am_selectedRoles (actionModal cur)))
         + length reload_requests)%nat
  /\ (forall R,
        (length (filter (about_role R) (issued (applyActionModal cur) w)) <= 1)%nat).
Proof.
  destruct (apply_guard_dec (actionModal cur)) as [(m & a & Hg)|Hng].
  - destruct (applyActionModal_issued cur w m a Hg) as [-> _].
    destruct Hg as (_ & Hm & _ & Ha). split; [|split].
    + intros rq Hrq. apply elem_of_app in Hrq as [Hrq|Hrq]; [right|by left].
      apply list_elem_of_join in Hrq as (l & Hrq & Hl).
      apply list_elem_of_fmap in Hl as ([R enabled] & -> & He).
      unfold role_requests in Hrq. cbn [fst snd] in Hrq.
      destruct (permMap (permissions cur) !! perm_key R m) as [perm|] eqn:Hl.
      * apply list_elem_of_singleton in Hrq as ->.
        apply permMap_lookup_Some in Hl as (_ & HR & HM).
        eexists _, enabled. split; [reflexivity|]. split; [by right|].
        cbn. rewrite HM, HR. done.
      * destruct enabled; [|by inversion Hrq].
        apply list_elem_of_singleton in Hrq as ->.
        eexists _, true. split; [reflexivity|]. split; [by left|]. done.
    + rewrite length_app. apply Nat.add_le_mono_r.
      induction (Object_entries (am_selectedRoles (actionModal cur))) as [|e l IH];
        [done|].
      rewrite fmap_cons. cbn [mjoin list_join]. rewrite length_app. cbn [length].
      apply (Nat.add_le_mono _ 1 _ (length l)); [|exact IH].
      unfold role_requests. repeat case_match; cbn; lia.
    + intros R. rewrite filter_app, filter_about_role_reload, app_nil_r.
      destruct (decide (R ∈ fst <$> Object_entries (am_selectedRoles (actionModal cur))))
        as [Hin|Hnin].
      * apply list_elem_of_fmap in Hin as ([R' enabled] & -> & He).
        rewrite (filter_about_role _ _ _ _ _ enabled (NoDup_Object_entries _) He).
        unfold role_requests. repeat case_match; cbn; lia.
      * rewrite filter_none; [cbn; lia|].
        intros rq Hrq Habout. apply list_elem_of_join in Hrq as (l & Hrq & Hl).
        apply list_elem_of_fmap in Hl as (e & -> & He).
        apply role_requests_about in Hrq. unfold about_role in *.
        destruct (rq_body rq) as [[p|? ?]|]; try done.
        apply Hnin. rewrite <- Habout, Hrq. by apply list_elem_of_fmap_2.
  - unfold issued. rewrite (applyActionModal_blocked cur w Hng). cbn [snd].
    rewrite drop_all. split; [by inversion 1|split; [cbn; lia|intros R; cbn; lia]].
Qed.
